(** * Behatrix: behavioural strings analysis

    A shallow embedding of [behatrix_cli.py]: the sequence parser
    ([remove_comments], [behav_strings_stats]), the exclusion validator
    ([check_exclusion_list]), the transition matrix builder
    ([create_observed_transition_matrix]), the constrained permutation
    generator and its driver ([strings_permutation], [permutations_test]) and
    the share/merge arithmetic of [main].

    Conventions of the embedding.
    - A Python [str] is a [string]; a character is an [ascii], read as the
      code point of that number (code points below 256).  The tables
      [isspace] and [isalnum] are Python's on that range.
    - A Python [dict] is a [gmap]; a [list] is a [list].
    - A numpy matrix of counts is a [list (list nat)]: its cells only ever
      hold whole numbers, which float64 represents exactly below 2^53.
    - A function that can raise returns a [result]; [Raise e] is the
      exception, [OutOfFuel] says that a [while] loop was still running
      after the given number of iterations.
    - [random.choice] reads an oracle [rnd : nat -> nat]; the state is the
      number of draws made so far. *)

From Stdlib Require Import ZArith Lia Ascii String Sorted.
From stdpp Require Import base option list gmap strings.

Local Open Scope Z_scope.
Local Open Scope nat_scope.

(** ** Results, exceptions *)

Inductive exn : Type :=
| IndexError
| ValueError
| TypeError.

Inductive result (A : Type) : Type :=
| Ret (a : A)
| Raise (e : exn)
| OutOfFuel.

Arguments Ret {A} a.
Arguments Raise {A} e.
Arguments OutOfFuel {A}.

Definition rbind {A B} (r : result A) (k : A -> result B) : result B :=
  match r with
  | Ret a => k a
  | Raise e => Raise e
  | OutOfFuel => OutOfFuel
  end.

(** ** Python built-ins on strings *)

Module Py.

(** [str.isspace] for one character. *)
Definition isspace (c : ascii) : bool :=
  let n := nat_of_ascii c in
  ((9 <=? n) && (n <=? 13)) || ((28 <=? n) && (n <=? 32))
  || (n =? 133) || (n =? 160).

(** [str.isalnum] for one character. *)
Definition isalnum_char (c : ascii) : bool :=
  let n := nat_of_ascii c in
  ((48 <=? n) && (n <=? 57)) || ((65 <=? n) && (n <=? 90))
  || ((97 <=? n) && (n <=? 122))
  || (n =? 170) || (n =? 178) || (n =? 179) || (n =? 181)
  || (n =? 185) || (n =? 186) || ((188 <=? n) && (n <=? 190))
  || ((192 <=? n) && (n <=? 214)) || ((216 <=? n) && (n <=? 246))
  || ((248 <=? n) && (n <=? 255)).

Fixpoint all_chars (p : ascii -> bool) (s : string) : bool :=
  match s with
  | EmptyString => true
  | String c s' => p c && all_chars p s'
  end.

(** [s.isalnum()]: every character is alphanumeric and there is one. *)
Definition isalnum (s : string) : bool :=
  match s with
  | EmptyString => false
  | _ => all_chars isalnum_char s
  end.

(** [ord(s)]: defined on strings of length one. *)
Definition ord (s : string) : result nat :=
  match s with
  | String c EmptyString => Ret (nat_of_ascii c)
  | _ => Raise TypeError
  end.

(** [list(s)]: the characters of [s], each a string of length one. *)
Fixpoint chars (s : string) : list string :=
  match s with
  | EmptyString => []
  | String c s' => String c EmptyString :: chars s'
  end.

(** [s.startswith(p)]. *)
Definition startswith (s p : string) : bool := String.prefix p s.

(** [sep.join(l)]. *)
Definition join (sep : string) (l : list string) : string :=
  String.concat sep l.

(** [s.split(sep)] for a non-empty [sep]: left to right, non-overlapping.
    [skip] counts the characters of a matched separator still to pass,
    [cur] is the piece being read. *)
Fixpoint split_go (sep : string) (skip : nat) (cur s : string) : list string :=
  match s with
  | EmptyString => [cur]
  | String c s' =>
      match skip with
      | S k => split_go sep k cur s'
      | O =>
          if String.prefix sep s
          then cur :: split_go sep (String.length sep - 1) EmptyString s'
          else split_go sep O (cur +:+ String c EmptyString) s'
      end
  end.

Definition split (s sep : string) : list string :=
  split_go sep 0 EmptyString s.

(** [s.split()]: split on runs of whitespace, no empty piece. *)
Fixpoint split_ws_go (cur s : string) : list string :=
  match s with
  | EmptyString =>
      match cur with EmptyString => [] | _ => [cur] end
  | String c s' =>
      if isspace c
      then match cur with
           | EmptyString => split_ws_go EmptyString s'
           | _ => cur :: split_ws_go EmptyString s'
           end
      else split_ws_go (cur +:+ String c EmptyString) s'
  end.

Definition split_ws (s : string) : list string :=
  split_ws_go EmptyString s.

(** [s.replace(old, new)] for a non-empty [old]. *)
Definition replace (s old new : string) : string :=
  join new (split s old).

Fixpoint lstrip (s : string) : string :=
  match s with
  | EmptyString => EmptyString
  | String c s' => if isspace c then lstrip s' else s
  end.

(** [s.strip()]. *)
Definition strip (s : string) : string :=
  String.rev (lstrip (String.rev (lstrip s))).

(** [sub in s] on strings. *)
Fixpoint contains (s sub : string) : bool :=
  String.prefix sub s ||
  match s with
  | EmptyString => false
  | String _ s' => contains s' sub
  end.

(** [l.index(x)]: position of the first occurrence. *)
Fixpoint index (l : list string) (x : string) : result nat :=
  match l with
  | [] => Raise ValueError
  | y :: l' =>
      if decide (y = x) then Ret 0
      else rbind (index l' x) (fun i => Ret (S i))
  end.

(** [l.remove(x)]: drops the first occurrence. *)
Fixpoint remove (l : list string) (x : string) : result (list string) :=
  match l with
  | [] => Raise ValueError
  | y :: l' =>
      if decide (y = x) then Ret l'
      else rbind (remove l' x) (fun r => Ret (y :: r))
  end.

(** [l[a:b]] for [0 <= a] and any integer [b]. *)
Definition slice {A} (l : list A) (a : nat) (b : Z) : list A :=
  let stop :=
    if (b <? 0)%Z then Z.to_nat (Z.of_nat (length l) + b) else Z.to_nat b in
  drop a (take stop l).

(** Insertion sort by code points, the order of [list.sort] on [str]. *)
Fixpoint insert_sorted (x : string) (l : list string) : list string :=
  match l with
  | [] => [x]
  | y :: l' => if String.leb x y then x :: l else y :: insert_sorted x l'
  end.

Definition sort (l : list string) : list string :=
  foldr insert_sorted [] l.

End Py.

(** ** The error monad *)

Global Instance result_ret : MRet result := fun _ a => Ret a.
Global Instance result_bind : MBind result := fun _ _ k r => rbind r k.

(** A [for] loop whose body can raise. *)
Fixpoint for_each {A S} (body : S -> A -> result S) (l : list A) (s : S) : result S :=
  match l with
  | [] => Ret s
  | x :: l' => s' ← body s x; for_each body l' s'
  end.

(** [d[k] += 1] if [k in d], else [d[k] = 1]. *)
Definition count_up (k : string) (m : gmap string nat) : gmap string nat :=
  match m !! k with
  | Some n => <[k := n + 1]> m
  | None => <[k := 1]> m
  end.

(** [d[k] += n] if [k in d], else [d[k] = n]. *)
Definition add_up (k : string) (n : nat) (m : gmap string nat) : gmap string nat :=
  match m !! k with
  | Some v => <[k := v + n]> m
  | None => <[k := n]> m
  end.

(** The adjacent pairs [(seq[i], seq[i + 1])] for [i in range(len(seq) - 1)],
    in that order. *)
Fixpoint adjacent {A} (seq : list A) : list (A * A) :=
  match seq with
  | x :: (y :: _) as t => (x, y) :: adjacent t
  | _ => []
  end.

(** ** Sequence parser *)

Definition SEPARATOR : string :=
  "@%&" +:+ String (ascii_of_nat 163) "$".

Definition remove_comments (s : string) : string :=
  Py.join "
" (filter (fun x => Py.startswith x "#" = false) (Py.split s "
")).

(** What [behav_strings_stats] returns, a tuple of nine, and the locals of
    its loop over the rows.  [not_alnum] is assigned in the loop and is not
    among the returned values.  The locals [min_chunk_length] and
    [pos_not_alnum], which are never read, are left out. *)
Record stats : Type := Stats {
  return_code : nat;
  sequences : list (list string);
  d : gmap string nat;
  nodes : gmap string nat;
  starting_nodes : gmap string nat;
  tot_nodes : nat;
  tot_trans : nat;
  tot_trans_after_node : gmap string nat;
  behaviours : list string
}.

Record parse_state : Type := ParseState {
  st_sequences : list (list string);
  st_d : gmap string nat;
  st_nodes : gmap string nat;
  st_starting_nodes : gmap string nat;
  st_not_alnum : list nat;
  st_line_count : nat
}.

Definition parse_init : parse_state :=
  ParseState [] ∅ ∅ ∅ [] 0.

(** [for node in r: ...] *)
Definition scan_node (flagOne : bool) (line_count : nat)
    (acc : list nat * gmap string nat) (node : string)
    : result (list nat * gmap string nat) :=
  let '(not_alnum, nodes) := acc in
  not_alnum' ←
    (if flagOne && negb (Py.isalnum node)
     then c ← Py.ord node; Ret [line_count; c]
     else Ret not_alnum);
  Ret (not_alnum', count_up node nodes).

(** [for i in range(len(r) - 1): ...]; [i] is carried along. *)
Definition scan_pair (acc : nat * gmap string nat * gmap string nat)
    (p : string * string) : nat * gmap string nat * gmap string nat :=
  let '(i, starting_nodes, d) := acc in
  let starting_nodes' :=
    if i =? 0 then count_up p.1 starting_nodes else starting_nodes in
  (S i, starting_nodes', count_up (p.1 +:+ SEPARATOR +:+ p.2) d).

(** The body of [for row in rows]. *)
Definition parse_row (flagOne : bool) (chunk : Z) (behaviors_separator : string)
    (st : parse_state) (row : string) : result parse_state :=
  match row with
  | EmptyString => Ret st
  | _ =>
      let r :=
        if flagOne then Py.chars (Py.strip row)
        else Py.split (Py.strip row) behaviors_separator in
      let r := if (chunk =? 0)%Z then r else Py.slice r 0 chunk in
      let line_count := st_line_count st + 1 in
      '(not_alnum, nodes) ←
        for_each (scan_node flagOne line_count) r (st_not_alnum st, st_nodes st);
      let '(_, starting_nodes, d) :=
        foldl scan_pair (0, st_starting_nodes st, st_d st) (adjacent r) in
      Ret (ParseState (st_sequences st ++ [r]) d nodes starting_nodes
             not_alnum line_count)
  end.

(** [b1, b2 = i.split(SEPARATOR)] and the accumulation that follows. *)
Definition after_node (acc : gmap string nat) (kv : string * nat)
    : result (gmap string nat) :=
  match Py.split kv.1 SEPARATOR with
  | [b1; _] => Ret (add_up b1 kv.2 acc)
  | _ => Raise ValueError
  end.

(** [for seq in sequences: for c in seq: if c not in behaviours: append]. *)
Definition unique_behaviours (sequences : list (list string)) : list string :=
  foldl (fun acc seq =>
           foldl (fun acc c => if decide (c ∈ acc) then acc else acc ++ [c])
                 acc seq)
        [] sequences.

Definition parse_rows (text : string) (chunk : Z) (behaviors_separator : string)
    : result parse_state :=
  let text := remove_comments text in
  let flagOne := match behaviors_separator with EmptyString => true | _ => false end in
  let rows :=
    if flagOne then Py.split_ws (Py.replace text " " "")
    else Py.split text "
" in
  for_each (parse_row flagOne chunk behaviors_separator) rows parse_init.

Definition behav_strings_stats (text : string) (chunk : Z)
    (behaviors_separator : string) : result stats :=
  st ← parse_rows text chunk behaviors_separator;
  let d := st_d st in
  let tot_trans := map_fold (fun _ v acc => acc + v) 0 d in
  tot_trans_after_node ← for_each after_node (map_to_list d) ∅;
  let tot_nodes := map_fold (fun _ v acc => acc + v) 0 (st_nodes st) in
  let behaviours := Py.sort (unique_behaviours (st_sequences st)) in
  Ret (Stats 0 (st_sequences st) d (st_nodes st) (st_starting_nodes st)
         tot_nodes tot_trans tot_trans_after_node behaviours).

(** ** Exclusion validator *)

(** The dictionary [check_exclusion_list] returns: the key ["message"] is
    present on failure only. *)
Record check_result : Type := CheckResult {
  error_code : nat;
  message : option string;
  exclusion_list : gmap string (list string)
}.

(** The body of [for row in rows]. *)
Definition exclusion_row (behaviors_separator : string)
    (exclusion_list : gmap string (list string)) (row : string)
    : result (gmap string (list string)) :=
  match Py.strip row with
  | EmptyString => Ret exclusion_list
  | String _ _ =>
      if Py.contains row ":" then
        match Py.split (Py.strip row) ":" with
        | [s1; s2] =>
            match s1, s2 with
            | String _ _, String _ _ =>
                let exclusion_list :=
                  match exclusion_list !! s1 with
                  | None => <[s1 := []]> exclusion_list
                  | Some _ => exclusion_list
                  end in
                let old := default [] (exclusion_list !! s1) in
                let added :=
                  match behaviors_separator with
                  | EmptyString => Py.chars s2
                  | String _ _ =>
                      if Py.contains s2 behaviors_separator
                      then Py.split s2 behaviors_separator
                      else Py.chars s2
                  end in
                Ret (<[s1 := old ++ added]> exclusion_list)
            | _, _ => Ret exclusion_list
            end
        | _ => Raise ValueError
        end
      else Ret exclusion_list
  end.

(** The first loop of [check_exclusion_list]: the exclusion map of a spec. *)
Definition parse_exclusions (exclusion_str behaviors_separator : string)
    : result (gmap string (list string)) :=
  match exclusion_str with
  | EmptyString => Ret ∅
  | String _ _ =>
      for_each (exclusion_row behaviors_separator) (Py.split exclusion_str "
") ∅
  end.

(** [a in exclusion_list and b in exclusion_list[a]]. *)
Definition excluded (exclusion_list : gmap string (list string))
    (p : string * string) : bool :=
  match exclusion_list !! p.1 with
  | Some l => bool_decide (p.2 ∈ l)
  | None => false
  end.

(** [for i in range(len(seq) - 1)], left at the first excluded pair. *)
Fixpoint scan_seq (exclusion_list : gmap string (list string))
    (pairs : list (string * string)) : option (string * string) :=
  match pairs with
  | [] => None
  | p :: rest =>
      if excluded exclusion_list p then Some p
      else scan_seq exclusion_list rest
  end.

(** [for seq in sequences], left at the first excluded pair. *)
Fixpoint scan_sequences (exclusion_list : gmap string (list string))
    (sequences : list (list string)) : option (string * string) :=
  match sequences with
  | [] => None
  | seq :: rest =>
      match scan_seq exclusion_list (adjacent seq) with
      | Some p => Some p
      | None => scan_sequences exclusion_list rest
      end
  end.

Definition excluded_message (a b : string) : string :=
  "The behavioral strings contain an excluded transition: "
  +:+ a +:+ " -> " +:+ b.

Definition check_exclusion_list (exclusion_str : string)
    (sequences : list (list string)) (behaviors_separator : string)
    : result check_result :=
  exclusion_list ← parse_exclusions exclusion_str behaviors_separator;
  match exclusion_str with
  | EmptyString => Ret (CheckResult 0 None exclusion_list)
  | String _ _ =>
      match scan_sequences exclusion_list sequences with
      | Some (a, b) => Ret (CheckResult 1 (Some (excluded_message a b)) ∅)
      | None => Ret (CheckResult 0 None exclusion_list)
      end
  end.

(** ** Transition matrices *)

(** [np.zeros((n, n))]. *)
Definition zeros (n : nat) : list (list nat) := replicate n (replicate n 0).

(** [m[i, j] += 1]. *)
Definition bump (i j : nat) (m : list (list nat)) : list (list nat) :=
  alter (alter S j) i m.

(** [m[i, j]], read as 0 outside the matrix. *)
Definition cell (m : list (list nat)) (i j : nat) : nat :=
  default 0 ((m !! i) ≫= (fun row => row !! j)).

(** The sum of all cells. *)
Definition matrix_sum (m : list (list nat)) : nat :=
  sum_list (sum_list <$> m).

(** [a + b] on matrices of one shape. *)
Definition matrix_add (a b : list (list nat)) : list (list nat) :=
  zip_with (zip_with Nat.add) a b.

(** [a >= b] on matrices of one shape, [True] counted as 1. *)
Definition matrix_ge (a b : list (list nat)) : list (list nat) :=
  zip_with (zip_with (fun x y => if y <=? x then 1 else 0)) a b.

(** An [n] by [n] matrix. *)
Definition square (n : nat) (m : list (list nat)) : Prop :=
  length m = n ∧ Forall (fun row => length row = n) m.

(** The body of the inner loop of [create_observed_transition_matrix].
    Under the membership test [behaviours.index] finds both tokens. *)
Definition observe_pair (behaviours : list string)
    (m : list (list nat)) (p : string * string) : list (list nat) :=
  if decide (p.1 ∈ behaviours ∧ p.2 ∈ behaviours) then
    match Py.index behaviours p.1, Py.index behaviours p.2 with
    | Ret i, Ret j => bump i j m
    | _, _ => m
    end
  else m.

Definition create_observed_transition_matrix
    (sequences : list (list string)) (behaviours : list string)
    : list (list nat) :=
  foldl (fun m seq => foldl (observe_pair behaviours) m (adjacent seq))
        (zeros (length behaviours)) sequences.

(** ** Constrained permutation generator *)

(** [seq[0]] and [seq[-1]]. *)
Definition item_first (seq : list string) : result string :=
  match seq with
  | [] => Raise IndexError
  | x :: _ => Ret x
  end.

Definition item_last (seq : list string) : result string :=
  match last seq with
  | None => Raise IndexError
  | Some x => Ret x
  end.

(** [seq[int(block_first):len(seq) - int(block_last)]]. *)
Definition interior (block_first block_last : bool) (seq : list string)
    : list string :=
  Py.slice seq (if block_first then 1 else 0)
    (Z.of_nat (length seq) - (if block_last then 1 else 0))%Z.

(** [[x for x in l if x != i]]. *)
Definition without (i : string) (l : list string) : list string :=
  filter (fun x => x ≠ i) l.

(** The pool of one draw: [space] less every token excluded after
    [element]. *)
Definition candidates (exclusion_list : gmap string (list string))
    (element : string) (space : list string) : list string :=
  match exclusion_list !! element with
  | Some l => foldl (fun lspazio3 i => without i lspazio3) space l
  | None => space
  end.

(** The condition of the [while] loop:
    [new_element in exclusion_list and seq[-1] in exclusion_list[new_element]]. *)
Definition tail_excluded (exclusion_list : gmap string (list string))
    (seq : list string) (new_element : string) : result bool :=
  match exclusion_list !! new_element with
  | None => Ret false
  | Some l => t ← item_last seq; Ret (bool_decide (t ∈ l))
  end.

Section Generator.

(** The random source: [rnd k] is the number behind the [k]-th draw. *)
Variable rnd : nat -> nat.

(** [random.choice(l)] as the [k]-th draw. *)
Definition choice (l : list string) (k : nat) : result (string * nat) :=
  match l !! (rnd k mod length l) with
  | Some x => Ret (x, S k)
  | None => Raise IndexError
  end.

Variable exclusion_list : gmap string (list string).
Variables block_first block_last : bool.

(** The [while] loop on the penultimate token.  [None] is [return []]. *)
Fixpoint redraw (fuel : nat) (seq space : list string) (element : string)
    (new_element : string) (lspazio2 : list string) (k : nat)
    : result (option string * nat) :=
  again ← tail_excluded exclusion_list seq new_element;
  if again : bool then
    match fuel with
    | O => OutOfFuel
    | S fuel' =>
        match lspazio2 with
        | [] => Ret (None, k)
        | _ :: _ =>
            '(new_element, k) ← choice lspazio2 k;
            let lspazio2 := space in
            let lspazio2 :=
              if decide (element ∈ lspazio2)
              then without element lspazio2 else lspazio2 in
            t ← item_last seq;
            let lspazio2 :=
              if decide (t ∈ lspazio2)
              then without t lspazio2 else lspazio2 in
            redraw fuel' seq space element new_element lspazio2 k
        end
    end
  else Ret (Some new_element, k).

(** The loop [for c in seq[...]] over the positions to fill.  The result
    is the pool and the sequence built, [None] for [return []]. *)
Fixpoint draw (fuel : nat) (seq positions space newseq : list string)
    (element : string) (k : nat)
    : result (option (list string * list string) * nat) :=
  match positions with
  | [] => Ret (Some (space, newseq), k)
  | _ :: positions' =>
      let lspazio2 := candidates exclusion_list element space in
      match lspazio2 with
      | [] => Ret (None, k)
      | _ :: _ =>
          '(new_element, k) ← choice lspazio2 k;
          space ← Py.remove space new_element;
          '(r, k) ←
            (if block_last &&
                bool_decide (Z.of_nat (length newseq)
                             = Z.of_nat (length seq) - 2)%Z
             then redraw fuel seq space element new_element lspazio2 k
             else Ret (Some new_element, k));
          match r with
          | None => Ret (None, k)
          | Some new_element =>
              draw fuel seq positions' space (newseq ++ [new_element])
                new_element k
          end
      end
  end.

(** The body of [for seq in sequences]. *)
Definition permute_sequence (fuel : nat) (space seq : list string) (k : nat)
    : result (option (list string * list string) * nat) :=
  '(newseq, element) ←
    (if block_first then x ← item_first seq; Ret ([x], x)
     else Ret ([], EmptyString));
  '(r, k) ←
    draw fuel seq (interior block_first block_last seq) space newseq element k;
  match r with
  | None => Ret (None, k)
  | Some (space, newseq) =>
      if block_last
      then t ← item_last seq; Ret (Some (space, newseq ++ Py.chars t), k)
      else Ret (Some (space, newseq), k)
  end.

Fixpoint permute_all (fuel : nat) (sequences : list (list string))
    (space : list string) (perm_sequences : list (list string)) (k : nat)
    : result (list (list string) * nat) :=
  match sequences with
  | [] => Ret (perm_sequences, k)
  | seq :: rest =>
      '(r, k) ← permute_sequence fuel space seq k;
      match r with
      | None => Ret ([], k)
      | Some (space, newseq) =>
          permute_all fuel rest space (perm_sequences ++ [newseq]) k
      end
  end.

Definition strings_permutation (fuel : nat) (space : list string)
    (sequences : list (list string)) (k : nat)
    : result (list (list string) * nat) :=
  permute_all fuel sequences space [] k.

End Generator.

(** ** Permutation test driver *)

(** The [no_repetition] step for one behaviour. *)
Definition exclude_self (exclusion_list : gmap string (list string))
    (behavior : string) : gmap string (list string) :=
  let exclusion_list :=
    match exclusion_list !! behavior with
    | None => <[behavior := []]> exclusion_list
    | Some _ => exclusion_list
    end in
  let l := default [] (exclusion_list !! behavior) in
  if decide (behavior ∈ l) then exclusion_list
  else <[behavior := l ++ [behavior]]> exclusion_list.

(** [m[behaviours.index(a), behaviours.index(b)] += 1]. *)
Definition count_pair (behaviours : list string) (m : list (list nat))
    (p : string * string) : result (list (list nat)) :=
  i ← Py.index behaviours p.1;
  j ← Py.index behaviours p.2;
  Ret (bump i j m).

(** The matrix of one trial, built without the membership test. *)
Definition permuted_transitions_matrix (behaviours : list string)
    (permuted_sequences : list (list string)) : result (list (list nat)) :=
  for_each (fun m seq => for_each (count_pair behaviours) (adjacent seq) m)
    permuted_sequences (zeros (length behaviours)).

Section Driver.

Variable rnd : nat -> nat.
Variable nrandom : Z.
Variable sequences : list (list string).
Variable behaviours : list string.
Variable exclusion_list : gmap string (list string).
Variables block_first block_last : bool.
Variable observed_matrix : list (list nat).

(** The body of [while True] after [count_tot += 1]:
    the new [count] and [results]. *)
Definition tally (permuted_sequences : list (list string))
    (count : nat) (results : list (list nat))
    : result (nat * list (list nat)) :=
  match permuted_sequences with
  | [] => Ret (count, results)
  | _ :: _ =>
      m ← permuted_transitions_matrix behaviours permuted_sequences;
      Ret (count + 1, matrix_add results (matrix_ge m observed_matrix))
  end.

(** [while True: ...], at most [fuel] times round; [wfuel] bounds each
    inner [while]. *)
Fixpoint trials (wfuel fuel : nat) (space : list string)
    (count count_tot : nat) (results : list (list nat)) (k : nat)
    : result (nat * list (list nat) * nat) :=
  match fuel with
  | O => OutOfFuel
  | S fuel' =>
      '(permuted_sequences, k) ←
        strings_permutation rnd exclusion_list block_first block_last
          wfuel space sequences k;
      let count_tot := count_tot + 1 in
      '(count, results) ← tally permuted_sequences count results;
      if bool_decide (Z.of_nat count = nrandom)
      then Ret (count_tot, results, k)
      else trials wfuel fuel' space count count_tot results k
  end.

End Driver.

(** [space]: the interiors of all sequences, one after the other. *)
Definition pool (block_first block_last : bool)
    (sequences : list (list string)) : list string :=
  concat (interior block_first block_last <$> sequences).

(** [if no_repetition: for behavior in behaviours: ...]. *)
Definition no_repeat (no_repetition : bool) (behaviours : list string)
    (exclusion_list : gmap string (list string)) : gmap string (list string) :=
  if no_repetition then foldl exclude_self exclusion_list behaviours
  else exclusion_list.

(** [permutations_test], all its loops cut at [fuel] iterations.  The result
    is [(count_tot, results)]. *)
Definition permutations_test (rnd : nat -> nat) (fuel : nat) (nrandom : Z)
    (sequences : list (list string)) (behaviours : list string)
    (exclusion_list : gmap string (list string))
    (block_first block_last : bool) (observed_matrix : list (list nat))
    (no_repetition : bool) : result (nat * list (list nat)) :=
  let space := pool block_first block_last sequences in
  let exclusion_list := no_repeat no_repetition behaviours exclusion_list in
  '(count_tot, results, _) ←
    trials rnd nrandom sequences behaviours exclusion_list
      block_first block_last observed_matrix fuel fuel space 0 0
      (zeros (length behaviours)) 0;
  Ret (count_tot, results).

(** ** Shares and merge of [main] *)

(** The loop [for i in range(num_proc)]: the list of [n_random_by_proc]
    submitted and the final [n_required_randomizations]. *)
Definition share_step (nrandom : Z) (num_proc : nat) (acc : list Z * Z)
    (i : nat) : list Z * Z :=
  let '(lst, n_required_randomizations) := acc in
  let n_random_by_proc :=
    if (Z.of_nat i <? Z.of_nat num_proc - 1)%Z
    then (nrandom `div` Z.of_nat num_proc)%Z
    else (nrandom - n_required_randomizations)%Z in
  (lst ++ [n_random_by_proc],
   (n_required_randomizations + n_random_by_proc)%Z).

Definition shares (nrandom : Z) (num_proc : nat) : list Z * Z :=
  foldl (share_step nrandom num_proc) ([], 0%Z) (seq 0 num_proc).

(** The loop [for l in lst] over the workers' results:
    [(nb_randomization_done, results)]. *)
Definition merge (n : nat) (lst : list (nat * list (list nat)))
    : nat * list (list nat) :=
  foldl (fun acc l => (acc.1 + l.1, matrix_add acc.2 l.2))
        (0, zeros n) lst.

(** * Notions used in the statements *)

(** The sum of a list of integers. *)
Definition sum_Z (l : list Z) : Z := foldr Z.add 0%Z l.

(** The number of occurrences of a character. *)
Fixpoint count_char (c : ascii) (s : string) : nat :=
  match s with
  | EmptyString => 0
  | String a s' => (if decide (a = c) then 1 else 0) + count_char c s'
  end.

(** Sequence [k] holds [a] at position [i] and [b] next to it, and [b] is
    in the entry of [a] in the exclusion map. *)
Definition violation_at (exclusion_list : gmap string (list string))
    (seqs : list (list string)) (k i : nat) (a b : string) : Prop :=
  ∃ seq l, seqs !! k = Some seq ∧ seq !! i = Some a ∧ seq !! S i = Some b
           ∧ exclusion_list !! a = Some l ∧ b ∈ l.

(** The violation met first when the sequences are read in order, each
    from left to right. *)
Definition first_violation (exclusion_list : gmap string (list string))
    (seqs : list (list string)) (k i : nat) (a b : string) : Prop :=
  violation_at exclusion_list seqs k i a b
  ∧ ∀ k' i' a' b', violation_at exclusion_list seqs k' i' a' b' →
                   k < k' ∨ (k = k' ∧ i ≤ i').

(** The outcomes of the first [n] calls of [strings_permutation] that the
    driver makes from draw [k] on, in order; a call that does not return
    ends the list. *)
Fixpoint attempts (rnd : nat -> nat)
    (exclusion_list : gmap string (list string)) (block_first block_last : bool)
    (wfuel n : nat) (space : list string) (seqs : list (list string))
    (k : nat) : list (list (list string)) :=
  match n with
  | O => []
  | S n' =>
      match strings_permutation rnd exclusion_list block_first block_last
              wfuel space seqs k with
      | Ret (p, k') =>
          p :: attempts rnd exclusion_list block_first block_last
                 wfuel n' space seqs k'
      | _ => []
      end
  end.

(** The attempts that were not abandoned. *)
Definition successful (log : list (list (list string)))
    : list (list (list string)) :=
  filter (fun p => p ≠ []) log.

(** The trial [p] has at least as many transitions at [(i, j)] as were
    observed. *)
Definition meets (behaviours : list string) (observed_matrix : list (list nat))
    (i j : nat) (p : list (list string)) : bool :=
  match permuted_transitions_matrix behaviours p with
  | Ret m => cell observed_matrix i j <=? cell m i j
  | _ => false
  end.

(** Two runs of the random source, by draw number: in the first the
    penultimate position of the first sequence is drawn three times, in the
    second twice. *)
Definition draws_three (k : nat) : nat :=
  match k with
  | 1 | 2 | 3 => 1
  | _ => 0
  end.

Definition draws_two (k : nat) : nat :=
  match k with
  | 1 => 1
  | _ => 0
  end.

(** [newseq] has no excluded pair and ends with [element], if it has an
    end. *)
Definition well_built (E : gmap string (list string))
    (newseq : list string) (element : string) : Prop :=
  Forall (fun p => excluded E p = false) (adjacent newseq)
  ∧ (newseq = [] ∨ last newseq = Some element).

(** No sequence of [perm] holds an excluded pair of neighbours. *)
Definition respects (E : gmap string (list string))
    (perm : list (list string)) : Prop :=
  Forall (fun newseq => Forall (fun p => excluded E p = false) (adjacent newseq))
    perm.

(** What the blocked ends of [seq] ask of its permuted copy [newseq]: the
    same first token under [block_first]; under [block_last] the same last
    token, when that token is one character long. *)
Definition ends_kept (block_first block_last : bool)
    (seq newseq : list string) : Prop :=
  (block_first = true → head newseq = head seq)
  ∧ (block_last = true →
     ∀ c, last seq = Some (String c EmptyString) → last newseq = last seq).

(** A string of one character. *)
Definition one_char (s : string) : Prop := ∃ c, s = String c EmptyString.

(** A key of [d]: two tokens of one character around [SEPARATOR]. *)
Definition pair_key (key : string) : Prop :=
  ∃ a b, key = String a EmptyString +:+ SEPARATOR +:+ String b EmptyString.

(** The pair [p] is a transition from the [i]-th to the [j]-th token of the
    alphabet. *)
Definition at_cell (behaviours : list string) (i j : nat)
    (p : string * string) : bool :=
  match Py.index behaviours p.1, Py.index behaviours p.2 with
  | Ret i', Ret j' => (i' =? i) && (j' =? j)
  | _, _ => false
  end.

(** The number of transitions from the [i]-th to the [j]-th token of the
    alphabet in a set of sequences. *)
Definition transitions (behaviours : list string) (seqs : list (list string))
    (i j : nat) : nat :=
  length (filter (fun p => at_cell behaviours i j p = true)
            (concat (adjacent <$> seqs))).







(** ** The randomization stage of [main] *)

(** The futures [lst] of [main]: worker [i] runs [permutations_test] on its
    share, in a process of its own, with the random source [rnds i]. *)
Definition submit (rnds : nat -> nat -> nat) (fuel : nat) (nrandom : Z)
    (num_proc : nat) (sequences : list (list string))
    (behaviours : list string) (exclusion_list : gmap string (list string))
    (block_first block_last : bool) (observed_matrix : list (list nat))
    (no_repetition : bool) : list (result (nat * list (list nat))) :=
  imap (fun i n_random_by_proc =>
          permutations_test (rnds i) fuel n_random_by_proc sequences behaviours
            exclusion_list block_first block_last observed_matrix no_repetition)
       (shares nrandom num_proc).1.

Definition still_running {A} (r : result A) : bool :=
  match r with
  | OutOfFuel => true
  | _ => false
  end.

(** The [with] block of [main]: the loop [for l in lst] reads [l.result()],
    which raises what the worker raised, and the block is left only when
    every worker has ended. *)
Definition gather (n : nat) (lst : list (result (nat * list (list nat))))
    : result (nat * list (list nat)) :=
  if existsb still_running lst then OutOfFuel
  else for_each (fun acc l => r ← l; Ret (acc.1 + r.1, matrix_add acc.2 r.2))
         lst (0, zeros n).

(** [(nb_randomization_done, results)] of [main]. *)
Definition randomization (rnds : nat -> nat -> nat) (fuel : nat) (nrandom : Z)
    (num_proc : nat) (sequences : list (list string))
    (behaviours : list string) (exclusion_list : gmap string (list string))
    (block_first block_last : bool) (observed_matrix : list (list nat))
    (no_repetition : bool) : result (nat * list (list nat)) :=
  gather (length behaviours)
    (submit rnds fuel nrandom num_proc sequences behaviours exclusion_list
       block_first block_last observed_matrix no_repetition).

(** What a dictionary of counts holds for a key seen [n] times: nothing
    before the first time. *)
Definition counted (n : nat) : option nat :=
  if n =? 0 then None else Some n.

(** The number of places of [l] that hold [x]. *)
Definition occurrences (x : string) (l : list string) : nat :=
  length (filter (fun y => y = x) l).

(** The key of [d] for a transition: [r[i] + SEPARATOR + r[i + 1]]. *)
Definition transition_key (p : string * string) : string :=
  p.1 +:+ SEPARATOR +:+ p.2.

(** The sequence has a transition and starts with [x]. *)
Definition starts (x : string) (seq : list string) : bool :=
  match seq with
  | a :: _ :: _ => bool_decide (a = x)
  | _ => false
  end.

(** The sum of the values of a dictionary of counts. *)
Definition total (m : gmap string nat) : nat :=
  map_fold (fun _ v acc => acc + v) 0 m.

(** What the loop over the rows keeps true. *)
Definition counts_ok (st : parse_state) : Prop :=
  (∀ x, st_nodes st !! x = counted (occurrences x (concat (st_sequences st))))
  ∧ total (st_nodes st) = length (concat (st_sequences st))
  ∧ (∀ k, st_d st !! k
          = counted (length (filter (fun p => transition_key p = k)
                               (concat (adjacent <$> st_sequences st)))))
  ∧ total (st_d st) = length (concat (adjacent <$> st_sequences st))
  ∧ (∀ x, st_starting_nodes st !! x
          = counted (length (filter (fun seq => starts x seq = true) (st_sequences st)))).

(** A token of one character that is not whitespace. *)
Definition visible (tok : string) : Prop :=
  ∃ c, tok = String c EmptyString ∧ Py.isspace c = false.

(** The targets that a row of exclusions gives for the text [s2] after the
    colon. *)
Definition targets (behaviors_separator s2 : string) : list string :=
  if bool_decide (behaviors_separator ≠ "")
     && Py.contains s2 behaviors_separator
  then Py.split s2 behaviors_separator
  else Py.chars s2.

(** The row reads [a:s2] once stripped, with nothing empty on either side
    of its one colon, and [b] is among the targets of [s2]. *)
Definition declares (behaviors_separator row a b : string) : Prop :=
  ∃ s2, Py.strip row = a +:+ ":" +:+ s2
        ∧ a ≠ "" ∧ s2 ≠ ""
        ∧ count_char ":" a = 0 ∧ count_char ":" s2 = 0
        ∧ b ∈ targets behaviors_separator s2.

(** The sum of the counts of [d] under the keys whose first token is [x]. *)
Definition after_total (x : string) (m : gmap string nat) : nat :=
  map_fold (fun k v acc =>
              if decide (head (Py.split k SEPARATOR) = Some x)
              then acc + v else acc) 0 m.

(** The computation does not end in an exception. *)
Definition safe {A} (r : result A) : Prop := ∀ e, r ≠ Raise e.

(** * Evaluation of the embedding on small inputs *)

Example split_ex1 : Py.split "a:b:c" ":" = ["a"; "b"; "c"].
Proof. reflexivity. Qed.

Example split_ex2 : Py.split "ab--cd---e" "--" = ["ab"; "cd"; "-e"].
Proof. reflexivity. Qed.

Example split_ws_ex : Py.split_ws "  ab cd
e " = ["ab"; "cd"; "e"].
Proof. reflexivity. Qed.

Example strip_ex : Py.strip "  a b  " = "a b".
Proof. reflexivity. Qed.

Example slice_ex : Py.slice [1; 2; 3; 4] 1 (-1) = [2; 3].
Proof. reflexivity. Qed.

Example sort_ex : Py.sort ["b"; "a"; "c"; "B"] = ["B"; "a"; "b"; "c"].
Proof. reflexivity. Qed.

Example stats_ex :
  behav_strings_stats "# header
ab c
ba" 0 "" =
  Ret (Stats 0 [["a"; "b"; "c"]; ["b"; "a"]]
         {[ "a" +:+ SEPARATOR +:+ "b" := 1; "b" +:+ SEPARATOR +:+ "c" := 1;
            "b" +:+ SEPARATOR +:+ "a" := 1 ]}
         {[ "a" := 2; "b" := 2; "c" := 1 ]}
         {[ "a" := 1; "b" := 1 ]}
         5 3
         {[ "a" := 1; "b" := 2 ]}
         ["a"; "b"; "c"]).
Proof. vm_compute. reflexivity. Qed.

Example check_ex1 :
  check_exclusion_list "a:bc
b:a" [["a"; "a"; "b"]] "" =
  Ret (CheckResult 1
         (Some "The behavioral strings contain an excluded transition: a -> b")
         ∅).
Proof. vm_compute. reflexivity. Qed.

Example check_ex2 :
  check_exclusion_list "a:b|cd
a:e" [["a"; "a"]] "|" =
  Ret (CheckResult 0 None {[ "a" := ["b"; "cd"; "e"] ]}).
Proof. vm_compute. reflexivity. Qed.

Example check_ex3 : check_exclusion_list "a:b:c" [] "" = Raise ValueError.
Proof. vm_compute. reflexivity. Qed.

Example observed_ex :
  create_observed_transition_matrix [["a"; "b"; "a"; "b"]; ["b"; "b"]] ["a"; "b"]
  = [[0; 2]; [1; 1]].
Proof. reflexivity. Qed.

Example shares_ex : shares 10 4 = ([2; 2; 2; 4]%Z, 10%Z).
Proof. reflexivity. Qed.

Example merge_ex :
  merge 2 [(3, [[1; 0]; [2; 2]]); (5, [[0; 1]; [3; 0]])]
  = (8, [[1; 1]; [5; 2]]).
Proof. reflexivity. Qed.

Example permutations_ex :
  permutations_test (fun k => k) 10 2 [["a"; "b"; "c"]] ["a"; "b"; "c"] ∅
    false false [[0; 1; 0]; [0; 0; 1]; [0; 0; 0]] false
  = Ret (2, [[2; 1; 2]; [2; 2; 1]; [2; 2; 2]]).
Proof. vm_compute. reflexivity. Qed.

(** * Properties

    ** Matrices *)

Lemma zeros_square n : square n (zeros n).
Proof.
  split; [apply length_replicate|].
  apply Forall_replicate, length_replicate.
Qed.

Lemma cell_zeros n i j : cell (zeros n) i j = 0.
Proof.
  unfold cell, zeros.
  destruct (replicate n (replicate n 0) !! i) as [row|] eqn:Hrow; [|done].
  apply lookup_replicate in Hrow as [-> _]. simpl.
  destruct (replicate n 0 !! j) as [x|] eqn:Hx; [|done].
  by apply lookup_replicate in Hx as [-> _].
Qed.

Lemma matrix_add_square n a b :
  square n a → square n b → square n (matrix_add a b).
Proof.
  intros [Ha Fa] [Hb Fb]. split.
  - unfold matrix_add. rewrite length_zip_with. lia.
  - apply Forall_lookup. intros i row Hrow.
    apply lookup_zip_with_Some in Hrow as (x & y & -> & Hx & Hy).
    rewrite length_zip_with.
    rewrite (Forall_lookup_1 _ _ _ _ Fa Hx), (Forall_lookup_1 _ _ _ _ Fb Hy). lia.
Qed.

Lemma cell_matrix_add n a b i j :
  square n a → square n b →
  cell (matrix_add a b) i j = cell a i j + cell b i j.
Proof.
  intros [Ha Fa] [Hb Fb]. unfold cell, matrix_add.
  rewrite lookup_zip_with.
  destruct (a !! i) as [ra|] eqn:Hra; simpl.
  - destruct (b !! i) as [rb|] eqn:Hrb; simpl.
    + rewrite lookup_zip_with.
      pose proof (Forall_lookup_1 _ _ _ _ Fa Hra) as La.
      pose proof (Forall_lookup_1 _ _ _ _ Fb Hrb) as Lb.
      simpl in La, Lb.
      destruct (ra !! j) as [x|] eqn:Hx; simpl.
      * destruct (rb !! j) as [y|] eqn:Hy; simpl; [done|].
        apply lookup_lt_Some in Hx. apply lookup_ge_None in Hy. lia.
      * destruct (rb !! j) as [y|] eqn:Hy; simpl; [|done].
        apply lookup_lt_Some in Hy. apply lookup_ge_None in Hx. lia.
    + apply lookup_lt_Some in Hra. apply lookup_ge_None in Hrb. lia.
  - destruct (b !! i) as [rb|] eqn:Hrb; simpl; [|done].
    apply lookup_lt_Some in Hrb. apply lookup_ge_None in Hra. lia.
Qed.

(** ** Shares *)

Lemma shares_prefix (nrandom : Z) (num_proc m : nat) :
  m < num_proc →
  foldl (share_step nrandom num_proc) ([], 0%Z) (seq 0 m)
  = (replicate m (nrandom `div` Z.of_nat num_proc)%Z,
     (Z.of_nat m * (nrandom `div` Z.of_nat num_proc))%Z).
Proof.
  induction m as [|m IH]; intros Hm.
  - simpl. f_equal.
  - rewrite seq_S, foldl_snoc, IH by lia. simpl.
    destruct (Z.ltb_spec (Z.of_nat m) (Z.of_nat num_proc - 1)) as [_|?]; [|lia].
    f_equal.
    + by rewrite <- replicate_S_end.
    + lia.
Qed.

Lemma shares_spec (nrandom : Z) (num_proc : nat) :
  1 ≤ num_proc →
  shares nrandom num_proc
  = (replicate (num_proc - 1) (nrandom `div` Z.of_nat num_proc)%Z
     ++ [(nrandom - Z.of_nat (num_proc - 1) * (nrandom `div` Z.of_nat num_proc))%Z],
     nrandom).
Proof.
  intros Hw. unfold shares.
  replace num_proc with (S (num_proc - 1)) at 2 by lia.
  rewrite seq_S, foldl_snoc, shares_prefix by lia. simpl.
  destruct (Z.ltb_spec (Z.of_nat (num_proc - 1)) (Z.of_nat num_proc - 1)) as [?|_]; [lia|].
  f_equal. lia.
Qed.

Lemma sum_Z_app l k : sum_Z (l ++ k) = (sum_Z l + sum_Z k)%Z.
Proof. induction l as [|x l IH]; simpl; [done|]. rewrite IH. lia. Qed.

Lemma sum_Z_replicate n x : sum_Z (replicate n x) = (Z.of_nat n * x)%Z.
Proof. induction n as [|n IH]; [done|]. simpl replicate. simpl sum_Z. rewrite IH. lia. Qed.

(** ** Merge *)

Lemma merge_from n lst acc :
  square n acc.2 →
  Forall (fun l => square n l.2) lst →
  ∃ r, foldl (fun acc l => (acc.1 + l.1, matrix_add acc.2 l.2)) acc lst = r
  ∧ r.1 = acc.1 + sum_list (fst <$> lst)
  ∧ square n r.2
  ∧ ∀ i j, cell r.2 i j
           = cell acc.2 i j + sum_list ((fun l => cell l.2 i j) <$> lst).
Proof.
  revert acc. induction lst as [|l lst IH]; intros acc Hacc Hlst; csimpl.
  - exists acc. split; [done|]. split; [lia|]. split; [done|]. intros. lia.
  - apply Forall_cons in Hlst as [Hl Hlst].
    destruct (IH (acc.1 + l.1, matrix_add acc.2 l.2)) as (r & Hr & H1 & H2 & H3);
      [by apply matrix_add_square|done|].
    exists r. simpl in H1, H3. split; [done|]. split; [lia|]. split; [done|].
    intros i j. rewrite H3, (cell_matrix_add n) by done. lia.
Qed.

(** C6.  With [num_proc >= 1] workers, each of the first [num_proc - 1]
    is given [nrandom // num_proc] trials and the last one the remainder, so
    that the shares sum to [nrandom]; merging the workers' results gives the
    sum of their attempt counts and, cell by cell, the sum of their tally
    matrices. *)
Theorem main_shares_and_merge (nrandom : Z) (num_proc n : nat)
    (lst : list (nat * list (list nat))) :
  1 ≤ num_proc →
  Forall (fun l => square n l.2) lst →
  (shares nrandom num_proc).1
  = replicate (num_proc - 1) (nrandom `div` Z.of_nat num_proc)%Z
    ++ [(nrandom - Z.of_nat (num_proc - 1) * (nrandom `div` Z.of_nat num_proc))%Z]
  ∧ length (shares nrandom num_proc).1 = num_proc
  ∧ sum_Z (shares nrandom num_proc).1 = nrandom
  ∧ (shares nrandom num_proc).2 = nrandom
  ∧ (merge n lst).1 = sum_list (fst <$> lst)
  ∧ square n (merge n lst).2
  ∧ ∀ i j, cell (merge n lst).2 i j
           = sum_list ((fun l => cell l.2 i j) <$> lst).
Proof.
  intros Hw Hlst. rewrite shares_spec by done. simpl.
  split; [done|]. split.
  { rewrite length_app, length_replicate. simpl. lia. }
  split.
  { rewrite sum_Z_app, sum_Z_replicate. simpl. lia. }
  split; [done|].
  destruct (merge_from n lst (0, zeros n)) as (r & Hr & H1 & H2 & H3);
    [apply zeros_square|done|].
  unfold merge. rewrite Hr. simpl in H1, H3.
  split; [done|]. split; [done|].
  intros i j. by rewrite H3, cell_zeros.
Qed.

Lemma main_shares_and_merge_witness :
  (shares 10 4).1 = replicate (4 - 1) (10 `div` Z.of_nat 4)%Z
    ++ [(10 - Z.of_nat (4 - 1) * (10 `div` Z.of_nat 4))%Z]
  ∧ length (shares 10 4).1 = 4
  ∧ sum_Z (shares 10 4).1 = 10%Z
  ∧ (shares 10 4).2 = 10%Z
  ∧ (merge 2 [(3, [[1; 0]; [2; 2]]); (5, [[0; 1]; [3; 0]])]).1
    = sum_list (fst <$> [(3, [[1; 0]; [2; 2]]); (5, [[0; 1]; [3; 0]])])
  ∧ square 2 (merge 2 [(3, [[1; 0]; [2; 2]]); (5, [[0; 1]; [3; 0]])]).2
  ∧ ∀ i j, cell (merge 2 [(3, [[1; 0]; [2; 2]]); (5, [[0; 1]; [3; 0]])]).2 i j
           = sum_list ((fun l => cell l.2 i j)
                         <$> [(3, [[1; 0]; [2; 2]]); (5, [[0; 1]; [3; 0]])]).
Proof.
  apply (main_shares_and_merge 10 4 2
           [(3, [[1; 0]; [2; 2]]); (5, [[0; 1]; [3; 0]])]).
  - lia.
  - repeat constructor.
Defined.

(** ** Lists *)

Lemma index_elem l x :
  x ∈ l → ∃ i, Py.index l x = Ret i ∧ i < length l ∧ l !! i = Some x.
Proof.
  induction l as [|y l IH]; intros Hx; [by apply elem_of_nil in Hx|].
  simpl. destruct (decide (y = x)) as [->|Hne].
  - exists 0. simpl. split; [done|]. split; [lia|done].
  - apply elem_of_cons in Hx as [->|Hx]; [done|].
    destruct (IH Hx) as (i & -> & Hi & Hl).
    exists (S i). simpl. split; [done|]. split; [lia|done].
Qed.

Lemma adjacent_length {A} (seq : list A) :
  length (adjacent seq) = length seq - 1.
Proof.
  induction seq as [|x [|y t] IH]; [done..|].
  change (adjacent (x :: y :: t)) with ((x, y) :: adjacent (y :: t)).
  simpl length in *. lia.
Qed.

Lemma adjacent_lookup {A} (seq : list A) i a b :
  adjacent seq !! i = Some (a, b) ↔ seq !! i = Some a ∧ seq !! S i = Some b.
Proof.
  revert i. induction seq as [|x [|y t] IH]; intros i.
  - simpl. rewrite !lookup_nil. split; [done|]. by intros [? ?].
  - simpl. rewrite lookup_nil. split; [done|]. intros [_ H].
    by rewrite lookup_nil in H.
  - change (adjacent (x :: y :: t)) with ((x, y) :: adjacent (y :: t)).
    destruct i as [|i].
    + simpl. split.
      * by intros [= -> ->].
      * by intros [[= ->] [= ->]].
    + rewrite lookup_cons_ne_0 by lia. simpl Nat.pred.
      rewrite IH. done.
Qed.

Lemma adjacent_elem {A} (seq : list A) a b :
  (a, b) ∈ adjacent seq → a ∈ seq ∧ b ∈ seq.
Proof.
  intros [i Hi]%list_elem_of_lookup.
  apply adjacent_lookup in Hi as [Ha Hb].
  split; eapply list_elem_of_lookup_2; eauto.
Qed.

(** ** Cells *)

Lemma bump_square n i j m : square n m → square n (bump i j m).
Proof.
  intros [Hm Fm]. split.
  - unfold bump. by rewrite length_alter.
  - unfold bump. apply Forall_alter; [done|].
    intros row _ Hrow. by rewrite length_alter.
Qed.

Lemma sum_list_alter_S j (row : list nat) :
  j < length row → sum_list (alter S j row) = S (sum_list row).
Proof.
  revert j. induction row as [|x row IH]; intros j Hj; simpl in Hj; [lia|].
  destruct j as [|j]; [done|].
  change (alter S (S j) (x :: row)) with (x :: alter S j row).
  simpl. rewrite IH by lia. lia.
Qed.

Lemma bump_sum_row i j m row :
  m !! i = Some row → j < length row →
  matrix_sum (bump i j m) = S (matrix_sum m).
Proof.
  unfold matrix_sum, bump. revert i.
  induction m as [|r m IH]; intros i Hrow Hj; [done|].
  destruct i as [|i].
  - simpl in Hrow. injection Hrow as ->.
    change (alter (alter S j) 0 (row :: m)) with (alter S j row :: m).
    rewrite !fmap_cons. simpl. by rewrite sum_list_alter_S.
  - change (alter (alter S j) (S i) (r :: m)) with (r :: alter (alter S j) i m).
    rewrite !fmap_cons. simpl. rewrite (IH i) by done. lia.
Qed.

Lemma bump_sum n i j m :
  square n m → i < n → j < n → matrix_sum (bump i j m) = S (matrix_sum m).
Proof.
  intros [Hm Fm] Hi Hj.
  destruct (lookup_lt_is_Some_2 m i) as [row Hrow]; [lia|].
  apply (bump_sum_row i j m row Hrow).
  pose proof (Forall_lookup_1 _ _ _ _ Fm Hrow) as Hlen. simpl in Hlen. lia.
Qed.

Lemma zeros_sum n : matrix_sum (zeros n) = 0.
Proof.
  unfold matrix_sum, zeros. rewrite fmap_replicate, sum_list_replicate.
  rewrite sum_list_replicate. lia.
Qed.

(** ** The observed matrix *)

Lemma observe_pairs_sum n behaviours pairs m :
  n = length behaviours → square n m →
  Forall (fun p : string * string => p.1 ∈ behaviours ∧ p.2 ∈ behaviours) pairs →
  square n (foldl (observe_pair behaviours) m pairs)
  ∧ matrix_sum (foldl (observe_pair behaviours) m pairs)
    = matrix_sum m + length pairs.
Proof.
  intros Hn. revert m. induction pairs as [|p pairs IH]; intros m Hm Hp; simpl.
  - split; [done|lia].
  - apply Forall_cons in Hp as [[H1 H2] Hp].
    unfold observe_pair at 2 4. rewrite decide_True by done.
    destruct (index_elem _ _ H1) as (i & -> & Hi & _).
    destruct (index_elem _ _ H2) as (j & -> & Hj & _).
    destruct (IH (bump i j m)) as [IH1 IH2]; [by apply bump_square|done|].
    split; [done|]. rewrite IH2. rewrite (bump_sum n) by (done || lia). lia.
Qed.

Lemma observed_sum_from n behaviours sequences m :
  n = length behaviours → square n m →
  (∀ seq x, seq ∈ sequences → x ∈ seq → x ∈ behaviours) →
  matrix_sum
    (foldl (fun m seq => foldl (observe_pair behaviours) m (adjacent seq))
       m sequences)
  = matrix_sum m + length (concat (adjacent <$> sequences)).
Proof.
  intros Hn. revert m.
  induction sequences as [|seq sequences IH]; intros m Hm Hin; csimpl.
  - lia.
  - destruct (observe_pairs_sum n behaviours (adjacent seq) m) as [Hs Hsum];
      [done..| |].
    { apply Forall_forall. intros [a b] Hab.
      apply adjacent_elem in Hab as [Ha Hb].
      split; apply (Hin seq); (done || apply list_elem_of_here). }
    rewrite IH, Hsum, length_app; [lia|done|].
    intros s x Hs' Hx. apply (Hin s x); [|done]. by apply list_elem_of_further.
Qed.

(** Every pair of neighbours with both tokens in the alphabet is counted
    once. *)
Lemma observed_matrix_pairs sequences behaviours :
  (∀ seq x, seq ∈ sequences → x ∈ seq → x ∈ behaviours) →
  matrix_sum (create_observed_transition_matrix sequences behaviours)
  = length (concat (adjacent <$> sequences)).
Proof.
  intros Hin. unfold create_observed_transition_matrix.
  rewrite (observed_sum_from (length behaviours)); [|done|apply zeros_square|done].
  by rewrite zeros_sum.
Qed.

Lemma pairs_total (sequences : list (list string)) :
  Forall (fun seq => seq ≠ []) sequences →
  Z.of_nat (length (concat (adjacent <$> sequences)))
  = sum_Z ((fun seq => Z.of_nat (length seq) - 1)%Z <$> sequences).
Proof.
  induction 1 as [|seq sequences Hne _ IH]; csimpl; [done|].
  rewrite length_app, adjacent_length, Nat2Z.inj_add, IH.
  destruct seq; [done|]. simpl length. lia.
Qed.

(** ** The alphabet *)

Lemma insert_sorted_elem x y l : x ∈ Py.insert_sorted y l ↔ x = y ∨ x ∈ l.
Proof.
  induction l as [|z l IH]; simpl.
  - rewrite list_elem_of_singleton, elem_of_nil. tauto.
  - destruct (String.leb y z).
    + by rewrite elem_of_cons.
    + rewrite !elem_of_cons, IH. tauto.
Qed.

Lemma sort_elem x l : x ∈ Py.sort l ↔ x ∈ l.
Proof.
  induction l as [|y l IH]; simpl; [done|].
  rewrite insert_sorted_elem, elem_of_cons, IH. done.
Qed.

Lemma unique_step_elem (x : string) seq acc :
  x ∈ foldl (fun acc c => if decide (c ∈ acc) then acc else acc ++ [c]) acc seq
  ↔ x ∈ acc ∨ x ∈ seq.
Proof.
  revert acc. induction seq as [|c seq IH]; intros acc; simpl.
  - rewrite elem_of_nil. tauto.
  - rewrite IH, elem_of_cons. destruct (decide (c ∈ acc)) as [Hc|Hc].
    + split; [tauto|]. intros [?|[->|?]]; tauto.
    + rewrite elem_of_app, list_elem_of_singleton. tauto.
Qed.

Lemma unique_behaviours_from (x : string) sequences acc :
  x ∈ foldl (fun acc seq =>
               foldl (fun acc c => if decide (c ∈ acc) then acc else acc ++ [c])
                     acc seq) acc sequences
  ↔ x ∈ acc ∨ ∃ seq, seq ∈ sequences ∧ x ∈ seq.
Proof.
  revert acc. induction sequences as [|seq sequences IH]; intros acc; simpl.
  - split; [tauto|]. intros [?|(seq & Hs & _)]; [done|]. by apply elem_of_nil in Hs.
  - rewrite IH, unique_step_elem. split.
    + intros [[?|?]|(s & Hs & Hx)]; [tauto| |].
      * right. exists seq. split; [apply list_elem_of_here|done].
      * right. exists s. split; [by apply list_elem_of_further|done].
    + intros [?|(s & Hs & Hx)]; [tauto|].
      apply elem_of_cons in Hs as [->|Hs]; [tauto|].
      right. by exists s.
Qed.

Lemma unique_behaviours_elem x sequences :
  x ∈ unique_behaviours sequences ↔ ∃ seq, seq ∈ sequences ∧ x ∈ seq.
Proof.
  unfold unique_behaviours. rewrite unique_behaviours_from, elem_of_nil. tauto.
Qed.

Lemma stats_behaviours text chunk sep s :
  behav_strings_stats text chunk sep = Ret s →
  behaviours s = Py.sort (unique_behaviours (sequences s)).
Proof.
  unfold behav_strings_stats. intros H.
  destruct (parse_rows text chunk sep) as [st| |]; simpl in H; [|done..].
  destruct (for_each after_node (map_to_list (st_d st)) ∅); simpl in H; [|done..].
  by injection H as <-.
Qed.

(** C8.  The cells of the observed matrix of a set of non-empty sequences
    sum to the number of adjacent pairs, which is the sum of [len(seq) - 1]
    over the sequences; and the text ["aabbc\naabbc"] parses, one character
    per token and [chunk = 0], to the alphabet [a, b, c] and to the matrix
    with (a,a) = (a,b) = (b,b) = (b,c) = 2 and 0 elsewhere. *)
Theorem observed_matrix_sum (seqs : list (list string)) :
  Forall (fun seq => seq ≠ []) seqs →
  (matrix_sum
     (create_observed_transition_matrix seqs (Py.sort (unique_behaviours seqs)))
   = length (concat (adjacent <$> seqs))
   ∧ Z.of_nat (matrix_sum
       (create_observed_transition_matrix seqs (Py.sort (unique_behaviours seqs))))
     = sum_Z ((fun seq => Z.of_nat (length seq) - 1)%Z <$> seqs))
  ∧ (s ← behav_strings_stats "aabbc
aabbc" 0 "";
     Ret (sequences s, behaviours s,
          create_observed_transition_matrix (sequences s) (behaviours s)))
    = Ret ([["a"; "a"; "b"; "b"; "c"]; ["a"; "a"; "b"; "b"; "c"]],
           ["a"; "b"; "c"],
           [[2; 2; 0]; [0; 2; 2]; [0; 0; 0]]).
Proof.
  intros Hne.
  assert (matrix_sum
            (create_observed_transition_matrix seqs
               (Py.sort (unique_behaviours seqs)))
          = length (concat (adjacent <$> seqs))) as Hsum.
  { apply observed_matrix_pairs. intros seq x Hseq Hx.
    apply sort_elem, unique_behaviours_elem. by exists seq. }
  split; [split; [done|]|].
  - rewrite Hsum. by apply pairs_total.
  - vm_compute. reflexivity.
Qed.

Lemma observed_matrix_sum_witness :
  Forall (fun seq : list string => seq ≠ []) [["a"; "b"; "a"]; ["c"]]
  ∧ matrix_sum
      (create_observed_transition_matrix [["a"; "b"; "a"]; ["c"]]
         (Py.sort (unique_behaviours [["a"; "b"; "a"]; ["c"]])))
    = length (concat (adjacent <$> [["a"; "b"; "a"]; ["c"]])).
Proof.
  assert (Forall (fun seq : list string => seq ≠ []) [["a"; "b"; "a"]; ["c"]])
    as Hne by (repeat constructor; discriminate).
  split; [exact Hne|].
  apply (observed_matrix_sum [["a"; "b"; "a"]; ["c"]] Hne).
Defined.

(** ** Strings *)

Lemma prefix_empty s : String.prefix "" s = true.
Proof. by destruct s. Qed.

Lemma prefix_char c a s :
  String.prefix (String c "") (String a s) = bool_decide (a = c).
Proof.
  simpl. destruct (ascii_dec c a) as [->|Hne].
  - by rewrite prefix_empty, bool_decide_eq_true_2.
  - by rewrite bool_decide_eq_false_2.
Qed.

Lemma count_lstrip c s :
  Py.isspace c = false → count_char c (Py.lstrip s) = count_char c s.
Proof.
  intros Hc. induction s as [|a s IH]; [done|]. simpl.
  destruct (Py.isspace a) eqn:Ha; [|done].
  rewrite IH. destruct (decide (a = c)) as [->|_]; [congruence|done].
Qed.

Lemma count_rev_app c s1 s2 :
  count_char c (String.rev_app s1 s2) = count_char c s1 + count_char c s2.
Proof.
  revert s2. induction s1 as [|a s1 IH]; intros s2; [done|].
  simpl. rewrite IH. simpl. lia.
Qed.

Lemma count_strip c s :
  Py.isspace c = false → count_char c (Py.strip s) = count_char c s.
Proof.
  intros Hc. unfold Py.strip, String.rev.
  rewrite count_rev_app, count_lstrip, count_rev_app, count_lstrip by done.
  simpl. lia.
Qed.

Lemma contains_count c s :
  1 ≤ count_char c s → Py.contains s (String c "") = true.
Proof.
  induction s as [|a s IH]; simpl count_char; [lia|]. intros H.
  cbn [Py.contains]. rewrite prefix_char.
  destruct (decide (a = c)) as [->|Hne].
  - by rewrite bool_decide_eq_true_2.
  - rewrite bool_decide_eq_false_2 by done. simpl. apply IH. lia.
Qed.

Lemma split_char_length c cur s :
  length (Py.split_go (String c "") 0 cur s) = 1 + count_char c s.
Proof.
  revert cur. induction s as [|a s IH]; intros cur; [done|].
  cbn [Py.split_go]. rewrite prefix_char. simpl count_char.
  destruct (decide (a = c)) as [->|Hne].
  - rewrite bool_decide_eq_true_2 by done. simpl. by rewrite IH.
  - rewrite bool_decide_eq_false_2 by done. by rewrite IH.
Qed.

(** ** Exclusion rows *)

Lemma exclusion_row_cases sep m row :
  (∃ m', exclusion_row sep m row = Ret m')
  ∨ exclusion_row sep m row = Raise ValueError.
Proof.
  unfold exclusion_row.
  destruct (Py.strip row); [eauto|].
  destruct (Py.contains row ":"); [|eauto].
  destruct (Py.split _ ":") as [|s1 [|s2 [|? ?]]]; eauto.
  destruct s1, s2; eauto.
Qed.

Lemma exclusion_row_colons sep m row :
  2 ≤ count_char ":" row → exclusion_row sep m row = Raise ValueError.
Proof.
  intros H. unfold exclusion_row.
  assert (count_char ":" (Py.strip row) = count_char ":" row) as Hs
    by by apply count_strip.
  destruct (Py.strip row) as [|a s] eqn:Hstrip; [simpl in Hs; lia|].
  rewrite contains_count by lia.
  pose proof (split_char_length ":" "" (String a s)) as Hlen.
  fold (Py.split (String a s) ":") in Hlen.
  destruct (Py.split (String a s) ":") as [|s1 [|s2 [|? ?]]]; try done.
  simpl length in Hlen. lia.
Qed.

Lemma for_each_raises {A S} (body : S → A → result S) l x e s :
  x ∈ l →
  (∀ s, body s x = Raise e) →
  (∀ s y, (∃ s', body s y = Ret s') ∨ body s y = Raise e) →
  for_each body l s = Raise e.
Proof.
  intros Hx Hbad Hall. revert s.
  induction l as [|y l IH]; intros s; [by apply elem_of_nil in Hx|].
  simpl. apply elem_of_cons in Hx as [<-|Hx].
  - by rewrite Hbad.
  - destruct (Hall s y) as [[s' ->]| ->]; [|done]. simpl. by apply IH.
Qed.

(** C10.  A spec with a line that holds more than one [:] makes
    [check_exclusion_list] raise [ValueError] (from the unpacking of
    [row.strip().split(":")]) instead of returning its dictionary. *)
Theorem check_exclusion_list_many_colons (exclusion_str : string)
    (seqs : list (list string)) (behaviors_separator row : string) :
  row ∈ Py.split exclusion_str "
" →
  2 ≤ count_char ":" row →
  check_exclusion_list exclusion_str seqs behaviors_separator
  = Raise ValueError.
Proof.
  intros Hrow Hcolons. unfold check_exclusion_list.
  assert (parse_exclusions exclusion_str behaviors_separator = Raise ValueError)
    as ->; [|done].
  unfold parse_exclusions. destruct exclusion_str as [|a s] eqn:Hstr.
  - apply list_elem_of_singleton in Hrow as ->. simpl in Hcolons. lia.
  - apply (for_each_raises _ _ row); [done| |].
    + intros m. by apply exclusion_row_colons.
    + intros m y. apply exclusion_row_cases.
Qed.

Lemma check_exclusion_list_many_colons_witness :
  check_exclusion_list "a:b:c" [["a"; "b"]] "" = Raise ValueError.
Proof.
  apply (check_exclusion_list_many_colons "a:b:c" [["a"; "b"]] "" "a:b:c").
  - apply list_elem_of_here.
  - simpl. lia.
Defined.

(** ** The scan of the exclusion validator *)

Lemma excluded_spec m a b :
  excluded m (a, b) = true ↔ ∃ l, m !! a = Some l ∧ b ∈ l.
Proof.
  unfold excluded. simpl. destruct (m !! a) as [l|].
  - rewrite bool_decide_eq_true. split; [eauto|]. by intros (? & [= <-] & ?).
  - split; [done|]. by intros (? & ? & ?).
Qed.

Lemma scan_seq_Some m pairs p :
  scan_seq m pairs = Some p →
  ∃ i, pairs !! i = Some p ∧ excluded m p = true
       ∧ ∀ i' p', i' < i → pairs !! i' = Some p' → excluded m p' = false.
Proof.
  induction pairs as [|q pairs IH]; [done|]. simpl.
  destruct (excluded m q) eqn:Hq.
  - intros [= ->]. exists 0. split; [done|]. split; [done|]. intros; lia.
  - intros (i & Hi & Hp & Hbefore)%IH. exists (S i).
    split; [done|]. split; [done|].
    intros [|i'] p' Hlt Hp'; simpl in Hp'.
    + by injection Hp' as <-.
    + apply (Hbefore i'); [lia|done].
Qed.

Lemma scan_seq_None m pairs :
  scan_seq m pairs = None → ∀ i p, pairs !! i = Some p → excluded m p = false.
Proof.
  induction pairs as [|q pairs IH]; [by intros _ i p; rewrite lookup_nil|].
  simpl. destruct (excluded m q) eqn:Hq; [done|].
  intros Hnone [|i] p Hp; simpl in Hp.
  - by injection Hp as <-.
  - by apply (IH Hnone i).
Qed.

Lemma scan_sequences_Some m seqs p :
  scan_sequences m seqs = Some p →
  ∃ k i seq, seqs !! k = Some seq ∧ adjacent seq !! i = Some p
    ∧ excluded m p = true
    ∧ ∀ k' i' seq' p', seqs !! k' = Some seq' → adjacent seq' !! i' = Some p' →
        excluded m p' = true → k < k' ∨ (k = k' ∧ i ≤ i').
Proof.
  induction seqs as [|seq seqs IH]; [done|]. simpl.
  destruct (scan_seq m (adjacent seq)) as [q|] eqn:Hscan.
  - intros [= ->]. apply scan_seq_Some in Hscan as (i & Hi & Hp & Hbefore).
    exists 0, i, seq. split; [done|]. split; [done|]. split; [done|].
    intros [|k'] i' seq' p' Hseq' Hp' Hex; [|left; lia].
    right. split; [done|]. simpl in Hseq'. injection Hseq' as <-.
    destruct (decide (i ≤ i')) as [|Hlt]; [done|].
    rewrite (Hbefore i' p') in Hex; [done|lia|done].
  - intros (k & i & s & Hs & Hi & Hp & Hfirst)%IH.
    exists (S k), i, s. split; [done|]. split; [done|]. split; [done|].
    intros [|k'] i' seq' p' Hseq' Hp' Hex; simpl in Hseq'.
    + injection Hseq' as <-.
      by rewrite (scan_seq_None _ _ Hscan i' p') in Hex.
    + destruct (Hfirst k' i' seq' p') as [?|[? ?]]; [done..|left; lia|right; lia].
Qed.

Lemma scan_sequences_None m seqs :
  scan_sequences m seqs = None →
  ∀ k i seq p, seqs !! k = Some seq → adjacent seq !! i = Some p →
               excluded m p = false.
Proof.
  induction seqs as [|seq seqs IH]; [by intros _ k i s p; rewrite lookup_nil|].
  simpl. destruct (scan_seq m (adjacent seq)) as [q|] eqn:Hscan; [done|].
  intros Hnone [|k] i s p Hs Hp; simpl in Hs.
  - injection Hs as <-. by apply (scan_seq_None _ _ Hscan i).
  - by apply (IH Hnone k i s).
Qed.

Lemma violation_excluded m seqs k i a b :
  violation_at m seqs k i a b ↔
  ∃ seq, seqs !! k = Some seq ∧ adjacent seq !! i = Some (a, b)
         ∧ excluded m (a, b) = true.
Proof.
  unfold violation_at. split.
  - intros (seq & l & Hs & Ha & Hb & Hl & Hin). exists seq.
    split; [done|]. split; [by apply adjacent_lookup|].
    apply excluded_spec. eauto.
  - intros (seq & Hs & [Ha Hb]%adjacent_lookup & (l & Hl & Hin)%excluded_spec).
    by exists seq, l.
Qed.

Lemma scan_sequences_first m seqs a b :
  scan_sequences m seqs = Some (a, b) → ∃ k i, first_violation m seqs k i a b.
Proof.
  intros (k & i & seq & Hs & Hi & Hex & Hfirst)%scan_sequences_Some.
  exists k, i. split.
  - apply violation_excluded. by exists seq.
  - intros k' i' a' b' (seq' & Hs' & Hi' & Hex')%violation_excluded.
    by apply (Hfirst k' i' seq' (a', b')).
Qed.

Lemma scan_sequences_clean m seqs :
  scan_sequences m seqs = None → ∀ k i a b, ¬ violation_at m seqs k i a b.
Proof.
  intros Hnone k i a b (seq & Hs & Hi & Hex)%violation_excluded.
  by rewrite (scan_sequences_None _ _ Hnone k i seq (a, b)) in Hex.
Qed.

Lemma no_violation_empty seqs k i a b : ¬ violation_at ∅ seqs k i a b.
Proof. intros (seq & l & _ & _ & _ & Hl & _). by rewrite lookup_empty in Hl. Qed.

Lemma count_contains c s :
  Py.contains s (String c "") = true → 1 ≤ count_char c s.
Proof.
  induction s as [|a s IH]; [done|].
  cbn [Py.contains]. rewrite prefix_char. simpl count_char.
  destruct (decide (a = c)) as [->|Hne]; [lia|].
  rewrite bool_decide_eq_false_2 by done. simpl. intros H%IH. lia.
Qed.

Lemma exclusion_row_returns sep m row :
  count_char ":" row ≤ 1 → ∃ m', exclusion_row sep m row = Ret m'.
Proof.
  intros H. unfold exclusion_row.
  assert (count_char ":" (Py.strip row) = count_char ":" row) as Hs
    by by apply count_strip.
  destruct (Py.strip row) as [|a s] eqn:Hstrip; [eauto|].
  destruct (Py.contains row ":") eqn:Hc; [|eauto].
  apply count_contains in Hc.
  pose proof (split_char_length ":" "" (String a s)) as Hlen.
  fold (Py.split (String a s) ":") in Hlen.
  destruct (Py.split (String a s) ":") as [|s1 [|s2 [|? ?]]];
    simpl length in Hlen; try lia.
  destruct s1, s2; eauto.
Qed.

Lemma for_each_returns {A S} (body : S → A → result S) l s :
  (∀ s x, x ∈ l → ∃ s', body s x = Ret s') →
  ∃ s', for_each body l s = Ret s'.
Proof.
  revert s. induction l as [|x l IH]; intros s Hall; simpl; [eauto|].
  destruct (Hall s x) as [s1 ->]; [apply list_elem_of_here|]. simpl.
  apply IH. intros s2 y Hy. apply Hall. by apply list_elem_of_further.
Qed.

Lemma parse_exclusions_returns exclusion_str sep :
  (∀ row, row ∈ Py.split exclusion_str "
" → count_char ":" row ≤ 1) →
  ∃ m, parse_exclusions exclusion_str sep = Ret m.
Proof.
  intros H. unfold parse_exclusions. destruct exclusion_str as [|a s]; [eauto|].
  apply for_each_returns. intros m row Hrow. by apply exclusion_row_returns, H.
Qed.

(** C7, amended.  For a spec none of whose lines holds more than one [:],
    the validator returns; it returns a failure exactly when some sequence
    holds an adjacent pair [(a, b)] with [b] in the entry of [a] in the
    parsed map [m]; the failure is that of the first such pair, sequences
    taken in order and positions from left to right, and its message names
    the two tokens (it holds no sequence index and no position); with no
    such pair the validator returns [m].  The spec ["a:b"] against the
    sequence ["ab"] fails on the pair at sequence 0, position 0. *)
Theorem check_exclusion_list_first_violation (exclusion_str : string)
    (seqs : list (list string)) (behaviors_separator : string) :
  (∀ row, row ∈ Py.split exclusion_str "
" → count_char ":" row ≤ 1) →
  (∃ m r,
     parse_exclusions exclusion_str behaviors_separator = Ret m
     ∧ check_exclusion_list exclusion_str seqs behaviors_separator = Ret r
     ∧ (error_code r = 1 ↔ ∃ k i a b, violation_at m seqs k i a b)
     ∧ (error_code r = 1 →
        ∃ k i a b, first_violation m seqs k i a b
                   ∧ r = CheckResult 1 (Some (excluded_message a b)) ∅)
     ∧ (error_code r ≠ 1 → r = CheckResult 0 None m))
  ∧ check_exclusion_list "a:b" [["a"; "b"]] ""
    = Ret (CheckResult 1
             (Some "The behavioral strings contain an excluded transition: a -> b")
             ∅)
  ∧ first_violation {[ "a" := ["b"] ]} [["a"; "b"]] 0 0 "a" "b".
Proof.
  intros Hrows. split; [|split].
  - destruct (parse_exclusions_returns _ behaviors_separator Hrows) as [m Hparse].
    exists m. unfold check_exclusion_list. rewrite Hparse. simpl.
    destruct exclusion_str as [|c s].
    + injection Hparse as <-. eexists. split; [done|]. split; [done|]. simpl.
      split; [|split; [done|done]].
      split; [done|]. intros (k & i & a & b & H).
      by apply no_violation_empty in H.
    + destruct (scan_sequences m seqs) as [[a b]|] eqn:Hscan.
      * apply scan_sequences_first in Hscan as (k & i & Hfirst).
        eexists. split; [done|]. split; [done|]. simpl. split; [|split; [|done]].
        -- split; [|done]. intros _. exists k, i, a, b. apply Hfirst.
        -- intros _. by exists k, i, a, b.
      * eexists. split; [done|]. split; [done|]. simpl.
        split; [|split; [done|done]].
        split; [done|]. intros (k & i & a & b & H).
        by apply (scan_sequences_clean _ _ Hscan) in H.
  - vm_compute. reflexivity.
  - split.
    + exists ["a"; "b"], ["b"]. split; [done|]. split; [done|]. split; [done|].
      split; [done|]. apply list_elem_of_here.
    + intros k' i' a' b' _. lia.
Qed.

Lemma check_exclusion_list_first_violation_witness :
  ∃ m r,
    parse_exclusions "a:bc
b:a" "" = Ret m
    ∧ check_exclusion_list "a:bc
b:a" [["c"; "a"]; ["a"; "a"; "b"; "a"]] "" = Ret r
    ∧ (error_code r = 1 ↔
       ∃ k i a b, violation_at m [["c"; "a"]; ["a"; "a"; "b"; "a"]] k i a b)
    ∧ (error_code r = 1 →
       ∃ k i a b,
         first_violation m [["c"; "a"]; ["a"; "a"; "b"; "a"]] k i a b
         ∧ r = CheckResult 1 (Some (excluded_message a b)) ∅)
    ∧ (error_code r ≠ 1 → r = CheckResult 0 None m).
Proof.
  apply (check_exclusion_list_first_violation "a:bc
b:a" [["c"; "a"]; ["a"; "a"; "b"; "a"]] "").
  intros row Hrow.
  apply elem_of_cons in Hrow as [->|Hrow]; [simpl; lia|].
  apply elem_of_cons in Hrow as [->|Hrow]; [simpl; lia|].
  by apply elem_of_nil in Hrow.
Defined.

(** C7 as stated does not hold: the failure does not tell where the pair
    stands.  A violation at sequence 0, position 0 and one at sequence 1,
    position 1 give the same result. *)
Lemma check_exclusion_list_no_location :
  check_exclusion_list "a:b" [["a"; "b"]] ""
  = check_exclusion_list "a:b" [["c"; "c"]; ["c"; "a"; "b"]] ""
  ∧ first_violation {[ "a" := ["b"] ]} [["a"; "b"]] 0 0 "a" "b"
  ∧ first_violation {[ "a" := ["b"] ]} [["c"; "c"]; ["c"; "a"; "b"]] 1 1 "a" "b".
Proof.
  split; [vm_compute; reflexivity|]. split.
  - split.
    + exists ["a"; "b"], ["b"]. split; [done|]. split; [done|]. split; [done|].
      split; [done|]. apply list_elem_of_here.
    + intros k' i' a' b' _. lia.
  - split.
    + exists ["c"; "a"; "b"], ["b"]. split; [done|]. split; [done|].
      split; [done|]. split; [done|]. apply list_elem_of_here.
    + intros k' i' a' b' (seq & l & Hs & Ha & Hb & Hl & Hin).
      destruct k' as [|[|k']]; simpl in Hs; [| |by rewrite lookup_nil in Hs].
      * injection Hs as <-.
        destruct i' as [|[|i']]; simpl in Ha; simplify_eq;
          try (by vm_compute in Hl).
      * injection Hs as <-.
        destruct i' as [|[|[|i']]]; simpl in Ha; simplify_eq;
          try (by vm_compute in Hl); right; lia.
Qed.

(** ** The matrix of a trial *)

Lemma matrix_ge_square n a b :
  square n a → square n b → square n (matrix_ge a b).
Proof.
  intros [Ha Fa] [Hb Fb]. split.
  - unfold matrix_ge. rewrite length_zip_with. lia.
  - apply Forall_lookup. intros i row Hrow.
    apply lookup_zip_with_Some in Hrow as (x & y & -> & Hx & Hy).
    rewrite length_zip_with.
    rewrite (Forall_lookup_1 _ _ _ _ Fa Hx), (Forall_lookup_1 _ _ _ _ Fb Hy). lia.
Qed.

Lemma cell_matrix_ge n a b i j :
  square n a → square n b → i < n → j < n →
  cell (matrix_ge a b) i j = if cell b i j <=? cell a i j then 1 else 0.
Proof.
  intros [Ha Fa] [Hb Fb] Hi Hj. unfold cell, matrix_ge.
  rewrite lookup_zip_with.
  destruct (lookup_lt_is_Some_2 a i) as [ra Hra]; [lia|].
  destruct (lookup_lt_is_Some_2 b i) as [rb Hrb]; [lia|].
  rewrite Hra, Hrb. simpl. rewrite lookup_zip_with.
  pose proof (Forall_lookup_1 _ _ _ _ Fa Hra) as La.
  pose proof (Forall_lookup_1 _ _ _ _ Fb Hrb) as Lb. simpl in La, Lb.
  destruct (lookup_lt_is_Some_2 ra j) as [x Hx]; [lia|].
  destruct (lookup_lt_is_Some_2 rb j) as [y Hy]; [lia|].
  rewrite Hx, Hy. done.
Qed.

Lemma count_pair_square n behaviours p m m' :
  square n m → count_pair behaviours m p = Ret m' → square n m'.
Proof.
  intros Hm. unfold count_pair.
  destruct (Py.index behaviours p.1) as [i| |]; simpl; [|done..].
  destruct (Py.index behaviours p.2) as [j| |]; simpl; [|done..].
  intros [= <-]. by apply bump_square.
Qed.

Lemma count_pairs_square n behaviours pairs m m' :
  square n m →
  for_each (count_pair behaviours) pairs m = Ret m' → square n m'.
Proof.
  revert m. induction pairs as [|p pairs IH]; intros m Hm; simpl.
  - by intros [= <-].
  - destruct (count_pair behaviours m p) as [m1| |] eqn:H1; simpl; [|done..].
    apply IH. by eapply count_pair_square.
Qed.

Lemma permuted_from_square n behaviours p m m' :
  square n m →
  for_each (fun m seq => for_each (count_pair behaviours) (adjacent seq) m) p m
  = Ret m' →
  square n m'.
Proof.
  revert m. induction p as [|seq p IH]; intros m Hm; simpl.
  - by intros [= <-].
  - destruct (for_each (count_pair behaviours) (adjacent seq) m) as [m1| |] eqn:H1;
      simpl; [|done..].
    apply IH. by eapply count_pairs_square.
Qed.

Lemma permuted_transitions_matrix_square behaviours p m :
  permuted_transitions_matrix behaviours p = Ret m →
  square (length behaviours) m.
Proof. apply permuted_from_square, zeros_square. Qed.

(** ** Cells count transitions *)

Lemma cell_bump n i' j' m i j :
  square n m → i' < n → j' < n →
  cell (bump i' j' m) i j
  = cell m i j + (if (i' =? i) && (j' =? j) then 1 else 0).
Proof.
  intros [Hm Fm] Hi Hj. unfold cell, bump.
  destruct (Nat.eqb_spec i' i) as [<-|Hne]; simpl.
  - rewrite list_lookup_alter_eq.
    destruct (lookup_lt_is_Some_2 m i') as [row Hrow]; [lia|].
    rewrite Hrow. simpl.
    pose proof (Forall_lookup_1 _ _ _ _ Fm Hrow) as Hlen. simpl in Hlen.
    destruct (Nat.eqb_spec j' j) as [<-|Hnej].
    + rewrite list_lookup_alter_eq.
      destruct (lookup_lt_is_Some_2 row j') as [x ->]; [lia|]. simpl. lia.
    + rewrite list_lookup_alter_ne by done. lia.
  - rewrite list_lookup_alter_ne by done. lia.
Qed.

Lemma index_bound l x i : Py.index l x = Ret i → i < length l.
Proof.
  revert i. induction l as [|y l IH]; intros i; [done|]. simpl.
  destruct (decide (y = x)); [intros [= <-]; lia|].
  destruct (Py.index l x) as [i'| |]; simpl; [|done..].
  intros [= <-]. specialize (IH i' eq_refl). lia.
Qed.

Lemma count_pairs_cells behaviours pairs m m' :
  square (length behaviours) m →
  for_each (count_pair behaviours) pairs m = Ret m' →
  ∀ i j, cell m' i j
         = cell m i j
           + length (filter (fun p => at_cell behaviours i j p = true) pairs).
Proof.
  revert m. induction pairs as [|p pairs IH]; intros m Hm; simpl.
  - intros [= <-] i j. simpl. lia.
  - destruct (count_pair behaviours m p) as [m1| |] eqn:H1; simpl; [|done..].
    intros Hrest i j.
    rewrite (IH m1); [|by eapply count_pair_square|done].
    unfold count_pair in H1.
    destruct (Py.index behaviours p.1) as [i'| |] eqn:Hi; simpl in H1; [|done..].
    destruct (Py.index behaviours p.2) as [j'| |] eqn:Hj; simpl in H1; [|done..].
    injection H1 as <-.
    rewrite (cell_bump (length behaviours));
      [|done|by eapply index_bound|by eapply index_bound].
    destruct ((i' =? i) && (j' =? j)) eqn:Hij.
    + rewrite filter_cons_True; [simpl; lia|].
      unfold at_cell. by rewrite Hi, Hj.
    + rewrite filter_cons_False; [lia|].
      unfold at_cell. rewrite Hi, Hj, Hij. done.
Qed.

Lemma permuted_from_cells behaviours p m m' :
  square (length behaviours) m →
  for_each (fun m seq => for_each (count_pair behaviours) (adjacent seq) m) p m
  = Ret m' →
  ∀ i j, cell m' i j = cell m i j + transitions behaviours p i j.
Proof.
  unfold transitions. revert m. induction p as [|seq p IH]; intros m Hm; csimpl.
  - intros [= <-] i j. simpl. lia.
  - destruct (for_each (count_pair behaviours) (adjacent seq) m) as [m1| |] eqn:H1;
      simpl; [|done..].
    intros Hrest i j.
    rewrite (IH m1); [|by eapply count_pairs_square|done].
    rewrite (count_pairs_cells _ _ _ _ Hm H1).
    rewrite filter_app, length_app. lia.
Qed.

(** Each cell of the matrix of a trial is the number of transitions of the
    permuted sequences between the two tokens. *)
Lemma permuted_transitions_matrix_cells behaviours p m i j :
  permuted_transitions_matrix behaviours p = Ret m →
  cell m i j = transitions behaviours p i j.
Proof.
  intros H. rewrite (permuted_from_cells _ _ _ _ (zeros_square _) H).
  by rewrite cell_zeros.
Qed.

Lemma meets_transitions behaviours observed_matrix i j p m :
  permuted_transitions_matrix behaviours p = Ret m →
  meets behaviours observed_matrix i j p
  = (cell observed_matrix i j <=? transitions behaviours p i j).
Proof.
  intros H. unfold meets. rewrite H.
  by rewrite (permuted_transitions_matrix_cells _ _ _ _ _ H).
Qed.

Lemma observe_pairs_cells behaviours pairs m :
  square (length behaviours) m →
  Forall (fun p : string * string => p.1 ∈ behaviours ∧ p.2 ∈ behaviours) pairs →
  ∀ i j, cell (foldl (observe_pair behaviours) m pairs) i j
         = cell m i j
           + length (filter (fun p => at_cell behaviours i j p = true) pairs).
Proof.
  revert m. induction pairs as [|p pairs IH]; intros m Hm Hp i j; simpl.
  - simpl. lia.
  - apply Forall_cons in Hp as [[H1 H2] Hp].
    unfold observe_pair at 2. rewrite decide_True by done.
    destruct (index_elem _ _ H1) as (i' & Hi' & Hlt & _).
    destruct (index_elem _ _ H2) as (j' & Hj' & Hlt' & _).
    rewrite Hi', Hj'. rewrite IH by (done || by apply bump_square).
    rewrite (cell_bump (length behaviours)) by done.
    destruct ((i' =? i) && (j' =? j)) eqn:Hij.
    + rewrite filter_cons_True; [simpl; lia|].
      unfold at_cell. by rewrite Hi', Hj'.
    + rewrite filter_cons_False; [lia|].
      unfold at_cell. rewrite Hi', Hj', Hij. done.
Qed.

Lemma observed_from_cells behaviours seqs m i j :
  square (length behaviours) m →
  (∀ seq x, seq ∈ seqs → x ∈ seq → x ∈ behaviours) →
  cell (foldl (fun m seq => foldl (observe_pair behaviours) m (adjacent seq))
          m seqs) i j
  = cell m i j + transitions behaviours seqs i j.
Proof.
  unfold transitions.
  revert m. induction seqs as [|seq seqs IH]; intros m Hm Hin; csimpl.
  - simpl. lia.
  - assert (Forall (fun p : string * string => p.1 ∈ behaviours ∧ p.2 ∈ behaviours)
              (adjacent seq)) as Hpairs.
    { apply Forall_forall. intros [a b] [Ha Hb]%adjacent_elem.
      split; apply (Hin seq); (done || apply list_elem_of_here). }
    rewrite IH.
    + rewrite observe_pairs_cells by done. rewrite filter_app, length_app. lia.
    + by apply (observe_pairs_sum (length behaviours)).
    + intros s x Hs. apply Hin. by apply list_elem_of_further.
Qed.

(** Each cell of the observed matrix is the number of transitions of the
    sequences between the two tokens, when the alphabet holds every token. *)
Lemma create_observed_transition_matrix_cells seqs behaviours i j :
  (∀ seq x, seq ∈ seqs → x ∈ seq → x ∈ behaviours) →
  cell (create_observed_transition_matrix seqs behaviours) i j
  = transitions behaviours seqs i j.
Proof.
  intros Hin. unfold create_observed_transition_matrix.
  rewrite observed_from_cells; [|apply zeros_square|done].
  by rewrite cell_zeros.
Qed.

Lemma filter_agree {A} (P Q : A → Prop) `{∀ x, Decision (P x)}
    `{∀ x, Decision (Q x)} (l : list A) :
  Forall (fun x => P x ↔ Q x) l → filter P l = filter Q l.
Proof.
  induction 1 as [|x l Hx _ IH]; [done|].
  destruct (decide (P x)) as [HP|HP].
  - rewrite !filter_cons_True by tauto. by rewrite IH.
  - rewrite !filter_cons_False by tauto. done.
Qed.

(** ** The loop of the driver *)

Lemma filter_all {A} (P : A → Prop) `{∀ x, Decision (P x)} (l : list A) :
  Forall P l → filter P l = l.
Proof.
  induction 1 as [|x l Hx _ IH]; [done|].
  by rewrite filter_cons_True, IH.
Qed.

Section DriverLoop.

Variable rnd : nat -> nat.
Variable nrandom : Z.
Variable seqs : list (list string).
Variable behaviours : list string.
Variable exclusion_list : gmap string (list string).
Variables block_first block_last : bool.
Variable observed_matrix : list (list nat).
Variable wfuel : nat.
Variable space : list string.

Hypothesis observed_square : square (length behaviours) observed_matrix.

Lemma tally_spec p count results count' results' :
  square (length behaviours) results →
  tally behaviours observed_matrix p count results = Ret (count', results') →
  square (length behaviours) results'
  ∧ count' = count + length (successful [p])
  ∧ Forall (fun p => ∃ m, permuted_transitions_matrix behaviours p = Ret m)
      (successful [p])
  ∧ ∀ i j, i < length behaviours → j < length behaviours →
      cell results' i j
      = cell results i j
        + length (filter (fun p => meets behaviours observed_matrix i j p = true)
                    (successful [p])).
Proof.
  intros Hres. unfold tally, successful. destruct p as [|seq p].
  - intros [= <- <-]. rewrite filter_cons_False by (intros H; by apply H).
    rewrite filter_nil. simpl. split; [done|]. split; [lia|].
    split; [constructor|]. intros. lia.
  - destruct (permuted_transitions_matrix behaviours (seq :: p)) as [m| |] eqn:Hm;
      simpl; [|done..].
    intros [= <- <-]. rewrite filter_cons_True by done. rewrite filter_nil.
    pose proof (permuted_transitions_matrix_square _ _ _ Hm) as Hsq.
    split; [by apply matrix_add_square, matrix_ge_square|].
    split; [simpl; lia|]. split; [repeat constructor; eauto|].
    intros i j Hi Hj.
    rewrite (cell_matrix_add (length behaviours)), (cell_matrix_ge (length behaviours));
      [|done..|by apply matrix_ge_square].
    unfold meets.
    destruct (cell observed_matrix i j <=? cell m i j) eqn:Hle.
    + rewrite filter_cons_True; [done|]. by rewrite Hm.
    + rewrite filter_cons_False; [done|]. rewrite Hm. congruence.
Qed.

Lemma trials_spec fuel count count_tot results k ct res k' :
  square (length behaviours) results →
  trials rnd nrandom seqs behaviours exclusion_list block_first block_last
    observed_matrix wfuel fuel space count count_tot results k
  = Ret (ct, res, k') →
  ∃ n log,
    log = attempts rnd exclusion_list block_first block_last wfuel n space seqs k
    ∧ ct = count_tot + n ∧ length log = n
    ∧ Z.of_nat (count + length (successful log)) = nrandom
    ∧ square (length behaviours) res
    ∧ Forall (fun p => ∃ m, permuted_transitions_matrix behaviours p = Ret m)
        (successful log)
    ∧ ∀ i j, i < length behaviours → j < length behaviours →
        cell res i j
        = cell results i j
          + length (filter (fun p => meets behaviours observed_matrix i j p = true)
                      (successful log)).
Proof.
  revert count count_tot results k.
  induction fuel as [|fuel IH]; intros count count_tot results k Hres; [done|].
  simpl.
  destruct (strings_permutation rnd exclusion_list block_first block_last
              wfuel space seqs k) as [[p k1]| |] eqn:Hp; simpl; [|done..].
  destruct (tally behaviours observed_matrix p count results)
    as [[count' results']| |] eqn:Ht; simpl; [|done..].
  destruct (tally_spec _ _ _ _ _ Hres Ht) as (Hsq & Hc & Hok & Hcell).
  unfold successful in *.
  case_bool_decide as Hstop.
  - intros [= <- <- <-]. exists 1, [p]. simpl. rewrite Hp.
    split; [done|]. split; [done|]. split; [done|].
    split; [by rewrite <- Hc|]. done.
  - intros Hrun.
    destruct (IH _ _ _ _ Hsq Hrun) as (n & log & Hlog & Hct & Hlen & Hn & Hsq' & Hok' & Hcell').
    exists (S n), (p :: log). simpl. rewrite Hp, <- Hlog.
    split; [done|]. split; [lia|]. split; [simpl; lia|].
    assert (filter (fun p => p ≠ []) (p :: log)
            = filter (fun p => p ≠ []) [p] ++ filter (fun p => p ≠ []) log) as Hsplit
      by (by rewrite <- filter_app).
    rewrite Hsplit, length_app. split; [lia|]. split; [done|].
    split; [by apply Forall_app|].
    intros i j Hi Hj.
    rewrite filter_app, length_app, Hcell', Hcell by done. lia.
Qed.

End DriverLoop.

(** C5.  When [permutations_test] returns [(count_tot, results)] for a
    positive [nrandom], the [count_tot] attempts it made hold exactly
    [nrandom] that were not abandoned, [count_tot >= nrandom], and each cell
    of [results] is the number of those trials whose permuted count at the
    cell is at least the observed one; a cell whose observed count is 0 holds
    [nrandom].  The observed matrix has the shape of the alphabet, as [main]
    builds it. *)
Theorem permutations_test_tally (rnd : nat -> nat) (fuel : nat) (nrandom : Z)
    (seqs : list (list string)) (behaviours : list string)
    (exclusion_list : gmap string (list string))
    (block_first block_last : bool) (observed_matrix : list (list nat))
    (no_repetition : bool) (count_tot : nat) (results : list (list nat)) :
  (0 < nrandom)%Z →
  square (length behaviours) observed_matrix →
  permutations_test rnd fuel nrandom seqs behaviours exclusion_list
    block_first block_last observed_matrix no_repetition
  = Ret (count_tot, results) →
  ∃ log,
    log = attempts rnd (no_repeat no_repetition behaviours exclusion_list)
            block_first block_last fuel count_tot
            (pool block_first block_last seqs) seqs 0
    ∧ length log = count_tot
    ∧ Z.of_nat (length (successful log)) = nrandom
    ∧ (nrandom ≤ Z.of_nat count_tot)%Z
    ∧ square (length behaviours) results
    ∧ (∀ i j, i < length behaviours → j < length behaviours →
         cell results i j
         = length (filter (fun p => meets behaviours observed_matrix i j p = true)
                     (successful log)))
    ∧ (∀ i j, i < length behaviours → j < length behaviours →
         cell results i j
         = length (filter (fun p => cell observed_matrix i j
                                    ≤ transitions behaviours p i j)
                     (successful log)))
    ∧ (∀ i j, i < length behaviours → j < length behaviours →
         cell observed_matrix i j = 0 →
         Z.of_nat (cell results i j) = nrandom).
Proof.
  intros Hpos Hobs. unfold permutations_test.
  destruct (trials _ _ _ _ _ _ _ _ _ _ _ _ _ _ _) as [[[ct res] k']| |] eqn:Hrun;
    simpl; [|done..].
  intros [= <- <-].
  apply trials_spec in Hrun as (n & log & Hlog & Hct & Hlen & Hn & Hsq & Hok & Hcell);
    [|done|apply zeros_square].
  simpl in Hct, Hn. subst ct. exists log.
  split; [done|]. split; [done|]. split; [done|].
  split.
  { rewrite <- Hn, <- Hlen. apply inj_le. unfold successful. apply length_filter. }
  split; [done|].
  assert (∀ i j, i < length behaviours → j < length behaviours →
            cell res i j
            = length (filter (fun p => meets behaviours observed_matrix i j p = true)
                        (successful log))) as Hcells.
  { intros i j Hi Hj. by rewrite Hcell, cell_zeros. }
  split; [done|]. split.
  { intros i j Hi Hj. rewrite Hcells by done. f_equal. apply filter_agree.
    eapply Forall_impl; [exact Hok|]. simpl. intros p [m Hm].
    rewrite (meets_transitions _ _ _ _ _ _ Hm). apply Nat.leb_le. }
  intros i j Hi Hj Hzero. rewrite Hcells by done. rewrite <- Hn. f_equal.
  f_equal. apply filter_all.
  eapply Forall_impl; [exact Hok|]. simpl. intros p [m Hm].
  unfold meets. by rewrite Hm, Hzero.
Qed.

Lemma permutations_test_tally_witness :
  permutations_test (fun k => k + 1) 5 2 [["a"; "b"; "a"]] ["a"; "b"] ∅
    false false [[0; 1]; [1; 0]] true
  = Ret (3, [[2; 2]; [2; 2]])
  ∧ ∃ log,
      log = attempts (fun k => k + 1) (no_repeat true ["a"; "b"] ∅)
              false false 5 3 (pool false false [["a"; "b"; "a"]])
              [["a"; "b"; "a"]] 0
      ∧ length log = 3
      ∧ Z.of_nat (length (successful log)) = 2%Z
      ∧ (2 ≤ Z.of_nat 3)%Z
      ∧ square (length ["a"; "b"]) [[2; 2]; [2; 2]]
      ∧ (∀ i j, i < length ["a"; "b"] → j < length ["a"; "b"] →
           cell [[2; 2]; [2; 2]] i j
           = length (filter (fun p => meets ["a"; "b"] [[0; 1]; [1; 0]] i j p = true)
                       (successful log)))
      ∧ (∀ i j, i < length ["a"; "b"] → j < length ["a"; "b"] →
           cell [[2; 2]; [2; 2]] i j
           = length (filter (fun p => cell [[0; 1]; [1; 0]] i j
                                      ≤ transitions ["a"; "b"] p i j)
                       (successful log)))
      ∧ (∀ i j, i < length ["a"; "b"] → j < length ["a"; "b"] →
           cell [[0; 1]; [1; 0]] i j = 0 →
           Z.of_nat (cell [[2; 2]; [2; 2]] i j) = 2%Z).
Proof.
  assert (permutations_test (fun k => k + 1) 5 2 [["a"; "b"; "a"]] ["a"; "b"] ∅
            false false [[0; 1]; [1; 0]] true
          = Ret (3, [[2; 2]; [2; 2]])) as Hrun by (vm_compute; reflexivity).
  split; [exact Hrun|].
  apply (permutations_test_tally (fun k => k + 1) 5 2 [["a"; "b"; "a"]]
           ["a"; "b"] ∅ false false [[0; 1]; [1; 0]] true 3 [[2; 2]; [2; 2]]).
  - lia.
  - repeat constructor.
  - exact Hrun.
Defined.

(** ** A driver that never stops *)

Lemma trials_never_stop (rnd : nat -> nat) (nrandom : Z)
    (seqs : list (list string)) (behaviours : list string)
    (exclusion_list : gmap string (list string))
    (block_first block_last : bool) (observed_matrix : list (list nat))
    (wfuel : nat) (space : list string) :
  nrandom ≠ 0%Z →
  (∀ k,
     strings_permutation rnd exclusion_list block_first block_last
       wfuel space seqs k = OutOfFuel
     ∨ ∃ k', strings_permutation rnd exclusion_list block_first block_last
               wfuel space seqs k = Ret ([], k')) →
  ∀ fuel count_tot results k,
    trials rnd nrandom seqs behaviours exclusion_list block_first block_last
      observed_matrix wfuel fuel space 0 count_tot results k = OutOfFuel.
Proof.
  intros Hn Hnever. induction fuel as [|fuel IH]; intros count_tot results k; [done|].
  simpl. destruct (Hnever k) as [-> | [k' ->]]; [done|]. simpl.
  rewrite bool_decide_eq_false_2 by lia. apply IH.
Qed.

Lemma choice_pair (rnd : nat -> nat) (x : string) k :
  choice rnd [x; x] k = Ret (x, S k).
Proof.
  unfold choice. simpl length.
  pose proof (Nat.mod_upper_bound (rnd k) 2) as Hlt.
  destruct (rnd k mod 2) as [|[|n]]; [done..|lia].
Qed.

Lemma draw_abandon rnd E bl fuel seq c ps space newseq element k :
  candidates E element space = [] →
  draw rnd E bl fuel seq (c :: ps) space newseq element k = Ret (None, k).
Proof. intros H. simpl. by rewrite H. Qed.

Lemma draw_next rnd E fuel seq c ps space newseq element k x k' space' :
  choice rnd (candidates E element space) k = Ret (x, k') →
  Py.remove space x = Ret space' →
  draw rnd E false fuel seq (c :: ps) space newseq element k
  = draw rnd E false fuel seq ps space' (newseq ++ [x]) x k'.
Proof.
  intros Hc Hr. simpl.
  destruct (candidates E element space) as [|y l]; [done|].
  rewrite Hc. simpl. rewrite Hr. done.
Qed.

(** With [no_repetition], the sequence ["aa"] has no permutation: the second
    draw finds nothing left to follow ["a"]. *)
Lemma strings_permutation_aa (rnd : nat -> nat) wfuel k :
  strings_permutation rnd (no_repeat true ["a"] ∅) false false wfuel
    (pool false false [["a"; "a"]]) [["a"; "a"]] k
  = Ret ([], S k).
Proof.
  unfold strings_permutation, permute_all, permute_sequence.
  change (pool false false [["a"; "a"]]) with ["a"; "a"].
  change (interior false false ["a"; "a"]) with ["a"; "a"].
  assert (draw rnd (no_repeat true ["a"] ∅) false wfuel ["a"; "a"] ["a"; "a"]
            ["a"; "a"] [] "" k = Ret (None, S k)) as Hdraw.
  { rewrite (draw_next _ _ _ _ _ _ _ _ _ _ "a" (S k) ["a"]).
    - apply draw_abandon. vm_compute. reflexivity.
    - apply choice_pair.
    - reflexivity. }
  cbn [mbind result_bind rbind]. rewrite Hdraw. done.
Qed.

(** C1, amended.  [permutations_test] puts no bound on abandoned attempts:
    its loop is left only when the count of successful trials equals
    [nrandom].  Under a configuration in which every attempt is abandoned,
    and for [nrandom] other than 0, it does not terminate: whatever the
    number of iterations allowed, the loop is still running. *)
Theorem permutations_test_no_bound (rnd : nat -> nat) (nrandom : Z)
    (seqs : list (list string)) (behaviours : list string)
    (exclusion_list : gmap string (list string))
    (block_first block_last : bool) (observed_matrix : list (list nat))
    (no_repetition : bool) :
  nrandom ≠ 0%Z →
  (∀ wfuel k,
     strings_permutation rnd (no_repeat no_repetition behaviours exclusion_list)
       block_first block_last wfuel (pool block_first block_last seqs) seqs k
     = OutOfFuel
     ∨ ∃ k', strings_permutation rnd
               (no_repeat no_repetition behaviours exclusion_list)
               block_first block_last wfuel
               (pool block_first block_last seqs) seqs k
             = Ret ([], k')) →
  ∀ fuel,
    permutations_test rnd fuel nrandom seqs behaviours exclusion_list
      block_first block_last observed_matrix no_repetition
    = OutOfFuel.
Proof.
  intros Hn Hnever fuel. unfold permutations_test.
  by rewrite trials_never_stop.
Qed.

Lemma permutations_test_no_bound_witness :
  (∀ wfuel k,
     strings_permutation (fun k => k) (no_repeat true ["a"] ∅) false false
       wfuel (pool false false [["a"; "a"]]) [["a"; "a"]] k
     = Ret ([], S k))
  ∧ ∀ fuel,
      permutations_test (fun k => k) fuel 1 [["a"; "a"]] ["a"] ∅
        false false [[1]] true
      = OutOfFuel.
Proof.
  split; [intros; apply strings_permutation_aa|].
  apply (permutations_test_no_bound (fun k => k) 1 [["a"; "a"]] ["a"] ∅
           false false [[1]] true).
  - lia.
  - intros wfuel k. right. exists (S k). apply strings_permutation_aa.
Defined.

(** C1 as stated does not hold.  For the sequence ["aa"] with
    [no_repetition], no trial succeeds whatever the draws, and the driver
    neither returns nor raises: it is still looping after any number of
    iterations. *)
Lemma permutations_test_loops_forever :
  (∀ rnd wfuel k,
     strings_permutation rnd (no_repeat true ["a"] ∅) false false
       wfuel (pool false false [["a"; "a"]]) [["a"; "a"]] k
     = Ret ([], S k))
  ∧ ¬ ∃ rnd fuel,
        permutations_test rnd fuel 1 [["a"; "a"]] ["a"] ∅
          false false [[1]] true
        ≠ OutOfFuel.
Proof.
  split; [intros; apply strings_permutation_aa|].
  intros (rnd & fuel & Hstop). apply Hstop.
  unfold permutations_test. rewrite trials_never_stop; [done|lia|].
  intros k. right. exists (S k). apply strings_permutation_aa.
Qed.

(** ** The generator on inputs where it leaves its contract *)

(** C2, evaluation.  The sequences [p z l] and [y x m] respect the
    exclusions [p:x], [y:l].  With [block_last], a trial in which the
    penultimate token of the first sequence is drawn again twice yields
    [p x l], which holds the excluded pair [(p, x)].  With [no_repetition],
    both ends blocked and the one-token sequence [a], the trial yields
    [a a]. *)
Lemma strings_permutation_excluded_pair :
  check_exclusion_list "p:x
y:l" [["p"; "z"; "l"]; ["y"; "x"; "m"]] ""
  = Ret (CheckResult 0 None {[ "p" := ["x"]; "y" := ["l"] ]})
  ∧ strings_permutation draws_three {[ "p" := ["x"]; "y" := ["l"] ]}
      false true 10
      (pool false true [["p"; "z"; "l"]; ["y"; "x"; "m"]])
      [["p"; "z"; "l"]; ["y"; "x"; "m"]] 0
    = Ret ([["p"; "x"; "l"]; ["z"; "x"; "m"]], 6)
  ∧ excluded {[ "p" := ["x"]; "y" := ["l"] ]} ("p", "x") = true
  ∧ strings_permutation draws_three (no_repeat true ["a"] ∅) true true 10
      (pool true true [["a"]]) [["a"]] 0
    = Ret ([["a"; "a"]], 0).
Proof. repeat split; vm_compute; reflexivity. Qed.

(** C3, evaluation.  With [block_last] and the last token ["ab"], the
    permuted sequence ends with the two tokens ["a"], ["b"]: its last token
    is ["b"].  The driver then raises on [behaviours.index("a")]. *)
Lemma strings_permutation_last_token_split :
  strings_permutation draws_two ∅ false true 10
    (pool false true [["x"; "ab"]]) [["x"; "ab"]] 0
  = Ret ([["x"; "a"; "b"]], 1)
  ∧ last ["x"; "a"; "b"] = Some "b"
  ∧ last ["x"; "ab"] = Some "ab"
  ∧ permutations_test draws_two 10 1 [["x"; "ab"]] ["ab"; "x"] ∅
      false true (create_observed_transition_matrix [["x"; "ab"]] ["ab"; "x"])
      false
    = Raise ValueError.
Proof. repeat split; vm_compute; reflexivity. Qed.

(** C4, evaluation.  Same sequences and exclusions as for C2.  When the
    penultimate token of the first sequence is drawn again, the token drawn
    first ([y]) has left the pool and the one kept ([z]) stays in it: the
    interiors of the result hold [z] twice and [y] not at all. *)
Lemma strings_permutation_pool_not_kept :
  strings_permutation draws_two {[ "p" := ["x"]; "y" := ["l"] ]}
    false true 10
    (pool false true [["p"; "z"; "l"]; ["y"; "x"; "m"]])
    [["p"; "z"; "l"]; ["y"; "x"; "m"]] 0
  = Ret ([["p"; "z"; "l"]; ["z"; "x"; "m"]], 5)
  ∧ pool false true [["p"; "z"; "l"]; ["y"; "x"; "m"]] = ["p"; "z"; "y"; "x"]
  ∧ pool false true [["p"; "z"; "l"]; ["z"; "x"; "m"]] = ["p"; "z"; "z"; "x"]
  ∧ ¬ (pool false true [["p"; "z"; "l"]; ["z"; "x"; "m"]]
       ≡ₚ pool false true [["p"; "z"; "l"]; ["y"; "x"; "m"]]).
Proof.
  split; [vm_compute; reflexivity|]. split; [reflexivity|].
  split; [reflexivity|].
  change (¬ (["p"; "z"; "z"; "x"] ≡ₚ ["p"; "z"; "y"; "x"])).
  intros HP.
  assert ("y" ∈ ["p"; "z"; "z"; "x"]) as Hy.
  { rewrite HP. do 2 apply list_elem_of_further. apply list_elem_of_here. }
  repeat (apply elem_of_cons in Hy as [Hy|Hy]; [discriminate|]).
  by apply elem_of_nil in Hy.
Qed.

(** ** The warning of the parser *)

(** C9, evaluation.  On ["a-b"] the loop over the rows leaves
    [not_alnum = [1, 45]], and the nine values returned do not hold it. *)
Lemma behav_strings_stats_drops_not_alnum :
  (st ← parse_rows "a-b" 0 ""; Ret (st_not_alnum st)) = Ret [1; 45]
  ∧ behav_strings_stats "a-b" 0 ""
    = Ret (Stats 0 [["a"; "-"; "b"]]
             {[ "a" +:+ SEPARATOR +:+ "-" := 1; "-" +:+ SEPARATOR +:+ "b" := 1 ]}
             {[ "a" := 1; "-" := 1; "b" := 1 ]}
             {[ "a" := 1 ]}
             3 2
             {[ "a" := 1; "-" := 1 ]}
             ["-"; "a"; "b"]).
Proof. split; vm_compute; reflexivity. Qed.

(** ** The generator on the path without the last-token check *)

Lemma choice_elem rnd l k x k' : choice rnd l k = Ret (x, k') → x ∈ l ∧ k' = S k.
Proof.
  unfold choice. destruct (l !! (rnd k mod length l)) as [y|] eqn:Hy; [|done].
  intros [= <- <-]. split; [|done]. by eapply list_elem_of_lookup_2.
Qed.

Lemma without_elem (x i : string) l : x ∈ without i l ↔ x ∈ l ∧ x ≠ i.
Proof. unfold without. by rewrite list_elem_of_filter, (comm and). Qed.

Lemma without_all_elem (x : string) ex l :
  x ∈ foldl (fun lspazio3 i => without i lspazio3) l ex ↔ x ∈ l ∧ x ∉ ex.
Proof.
  revert l. induction ex as [|i ex IH]; intros l; simpl.
  - rewrite elem_of_nil. tauto.
  - rewrite IH, without_elem, not_elem_of_cons. tauto.
Qed.

Lemma candidates_elem E element space x :
  x ∈ candidates E element space →
  x ∈ space ∧ excluded E (element, x) = false.
Proof.
  unfold candidates, excluded. simpl. destruct (E !! element) as [ex|].
  - rewrite without_all_elem. intros [? ?]. split; [done|].
    by apply bool_decide_eq_false_2.
  - done.
Qed.

Lemma remove_perm l x l' : Py.remove l x = Ret l' → l ≡ₚ x :: l'.
Proof.
  revert l'. induction l as [|y l IH]; intros l'; [done|]. simpl.
  destruct (decide (y = x)) as [->|Hne].
  - by intros [= <-].
  - destruct (Py.remove l x) as [r| |]; simpl; [|done..].
    intros [= <-]. rewrite (IH r eq_refl). apply perm_swap.
Qed.

Lemma adjacent_snoc {A} (l : list A) y x :
  adjacent ((l ++ [y]) ++ [x]) = adjacent (l ++ [y]) ++ [(y, x)].
Proof.
  induction l as [|a [|b l] IH]; [done..|].
  change ((((a :: b :: l) ++ [y]) ++ [x])) with (a :: ((b :: l) ++ [y]) ++ [x]).
  change ((a :: b :: l) ++ [y]) with (a :: ((b :: l) ++ [y])).
  change (adjacent (a :: ((b :: l) ++ [y]) ++ [x]))
    with ((a, b) :: adjacent (((b :: l) ++ [y]) ++ [x])).
  change (adjacent (a :: (b :: l) ++ [y]))
    with ((a, b) :: adjacent ((b :: l) ++ [y])).
  by rewrite IH.
Qed.

Lemma interior_unchecked (bf : bool) (l : list string) :
  interior bf false l = drop (if bf then 1 else 0) l.
Proof.
  unfold interior, Py.slice.
  destruct (Z.ltb_spec (Z.of_nat (length l) - 0) 0) as [?|_]; [lia|].
  rewrite take_ge; [done|lia].
Qed.

Section Unchecked.

Variable rnd : nat -> nat.
Variable E : gmap string (list string).
Variable block_first : bool.
Variable fuel : nat.

Lemma well_built_snoc newseq element x :
  well_built E newseq element → excluded E (element, x) = false →
  well_built E (newseq ++ [x]) x.
Proof.
  intros [Hadj Hlast] Hx. split; [|right; by rewrite last_snoc].
  destruct Hlast as [->|Hlast]; [constructor|].
  destruct (last_Some newseq element) as [[l ->] _]; [done|]. 
  rewrite adjacent_snoc. apply Forall_app. split; [done|]. by constructor.
Qed.

Lemma draw_unchecked seq positions space newseq element k space' newseq' k' :
  draw rnd E false fuel seq positions space newseq element k
  = Ret (Some (space', newseq'), k') →
  ∃ drawn, newseq' = newseq ++ drawn
           ∧ length drawn = length positions
           ∧ space ≡ₚ drawn ++ space'
           ∧ (well_built E newseq element →
              Forall (fun p => excluded E p = false) (adjacent newseq')).
Proof.
  revert space newseq element k.
  induction positions as [|c positions IH]; intros space newseq element k; simpl.
  - intros [= <- <- <-]. exists []. rewrite app_nil_r. split; [done|].
    split; [done|]. split; [done|]. by intros [? _].
  - destruct (candidates E element space) as [|y l] eqn:Hcand; [done|].
    destruct (choice rnd (y :: l) k) as [[x k1]| |] eqn:Hc; simpl; [|done..].
    destruct (Py.remove space x) as [space1| |] eqn:Hr; simpl; [|done..].
    intros (drawn & -> & Hlen & Hperm & Hok)%IH.
    exists (x :: drawn). rewrite <- app_assoc. split; [done|].
    split; [simpl; lia|]. split.
    + rewrite (remove_perm _ _ _ Hr), Hperm. done.
    + intros Hwb. rewrite <- app_assoc in Hok. apply Hok.
      apply (well_built_snoc _ element); [done|].
      apply choice_elem in Hc as [Hx _]. rewrite <- Hcand in Hx.
      by apply candidates_elem in Hx as [_ ?].
Qed.

Lemma permute_sequence_unchecked space seq k space' newseq' k' :
  permute_sequence rnd E block_first false fuel space seq k
  = Ret (Some (space', newseq'), k') →
  ∃ drawn, newseq' = take (if block_first then 1 else 0) seq ++ drawn
           ∧ interior block_first false newseq' = drawn
           ∧ length drawn = length (interior block_first false seq)
           ∧ space ≡ₚ drawn ++ space'
           ∧ Forall (fun p => excluded E p = false) (adjacent newseq').
Proof.
  unfold permute_sequence. destruct block_first.
  - destruct seq as [|x seq']; [done|]. cbn [item_first mbind result_bind rbind].
    destruct (draw _ _ _ _ _ _ _ _ _ _) as [[[[sp ns]|] k1]| |] eqn:Hd;
      cbn [mbind result_bind rbind]; [|done..].
    intros [= <- <- <-].
    apply draw_unchecked in Hd as (drawn & -> & Hlen & Hperm & Hok).
    exists drawn. split; [done|]. split; [by rewrite interior_unchecked|].
    split; [done|]. split; [done|].
    apply Hok. split; [constructor|by right].
  - cbn [mbind result_bind rbind].
    destruct (draw _ _ _ _ _ _ _ _ _ _) as [[[[sp ns]|] k1]| |] eqn:Hd;
      cbn [mbind result_bind rbind]; [|done..].
    intros [= <- <- <-].
    apply draw_unchecked in Hd as (drawn & -> & Hlen & Hperm & Hok).
    exists drawn. split; [done|]. split; [by rewrite interior_unchecked|].
    split; [done|]. split; [done|].
    apply Hok. split; [constructor|by left].
Qed.

Lemma permute_all_unchecked seqs space acc k perm k' :
  permute_all rnd E block_first false fuel seqs space acc k = Ret (perm, k') →
  perm = [] ∨
  ∃ news space',
    perm = acc ++ news
    ∧ respects E news
    ∧ space ≡ₚ pool block_first false news ++ space'
    ∧ length (pool block_first false news)
      = length (pool block_first false seqs).
Proof.
  revert space acc k. induction seqs as [|seq seqs IH]; intros space acc k; simpl.
  - intros [= <- <-]. right. exists [], space. rewrite app_nil_r.
    split; [done|]. split; [constructor|]. done.
  - destruct (permute_sequence _ _ _ _ _ _ _ _) as [[[[sp ns]|] k1]| |] eqn:Hp;
      cbn [mbind result_bind rbind]; [| |done..].
    + apply permute_sequence_unchecked in Hp
        as (drawn & -> & Hint & Hlen & Hperm & Hok).
      intros [->|(news & space' & -> & Hres & Hperm' & Hlen')]%IH; [by left|].
      right. exists ((take (if block_first then 1 else 0) seq ++ drawn) :: news), space'.
      rewrite <- app_assoc. split; [done|]. split; [by constructor|].
      unfold pool in *. rewrite !fmap_cons. simpl concat.
      rewrite Hint, !length_app, <- app_assoc. split; [|lia].
      by rewrite Hperm, Hperm'.
    + intros [= <- <-]. by left.
Qed.

End Unchecked.

(** Without [block_last], no permuted sequence holds an excluded pair,
    whatever the exclusion map and the sequences. *)
Lemma strings_permutation_respects_exclusions rnd E block_first fuel space seqs
    k perm k' :
  strings_permutation rnd E block_first false fuel space seqs k = Ret (perm, k') →
  respects E perm.
Proof.
  intros [->|(news & space' & -> & Hres & _)]%permute_all_unchecked;
    [constructor|done].
Qed.

(** Without [block_last], a trial that is not abandoned hands out the tokens
    of the pool, each once: the interiors of the permuted sequences are a
    permutation of the interiors of the sequences. *)
Lemma strings_permutation_keeps_pool rnd E block_first fuel seqs k perm k' :
  strings_permutation rnd E block_first false fuel
    (pool block_first false seqs) seqs k = Ret (perm, k') →
  perm ≠ [] →
  pool block_first false perm ≡ₚ pool block_first false seqs.
Proof.
  intros [->|(news & space' & -> & _ & Hperm & Hlen)]%permute_all_unchecked Hne;
    [done|].
  simpl. pose proof (Permutation_length Hperm) as Hl.
  rewrite length_app in Hl.
  destruct space'; [|simpl in Hl; lia].
  by rewrite app_nil_r in Hperm.
Qed.

(** ** Self-exclusions *)

Lemma exclude_self_here E b : excluded (exclude_self E b) (b, b) = true.
Proof.
  unfold exclude_self, excluded. simpl.
  destruct (E !! b) as [l|] eqn:Hb.
  - rewrite Hb. simpl. destruct (decide (b ∈ l)) as [Hin|Hnin].
    + rewrite Hb. by apply bool_decide_eq_true_2.
    + rewrite lookup_insert_eq. apply bool_decide_eq_true_2.
      apply elem_of_app. right. apply list_elem_of_here.
  - rewrite lookup_insert_eq. simpl.
    rewrite lookup_insert_eq. apply bool_decide_eq_true_2. apply list_elem_of_here.
Qed.

Lemma exclude_self_keeps E b a :
  excluded E (a, a) = true → excluded (exclude_self E b) (a, a) = true.
Proof.
  destruct (decide (a = b)) as [->|Hne]; [intros _; apply exclude_self_here|].
  unfold exclude_self, excluded. simpl. intros Ha.
  destruct (E !! b) as [l|] eqn:Hb.
  - rewrite Hb. simpl. destruct (decide (b ∈ l)); [done|].
    by rewrite lookup_insert_ne.
  - rewrite lookup_insert_eq. simpl.
    by rewrite !lookup_insert_ne.
Qed.

Lemma no_repeat_self behaviours E b :
  b ∈ behaviours → excluded (no_repeat true behaviours E) (b, b) = true.
Proof.
  unfold no_repeat. revert E.
  induction behaviours as [|a behaviours IH]; intros E Hb;
    [by apply elem_of_nil in Hb|].
  simpl. apply elem_of_cons in Hb as [->|Hb]; [|by apply IH].
  generalize (exclude_self E a), (exclude_self_here E a). clear.
  induction behaviours as [|c behaviours IH]; intros E' Ha; [done|].
  simpl. by apply IH, exclude_self_keeps.
Qed.

(** With [no_repetition] and without [block_last], no permuted sequence
    holds a token of the alphabet twice in a row. *)
Lemma strings_permutation_no_repetition rnd behaviours E block_first fuel space
    seqs k perm k' newseq a b :
  strings_permutation rnd (no_repeat true behaviours E) block_first false fuel
    space seqs k = Ret (perm, k') →
  newseq ∈ perm → (a, b) ∈ adjacent newseq → a ∈ behaviours → a ≠ b.
Proof.
  intros Hres%strings_permutation_respects_exclusions Hnew Hab Ha ->.
  unfold respects in Hres. rewrite Forall_forall in Hres.
  specialize (Hres newseq Hnew). rewrite Forall_forall in Hres.
  specialize (Hres (b, b) Hab). by rewrite no_repeat_self in Hres.
Qed.

(** ** Blocked ends *)

Section Ends.

Variable rnd : nat -> nat.
Variable E : gmap string (list string).
Variables block_first block_last : bool.
Variable fuel : nat.

Lemma draw_appends seq positions space newseq element k space' newseq' k' :
  draw rnd E block_last fuel seq positions space newseq element k
  = Ret (Some (space', newseq'), k') →
  ∃ drawn, newseq' = newseq ++ drawn.
Proof.
  revert space newseq element k.
  induction positions as [|c positions IH]; intros space newseq element k; simpl.
  - intros [= <- <- <-]. exists []. by rewrite app_nil_r.
  - destruct (candidates E element space) as [|y l]; [done|].
    destruct (choice rnd (y :: l) k) as [[x k1]| |]; simpl; [|done..].
    destruct (Py.remove space x) as [space1| |]; simpl; [|done..].
    destruct (if block_last && _ then _ else _) as [[[x'|] k2]| |]; simpl; [| |done..].
    + intros [drawn ->]%IH. exists (x' :: drawn). by rewrite <- app_assoc.
    + done.
Qed.

Lemma permute_sequence_ends space seq k space' newseq' k' :
  permute_sequence rnd E block_first block_last fuel space seq k
  = Ret (Some (space', newseq'), k') →
  ends_kept block_first block_last seq newseq'.
Proof.
  unfold permute_sequence.
  destruct (if block_first then _ else _) as [[newseq element]| |] eqn:Hfirst;
    cbn [mbind result_bind rbind]; [|done..].
  destruct (draw _ _ _ _ _ _ _ _ _ _) as [[[[sp ns]|] k1]| |] eqn:Hd;
    cbn [mbind result_bind rbind]; [|done..].
  apply draw_appends in Hd as [drawn ->].
  assert (block_first = true → ∃ x, newseq = [x] ∧ head seq = Some x) as Hhead.
  { intros ->. destruct seq as [|x seq']; [done|].
    simpl in Hfirst. injection Hfirst as <- <-. by exists x. }
  destruct block_last.
  - destruct (item_last seq) as [t| |] eqn:Ht; cbn [mbind result_bind rbind]; [|done..].
    intros [= <- <- <-]. split.
    + intros Hbf. by destruct (Hhead Hbf) as (x & -> & ->).
    + intros _ c Hc. unfold item_last in Ht. rewrite Hc in Ht.
      injection Ht as <-. simpl. by rewrite last_snoc.
  - intros [= <- <- <-]. split; [|done].
    intros Hbf. by destruct (Hhead Hbf) as (x & -> & ->).
Qed.

Lemma permute_all_ends seqs space acc k perm k' :
  permute_all rnd E block_first block_last fuel seqs space acc k
  = Ret (perm, k') →
  perm = [] ∨
  ∃ news, perm = acc ++ news
          ∧ Forall2 (ends_kept block_first block_last) seqs news.
Proof.
  revert space acc k. induction seqs as [|seq seqs IH]; intros space acc k; simpl.
  - intros [= <- <-]. right. exists []. by rewrite app_nil_r.
  - destruct (permute_sequence _ _ _ _ _ _ _ _) as [[[[sp ns]|] k1]| |] eqn:Hp;
      cbn [mbind result_bind rbind]; [| |done..].
    + apply permute_sequence_ends in Hp.
      intros [->|(news & -> & Hall)]%IH; [by left|].
      right. exists (ns :: news). rewrite <- app_assoc. split; [done|].
      by constructor.
    + intros [= <- <-]. by left.
Qed.

End Ends.

(** In a trial that is not abandoned, each permuted sequence starts with the
    first token of its original under [block_first], and ends with the last
    token of its original under [block_last] when that token is one character
    long. *)
Lemma strings_permutation_ends rnd E block_first block_last fuel space seqs
    k perm k' :
  strings_permutation rnd E block_first block_last fuel space seqs k
  = Ret (perm, k') →
  perm ≠ [] →
  Forall2 (ends_kept block_first block_last) seqs perm.
Proof.
  intros [->|(news & -> & Hall)]%permute_all_ends Hne; done.
Qed.

(** ** The parser *)

Lemma for_each_invariant {A S} (I : S → Prop) (body : S → A → result S) l s s' :
  I s →
  (∀ s x s', x ∈ l → I s → body s x = Ret s' → I s') →
  for_each body l s = Ret s' → I s'.
Proof.
  revert s. induction l as [|x l IH]; intros s Hs Hbody; simpl.
  - by intros [= <-].
  - destruct (body s x) as [s1| |] eqn:Hx; simpl; [|done..].
    apply IH.
    + eapply Hbody; [apply list_elem_of_here|done..].
    + intros s2 y s3 Hy. apply Hbody. by apply list_elem_of_further.
Qed.

Lemma for_each_total {A S} (I : S → Prop) (body : S → A → result S) l s :
  I s →
  (∀ s x, x ∈ l → I s → ∃ s', body s x = Ret s' ∧ I s') →
  ∃ s', for_each body l s = Ret s' ∧ I s'.
Proof.
  revert s. induction l as [|x l IH]; intros s Hs Hbody; simpl; [eauto|].
  destruct (Hbody s x) as (s1 & -> & Hs1); [apply list_elem_of_here|done|].
  simpl. apply IH; [done|].
  intros s2 y Hy. apply Hbody. by apply list_elem_of_further.
Qed.

Lemma chars_one_char s : Forall one_char (Py.chars s).
Proof.
  induction s as [|c s IH]; simpl; constructor; [by exists c|done].
Qed.

Lemma chars_nonempty s : s ≠ EmptyString → Py.chars s ≠ [].
Proof. by destruct s. Qed.

Lemma split_go_nonempty sep skip cur s : Py.split_go sep skip cur s ≠ [].
Proof.
  revert skip cur. induction s as [|c s IH]; intros skip cur; [done|].
  cbn [Py.split_go]. destruct skip; [|apply IH].
  destruct (String.prefix sep (String c s)); [done|apply IH].
Qed.

Lemma slice_one_char r chunk : Forall one_char r → Forall one_char (Py.slice r 0 chunk).
Proof.
  intros H. unfold Py.slice. rewrite drop_0. by apply Forall_take.
Qed.

Lemma slice_nonempty {A} (r : list A) chunk :
  (0 < chunk)%Z → r ≠ [] → Py.slice r 0 chunk ≠ [].
Proof.
  intros Hc Hr. unfold Py.slice. rewrite drop_0.
  destruct (Z.ltb_spec chunk 0) as [?|_]; [lia|].
  destruct r as [|x r]; [done|].
  destruct (Z.to_nat chunk) as [|n] eqn:Hn; [lia|done].
Qed.

(** *** Rows without whitespace *)

Lemma all_chars_app p s1 s2 :
  Py.all_chars p (s1 +:+ s2) = Py.all_chars p s1 && Py.all_chars p s2.
Proof.
  induction s1 as [|c s1 IH]; [done|].
  change (String c s1 +:+ s2) with (String c (s1 +:+ s2)).
  simpl. by rewrite IH, andb_assoc.
Qed.

Lemma all_chars_rev_app p s1 s2 :
  Py.all_chars p (String.rev_app s1 s2) = Py.all_chars p s1 && Py.all_chars p s2.
Proof.
  revert s2. induction s1 as [|c s1 IH]; intros s2; [done|].
  simpl. rewrite IH. simpl. destruct (p c), (Py.all_chars p s1); done.
Qed.

Lemma length_rev_app s1 s2 :
  String.length (String.rev_app s1 s2) = String.length s1 + String.length s2.
Proof.
  revert s2. induction s1 as [|c s1 IH]; intros s2; [done|].
  simpl. rewrite IH. simpl. lia.
Qed.

Lemma lstrip_no_space s :
  Py.all_chars (fun c => negb (Py.isspace c)) s = true → Py.lstrip s = s.
Proof.
  destruct s as [|c s]; [done|]. simpl.
  destruct (Py.isspace c); [done|done].
Qed.

Lemma strip_no_space s :
  s ≠ EmptyString →
  Py.all_chars (fun c => negb (Py.isspace c)) s = true →
  Py.strip s ≠ EmptyString.
Proof.
  intros Hne Hs. unfold Py.strip, String.rev.
  rewrite (lstrip_no_space s) by done.
  rewrite lstrip_no_space by (by rewrite all_chars_rev_app, Hs).
  intros Hempty. apply (f_equal String.length) in Hempty.
  rewrite !length_rev_app in Hempty. destruct s; [done|]. simpl in Hempty. lia.
Qed.

Lemma split_ws_go_pieces cur s :
  Py.all_chars (fun c => negb (Py.isspace c)) cur = true →
  Forall (fun p => p ≠ EmptyString
                   ∧ Py.all_chars (fun c => negb (Py.isspace c)) p = true)
    (Py.split_ws_go cur s).
Proof.
  revert cur. induction s as [|c s IH]; intros cur Hcur; simpl.
  - destruct cur; [constructor|]. by repeat constructor.
  - destruct (Py.isspace c) eqn:Hc.
    + destruct cur; [by apply IH|]. constructor; [done|by apply IH].
    + apply IH. rewrite all_chars_app, Hcur. simpl. by rewrite Hc.
Qed.

Lemma split_ws_pieces s :
  Forall (fun p => p ≠ EmptyString
                   ∧ Py.all_chars (fun c => negb (Py.isspace c)) p = true)
    (Py.split_ws s).
Proof. by apply split_ws_go_pieces. Qed.

(** *** Keys of [d] *)

Lemma split_pair_key a b :
  Py.split (String a EmptyString +:+ SEPARATOR +:+ String b EmptyString) SEPARATOR
  = [String a EmptyString; String b EmptyString].
Proof.
  lazy -[ascii_dec].
  destruct (ascii_dec "@" a) as [<-|Ha]; lazy -[ascii_dec];
    destruct (ascii_dec "@" b) as [<-|Hb]; reflexivity.
Qed.

Lemma count_up_keys (P : string → Prop) k m :
  P k → map_Forall (fun k _ => P k) m → map_Forall (fun k _ => P k) (count_up k m).
Proof.
  intros Hk Hm. unfold count_up.
  destruct (m !! k); by apply map_Forall_insert_2.
Qed.

Lemma scan_pairs_keys pairs acc :
  Forall (fun p : string * string => one_char p.1 ∧ one_char p.2) pairs →
  map_Forall (fun k _ => pair_key k) acc.2 →
  map_Forall (fun k _ => pair_key k) (foldl scan_pair acc pairs).2.
Proof.
  revert acc. induction pairs as [|[x y] pairs IH]; intros [[i sn] d0] Hp Hd; [done|].
  apply Forall_cons in Hp as [[[a Ha] [b Hb]] Hp]. simpl in Ha, Hb. subst x y.
  simpl. apply IH; [done|].
  simpl. apply count_up_keys; [|done]. by exists a, b.
Qed.

Lemma adjacent_Forall {A} (P : A → Prop) (seq : list A) :
  Forall P seq → Forall (fun p => P p.1 ∧ P p.2) (adjacent seq).
Proof.
  intros H. apply Forall_forall. intros [a b] [Ha Hb]%adjacent_elem.
  rewrite Forall_forall in H. split; by apply H.
Qed.

Lemma scan_nodes_total line_count r acc :
  Forall one_char r →
  ∃ acc', for_each (scan_node true line_count) r acc = Ret acc'.
Proof.
  intros Hr.
  destruct (for_each_total (fun _ => True) (scan_node true line_count) r acc)
    as (acc' & H & _); [done| |eauto].
  intros [na nodes] x Hx _. rewrite Forall_forall in Hr.
  destruct (Hr x Hx) as [c ->]. unfold scan_node.
  destruct (true && negb (Py.isalnum (String c ""))); simpl; eauto.
Qed.

(** *** One row *)

Lemma parse_row_single_total chunk sep st row :
  map_Forall (fun k _ => pair_key k) (st_d st) →
  ∃ st', parse_row true chunk sep st row = Ret st'
         ∧ map_Forall (fun k _ => pair_key k) (st_d st').
Proof.
  intros Hd. unfold parse_row. destruct row as [|c row]; [eauto|].
  set (r := if (chunk =? 0)%Z then _ else _).
  assert (Forall one_char r) as Hr.
  { subst r. destruct (chunk =? 0)%Z; [|apply slice_one_char]; apply chars_one_char. }
  destruct (scan_nodes_total (st_line_count st + 1) r (st_not_alnum st, st_nodes st) Hr)
    as [[na nodes] ->].
  cbn [mbind result_bind rbind].
  pose proof (scan_pairs_keys (adjacent r) (0, st_starting_nodes st, st_d st)
                (adjacent_Forall _ _ Hr) Hd) as Hkeys.
  destruct (foldl scan_pair (0, st_starting_nodes st, st_d st) (adjacent r))
    as [[i sn] d']. eauto.
Qed.

Lemma parse_row_sequences flagOne chunk sep st row st' :
  parse_row flagOne chunk sep st row = Ret st' →
  st_sequences st' = st_sequences st
  ∨ ∃ r, st_sequences st' = st_sequences st ++ [r]
         ∧ r = (if (chunk =? 0)%Z
                then (if flagOne then Py.chars (Py.strip row)
                      else Py.split (Py.strip row) sep)
                else Py.slice (if flagOne then Py.chars (Py.strip row)
                               else Py.split (Py.strip row) sep) 0 chunk).
Proof.
  unfold parse_row. destruct row as [|c row]; [intros [= <-]; by left|].
  set (r := if (chunk =? 0)%Z then _ else _).
  destruct (for_each _ r _) as [[na nodes]| |]; cbn [mbind result_bind rbind];
    [|done..].
  destruct (foldl scan_pair _ _) as [[i sn] d'].
  intros [= <-]. right. exists r. split; [done|]. subst r.
  destruct (chunk =? 0)%Z; done.
Qed.

Lemma parse_row_nonempty flagOne chunk sep st row st' :
  (0 ≤ chunk)%Z →
  (flagOne = true → Py.strip row ≠ EmptyString) →
  Forall (fun seq => seq ≠ []) (st_sequences st) →
  parse_row flagOne chunk sep st row = Ret st' →
  Forall (fun seq => seq ≠ []) (st_sequences st').
Proof.
  intros Hc Hrow Hst [->|(r & -> & Hr)]%parse_row_sequences; [done|].
  apply Forall_app. split; [done|]. constructor; [|constructor].
  assert ((if flagOne then Py.chars (Py.strip row)
           else Py.split (Py.strip row) sep) ≠ []) as Hne.
  { destruct flagOne; [by apply chars_nonempty, Hrow|apply split_go_nonempty]. }
  subst r. destruct (Z.eqb_spec chunk 0) as [_|?]; [done|].
  apply slice_nonempty; [lia|done].
Qed.

(** *** The whole text *)

(** In single-character mode the parser returns, with status 0, whatever
    the text holds. *)
Lemma behav_strings_stats_single_total text chunk :
  ∃ s, behav_strings_stats text chunk "" = Ret s ∧ return_code s = 0.
Proof.
  unfold behav_strings_stats, parse_rows.
  destruct (for_each_total (fun st => map_Forall (fun k _ => pair_key k) (st_d st))
              (parse_row true chunk "")
              (Py.split_ws (Py.replace (remove_comments text) " " ""))
              parse_init) as (st & -> & Hkeys).
  { apply map_Forall_empty. }
  { intros st row _ Hd. by apply parse_row_single_total. }
  cbn [mbind result_bind rbind].
  destruct (for_each_total (fun _ => True) after_node (map_to_list (st_d st)) ∅)
    as (after & -> & _); [done| |].
  { intros acc [key n] Hkey%elem_of_map_to_list _.
    destruct (Hkeys key n Hkey) as (a & b & ->).
    unfold after_node. cbn [fst snd]. rewrite split_pair_key. eauto. }
  cbn [mbind result_bind rbind]. eauto.
Qed.

(** Every token of the sequences is in the alphabet. *)
Lemma behav_strings_stats_alphabet text chunk sep s seq x :
  behav_strings_stats text chunk sep = Ret s →
  seq ∈ sequences s → x ∈ seq → x ∈ behaviours s.
Proof.
  intros Hs Hseq Hx. rewrite (stats_behaviours _ _ _ _ Hs).
  apply sort_elem, unique_behaviours_elem. by exists seq.
Qed.

(** For [chunk >= 0] the parser emits no empty sequence. *)
Lemma behav_strings_stats_nonempty text chunk sep s :
  (0 ≤ chunk)%Z →
  behav_strings_stats text chunk sep = Ret s →
  Forall (fun seq => seq ≠ []) (sequences s).
Proof.
  intros Hc. unfold behav_strings_stats.
  destruct (parse_rows text chunk sep) as [st| |] eqn:Hst;
    cbn [mbind result_bind rbind]; [|done..].
  destruct (for_each after_node _ _); cbn [mbind result_bind rbind]; [|done..].
  intros [= <-]. simpl. revert Hst. unfold parse_rows.
  apply (for_each_invariant (fun st => Forall (fun seq => seq ≠ []) (st_sequences st)));
    [constructor|].
  intros st0 row st1 Hrow Hst0. apply parse_row_nonempty; [done| |done].
  destruct sep; [|done]. intros _.
  pose proof (split_ws_pieces (Py.replace (remove_comments text) " " "")) as Hp.
  rewrite Forall_forall in Hp. destruct (Hp row Hrow) as [Hne Hns].
  by apply strip_no_space.
Qed.

(** The observed matrix of any parsed text, for [chunk >= 0], sums to the
    number of adjacent pairs of its sequences. *)
Lemma observed_matrix_sum_parsed text chunk sep s :
  (0 ≤ chunk)%Z →
  behav_strings_stats text chunk sep = Ret s →
  Z.of_nat (matrix_sum
              (create_observed_transition_matrix (sequences s) (behaviours s)))
  = sum_Z ((fun seq => Z.of_nat (length seq) - 1)%Z <$> sequences s).
Proof.
  intros Hc Hs. rewrite observed_matrix_pairs.
  - apply pairs_total. by eapply behav_strings_stats_nonempty.
  - intros seq x. by eapply behav_strings_stats_alphabet.
Qed.

(** * Further properties

    ** The generator without [block_last]: draws, lengths, termination *)

Lemma choice_total rnd (l : list string) k :
  l ≠ [] → ∃ x, choice rnd l k = Ret (x, S k) ∧ x ∈ l.
Proof.
  intros Hl. unfold choice.
  destruct (lookup_lt_is_Some_2 l (rnd k mod length l)) as [x Hx].
  { apply Nat.mod_upper_bound. by destruct l. }
  rewrite Hx. exists x. split; [done|]. by eapply list_elem_of_lookup_2.
Qed.

Lemma remove_total l x : x ∈ l → ∃ l', Py.remove l x = Ret l'.
Proof.
  induction l as [|y l IH]; intros Hx; [by apply elem_of_nil in Hx|].
  simpl. destruct (decide (y = x)) as [->|Hne]; [eauto|].
  apply elem_of_cons in Hx as [->|Hx]; [done|].
  destruct (IH Hx) as [l' ->]. simpl. eauto.
Qed.

Section UncheckedRun.

Variable rnd : nat -> nat.
Variable E : gmap string (list string).
Variable fuel : nat.

Lemma draw_total seq positions space newseq element k :
  ∃ r k', draw rnd E false fuel seq positions space newseq element k = Ret (r, k')
          ∧ k ≤ k' ≤ k + length positions
          ∧ (is_Some r → k' = k + length positions).
Proof.
  revert space newseq element k.
  induction positions as [|c positions IH]; intros space newseq element k; simpl.
  - exists (Some (space, newseq)), k. split; [done|]. split; [lia|]. intros _. lia.
  - destruct (candidates E element space) as [|y l] eqn:Hcand.
    { exists None, k. split; [done|]. split; [lia|]. by intros [? ?]. }
    destruct (choice_total rnd (y :: l) k) as (x & -> & Hx); [done|].
    cbn [mbind result_bind rbind].
    rewrite <- Hcand in Hx. apply candidates_elem in Hx as [Hx _].
    destruct (remove_total _ _ Hx) as [space' ->].
    cbn [mbind result_bind rbind].
    destruct (IH space' (newseq ++ [x]) x (S k)) as (r & k' & -> & Hk & Hsome).
    exists r, k'. split; [done|]. split; [lia|]. intros Hr.
    rewrite (Hsome Hr). lia.
Qed.

Lemma permute_sequence_total block_first space seq k :
  (block_first = true → seq ≠ []) →
  ∃ r k', permute_sequence rnd E block_first false fuel space seq k = Ret (r, k')
          ∧ k ≤ k' ≤ k + length (interior block_first false seq)
          ∧ (is_Some r → k' = k + length (interior block_first false seq)).
Proof.
  intros Hne. unfold permute_sequence.
  assert (∃ newseq element,
            (if block_first then x ← item_first seq; Ret ([x], x)
             else Ret ([], EmptyString)) = Ret (newseq, element)) as (ns & el & ->).
  { destruct block_first; [|eauto]. destruct seq as [|x seq]; [by destruct Hne|].
    simpl. eauto. }
  cbn [mbind result_bind rbind].
  destruct (draw_total seq (interior block_first false seq) space ns el k)
    as (r & k' & -> & Hk & Hsome).
  cbn [mbind result_bind rbind]. destruct r as [[sp newseq]|]; eauto.
Qed.

Lemma permute_all_total block_first seqs space acc k :
  (block_first = true → Forall (fun seq => seq ≠ []) seqs) →
  ∃ perm k', permute_all rnd E block_first false fuel seqs space acc k
             = Ret (perm, k')
             ∧ k ≤ k' ≤ k + length (pool block_first false seqs).
Proof.
  revert space acc k. induction seqs as [|seq seqs IH]; intros space acc k Hne; simpl.
  - exists acc, k. split; [done|]. lia.
  - destruct (permute_sequence_total block_first space seq k)
      as (r & k1 & -> & Hk & _).
    { intros Hbf. specialize (Hne Hbf). by apply Forall_cons in Hne as [? _]. }
    cbn [mbind result_bind rbind]. unfold pool. rewrite fmap_cons. simpl concat.
    rewrite length_app. destruct r as [[sp newseq]|].
    + destruct (IH sp (acc ++ [newseq]) k1) as (perm & k' & -> & Hk').
      { intros Hbf. specialize (Hne Hbf). by apply Forall_cons in Hne as [_ ?]. }
      exists perm, k'. split; [done|]. unfold pool in Hk'. lia.
    + exists [], k1. split; [done|]. lia.
Qed.

Lemma permute_sequence_length block_first space seq k space' newseq k' :
  permute_sequence rnd E block_first false fuel space seq k
  = Ret (Some (space', newseq), k') →
  length newseq = length seq
  ∧ k' = k + length (interior block_first false seq).
Proof.
  intros H.
  assert (block_first = true → seq ≠ []) as Hne.
  { intros -> ->. by unfold permute_sequence in H. }
  destruct (permute_sequence_total block_first space seq k Hne)
    as (r & k1 & Hr & _ & Hsome).
  rewrite H in Hr. injection Hr as <- <-. split; [|by apply Hsome].
  apply permute_sequence_unchecked in H as (drawn & -> & _ & Hlen & _).
  rewrite length_app, Hlen, interior_unchecked, length_drop, length_take.
  destruct block_first; [|simpl; lia].
  destruct seq; [by destruct Hne|]. simpl. lia.
Qed.

Lemma permute_all_lengths block_first seqs space acc k perm k' :
  permute_all rnd E block_first false fuel seqs space acc k = Ret (perm, k') →
  perm = [] ∨
  ∃ news, perm = acc ++ news
          ∧ Forall2 (fun seq newseq => length newseq = length seq) seqs news
          ∧ k' = k + length (pool block_first false seqs).
Proof.
  revert space acc k. induction seqs as [|seq seqs IH]; intros space acc k; simpl.
  - intros [= <- <-]. right. exists []. rewrite app_nil_r.
    split; [done|]. split; [constructor|]. unfold pool. simpl. lia.
  - destruct (permute_sequence _ _ _ _ _ _ _ _) as [[[[sp ns]|] k1]| |] eqn:Hp;
      cbn [mbind result_bind rbind]; [| |done..].
    + apply permute_sequence_length in Hp as [Hlen Hk].
      intros [->|(news & -> & Hall & Hk')]%IH; [by left|].
      right. exists (ns :: news). rewrite <- app_assoc. split; [done|].
      split; [by constructor|].
      unfold pool in *. rewrite fmap_cons. simpl concat. rewrite length_app. lia.
    + intros [= <- <-]. by left.
Qed.

End UncheckedRun.

(** ** The generator: what holds of every trial *)

(** X1.  Without [block_last], whatever the exclusion map, the pool and the
    sequences, no sequence returned by [strings_permutation] holds a pair of
    neighbours [(a, b)] with [b] in the entry of [a]. *)
Theorem generator_respects_exclusions (rnd : nat -> nat)
    (E : gmap string (list string)) (block_first : bool) (fuel : nat)
    (space : list string) (seqs : list (list string)) (k : nat)
    (perm : list (list string)) (k' : nat) :
  strings_permutation rnd E block_first false fuel space seqs k = Ret (perm, k') →
  ∀ newseq a b l,
    newseq ∈ perm → (a, b) ∈ adjacent newseq → E !! a = Some l → b ∉ l.
Proof.
  intros Hres%strings_permutation_respects_exclusions newseq a b l Hnew Hab Hl Hb.
  unfold respects in Hres. rewrite Forall_forall in Hres.
  specialize (Hres newseq Hnew). rewrite Forall_forall in Hres.
  specialize (Hres (a, b) Hab). unfold excluded in Hres. simpl in Hres.
  rewrite Hl in Hres. by apply bool_decide_eq_false in Hres.
Qed.

Lemma generator_respects_exclusions_witness :
  strings_permutation (fun k => k) {[ "a" := ["b"] ]} true false 3
    (pool true false [["a"; "c"; "b"]; ["b"; "a"]])
    [["a"; "c"; "b"]; ["b"; "a"]] 0
  = Ret ([["a"; "c"; "a"]; ["b"; "b"]], 3)
  ∧ ∀ newseq a b l,
      newseq ∈ [["a"; "c"; "a"]; ["b"; "b"]] → (a, b) ∈ adjacent newseq →
      ({[ "a" := ["b"] ]} : gmap string (list string)) !! a = Some l → b ∉ l.
Proof.
  assert (strings_permutation (fun k => k) {[ "a" := ["b"] ]} true false 3
            (pool true false [["a"; "c"; "b"]; ["b"; "a"]])
            [["a"; "c"; "b"]; ["b"; "a"]] 0
          = Ret ([["a"; "c"; "a"]; ["b"; "b"]], 3)) as Hrun
    by (vm_compute; reflexivity).
  split; [exact Hrun|].
  exact (generator_respects_exclusions _ _ _ _ _ _ _ _ _ Hrun).
Defined.

(** X2.  With the self-exclusions of [no_repetition] and without
    [block_last], no sequence returned by [strings_permutation] holds a
    token of the alphabet twice in a row. *)
Theorem generator_no_repetition (rnd : nat -> nat) (behaviours : list string)
    (E : gmap string (list string)) (block_first : bool) (fuel : nat)
    (space : list string) (seqs : list (list string)) (k : nat)
    (perm : list (list string)) (k' : nat) :
  strings_permutation rnd (no_repeat true behaviours E) block_first false fuel
    space seqs k = Ret (perm, k') →
  ∀ newseq a, newseq ∈ perm → a ∈ behaviours → (a, a) ∉ adjacent newseq.
Proof.
  intros Hrun newseq a Hnew Ha Hpair.
  by apply (strings_permutation_no_repetition _ _ _ _ _ _ _ _ _ _ _ _ _
              Hrun Hnew Hpair Ha).
Qed.

Lemma generator_no_repetition_witness :
  strings_permutation (fun k => k) (no_repeat true ["a"; "b"] ∅) false false 3
    (pool false false [["a"; "b"; "a"]]) [["a"; "b"; "a"]] 0
  = Ret ([["a"; "b"; "a"]], 3)
  ∧ ∀ newseq a, newseq ∈ [["a"; "b"; "a"]] → a ∈ ["a"; "b"] →
                (a, a) ∉ adjacent newseq.
Proof.
  assert (strings_permutation (fun k => k) (no_repeat true ["a"; "b"] ∅)
            false false 3
            (pool false false [["a"; "b"; "a"]]) [["a"; "b"; "a"]] 0
          = Ret ([["a"; "b"; "a"]], 3)) as Hrun by (vm_compute; reflexivity).
  split; [exact Hrun|].
  exact (generator_no_repetition _ _ _ _ _ _ _ _ _ _ Hrun).
Defined.

(** X3.  Without [block_last], a trial of [strings_permutation] on the pool
    of the sequences that is not abandoned returns one sequence per input
    sequence, each as long as its original; the interiors of the result are
    a permutation of the pool; and the trial makes one draw per token of the
    pool. *)
Theorem generator_keeps_pool (rnd : nat -> nat)
    (E : gmap string (list string)) (block_first : bool) (fuel : nat)
    (seqs : list (list string)) (k : nat)
    (perm : list (list string)) (k' : nat) :
  strings_permutation rnd E block_first false fuel
    (pool block_first false seqs) seqs k = Ret (perm, k') →
  perm ≠ [] →
  Forall2 (fun seq newseq => length newseq = length seq) seqs perm
  ∧ pool block_first false perm ≡ₚ pool block_first false seqs
  ∧ k' = k + length (pool block_first false seqs).
Proof.
  intros Hrun Hne.
  pose proof (strings_permutation_keeps_pool _ _ _ _ _ _ _ _ Hrun Hne) as Hperm.
  apply permute_all_lengths in Hrun as [->|(news & -> & Hall & Hk)]; [done|].
  done.
Qed.

Lemma generator_keeps_pool_witness :
  strings_permutation (fun k => k) {[ "a" := ["b"] ]} true false 3
    (pool true false [["a"; "c"; "b"]; ["b"; "a"]])
    [["a"; "c"; "b"]; ["b"; "a"]] 0
  = Ret ([["a"; "c"; "a"]; ["b"; "b"]], 3)
  ∧ Forall2 (fun seq newseq : list string => length newseq = length seq)
      [["a"; "c"; "b"]; ["b"; "a"]] [["a"; "c"; "a"]; ["b"; "b"]]
  ∧ pool true false [["a"; "c"; "a"]; ["b"; "b"]]
    ≡ₚ pool true false [["a"; "c"; "b"]; ["b"; "a"]]
  ∧ 3 = 0 + length (pool true false [["a"; "c"; "b"]; ["b"; "a"]]).
Proof.
  assert (strings_permutation (fun k => k) {[ "a" := ["b"] ]} true false 3
            (pool true false [["a"; "c"; "b"]; ["b"; "a"]])
            [["a"; "c"; "b"]; ["b"; "a"]] 0
          = Ret ([["a"; "c"; "a"]; ["b"; "b"]], 3)) as Hrun
    by (vm_compute; reflexivity).
  split; [exact Hrun|].
  apply (generator_keeps_pool _ _ _ _ _ _ _ _ Hrun). discriminate.
Defined.

(** X4.  In a trial of [strings_permutation] that is not abandoned, with any
    setting of the two flags, the result has one sequence per input
    sequence; under [block_first] each starts with the first token of its
    original, and under [block_last] each ends with the last token of its
    original when that token is one character long. *)
Theorem generator_keeps_ends (rnd : nat -> nat)
    (E : gmap string (list string)) (block_first block_last : bool)
    (fuel : nat) (space : list string) (seqs : list (list string)) (k : nat)
    (perm : list (list string)) (k' : nat) :
  strings_permutation rnd E block_first block_last fuel space seqs k
  = Ret (perm, k') →
  perm ≠ [] →
  length perm = length seqs
  ∧ ∀ i seq newseq, seqs !! i = Some seq → perm !! i = Some newseq →
      (block_first = true → head newseq = head seq)
      ∧ (block_last = true →
         ∀ c, last seq = Some (String c EmptyString) →
              last newseq = Some (String c EmptyString)).
Proof.
  intros Hrun Hne.
  pose proof (strings_permutation_ends _ _ _ _ _ _ _ _ _ _ Hrun Hne) as Hall.
  split; [symmetry; by eapply Forall2_length|].
  intros i seq newseq Hs Hn.
  destruct (Forall2_lookup_lr _ _ _ _ _ _ Hall Hs Hn) as [Hfirst Hlast].
  split; [done|]. intros Hbl c Hc. by rewrite (Hlast Hbl c Hc).
Qed.

Lemma generator_keeps_ends_witness :
  strings_permutation (fun k => k) (no_repeat true ["a"; "b"] ∅) true true 3
    (pool true true [["a"; "b"; "a"; "b"]]) [["a"; "b"; "a"; "b"]] 0
  = Ret ([["a"; "b"; "a"; "b"]], 2)
  ∧ length [["a"; "b"; "a"; "b"]] = length [["a"; "b"; "a"; "b"]]
  ∧ ∀ i seq newseq,
      [["a"; "b"; "a"; "b"]] !! i = Some seq →
      [["a"; "b"; "a"; "b"]] !! i = Some newseq →
      (true = true → head newseq = head seq)
      ∧ (true = true →
         ∀ c, last seq = Some (String c EmptyString) →
              last newseq = Some (String c EmptyString)).
Proof.
  assert (strings_permutation (fun k => k) (no_repeat true ["a"; "b"] ∅)
            true true 3
            (pool true true [["a"; "b"; "a"; "b"]]) [["a"; "b"; "a"; "b"]] 0
          = Ret ([["a"; "b"; "a"; "b"]], 2)) as Hrun by (vm_compute; reflexivity).
  split; [exact Hrun|].
  apply (generator_keeps_ends _ _ _ _ _ _ _ _ _ _ Hrun). discriminate.
Defined.

(** X5.  Without [block_last], [strings_permutation] always returns: it
    never raises and none of its loops needs more than the positions to
    fill, whatever the random draws, provided that under [block_first] no
    sequence is empty.  It makes at most one draw per token of the pool of
    the sequences. *)
Theorem generator_terminates (rnd : nat -> nat)
    (E : gmap string (list string)) (block_first : bool) (fuel : nat)
    (space : list string) (seqs : list (list string)) (k : nat) :
  (block_first = true → Forall (fun seq => seq ≠ []) seqs) →
  ∃ perm k',
    strings_permutation rnd E block_first false fuel space seqs k
    = Ret (perm, k')
    ∧ k ≤ k' ≤ k + length (pool block_first false seqs).
Proof. intros Hne. by apply permute_all_total. Qed.

Lemma generator_terminates_witness :
  ∃ perm k',
    strings_permutation (fun k => 2 * k) {[ "a" := ["b"; "c"] ]} true false 0
      ["c"; "b"] [["a"; "b"; "c"]] 5
    = Ret (perm, k')
    ∧ 5 ≤ k' ≤ 5 + length (pool true false [["a"; "b"; "c"]]).
Proof.
  apply (generator_terminates (fun k => 2 * k) {[ "a" := ["b"; "c"] ]} true 0
           ["c"; "b"] [["a"; "b"; "c"]] 5).
  intros _. repeat constructor. discriminate.
Defined.

(** ** The loop on the penultimate token *)

Lemma without_absent (x : string) l : x ∉ l → without x l = l.
Proof.
  intros Hx. unfold without. apply filter_all.
  apply Forall_forall. intros y Hy ->. done.
Qed.

Lemma without_if (x : string) l :
  (if decide (x ∈ l) then without x l else l) = without x l.
Proof. destruct (decide (x ∈ l)); [done|]. by rewrite without_absent. Qed.

Lemma draw_plain rnd E bl fuel seq c ps space newseq element k x k' space' :
  choice rnd (candidates E element space) k = Ret (x, k') →
  Py.remove space x = Ret space' →
  Z.of_nat (length newseq) ≠ (Z.of_nat (length seq) - 2)%Z →
  draw rnd E bl fuel seq (c :: ps) space newseq element k
  = draw rnd E bl fuel seq ps space' (newseq ++ [x]) x k'.
Proof.
  intros Hc Hr Hlen. simpl.
  destruct (candidates E element space) as [|y l]; [done|].
  rewrite Hc. cbn [mbind result_bind rbind]. rewrite Hr.
  cbn [mbind result_bind rbind].
  rewrite bool_decide_eq_false_2 by done. by rewrite andb_false_r.
Qed.

Lemma draw_stuck rnd E fuel seq c ps space newseq element k x k' space' :
  choice rnd (candidates E element space) k = Ret (x, k') →
  Py.remove space x = Ret space' →
  Z.of_nat (length newseq) = (Z.of_nat (length seq) - 2)%Z →
  redraw rnd E fuel seq space' element x (candidates E element space) k'
  = OutOfFuel →
  draw rnd E true fuel seq (c :: ps) space newseq element k = OutOfFuel.
Proof.
  intros Hc Hr Hlen Hloop. simpl.
  destruct (candidates E element space) as [|y l]; [done|].
  rewrite Hc. cbn [mbind result_bind rbind]. rewrite Hr.
  cbn [mbind result_bind rbind].
  rewrite bool_decide_eq_true_2 by done. simpl. by rewrite Hloop.
Qed.

(** X6.  The [while] loop that checks the penultimate token against the
    blocked last one does not end when the token in hand, every token it can
    draw first and every token of the pool it draws from afterwards ([space]
    less the previous token and the last token) are all excluded before the
    last token, and neither pool is empty: the loop removes nothing from
    [space], so the same tokens are offered for ever. *)
Theorem redraw_loops_forever (rnd : nat -> nat)
    (E : gmap string (list string)) (seq space : list string)
    (element new_element t : string) (lspazio2 : list string) :
  last seq = Some t →
  lspazio2 ≠ [] →
  without t (without element space) ≠ [] →
  (∀ x, x = new_element ∨ x ∈ lspazio2 ∨ x ∈ without t (without element space) →
        ∃ l, E !! x = Some l ∧ t ∈ l) →
  ∀ fuel k, redraw rnd E fuel seq space element new_element lspazio2 k
            = OutOfFuel.
Proof.
  intros Ht Hl Hpool Hbad fuel. revert new_element lspazio2 Hl Hbad.
  induction fuel as [|fuel IH]; intros new_element lspazio2 Hl Hbad k.
  - simpl. unfold tail_excluded, item_last.
    destruct (Hbad new_element) as (l & -> & Hin); [by left|].
    rewrite Ht. cbn [mbind result_bind rbind].
    by rewrite bool_decide_eq_true_2.
  - simpl. unfold tail_excluded, item_last.
    destruct (Hbad new_element) as (l & -> & Hin); [by left|].
    rewrite Ht. cbn [mbind result_bind rbind].
    rewrite bool_decide_eq_true_2 by done.
    destruct lspazio2 as [|y l2]; [done|].
    destruct (choice_total rnd (y :: l2) k) as (x & -> & Hx); [done|].
    cbn [mbind result_bind rbind]. rewrite !without_if.
    apply IH; [done|].
    intros x' [->|[Hx'|Hx']]; apply Hbad; auto.
Qed.

Lemma redraw_loops_forever_witness :
  last ["p"; "y"; "z"; "l"] = Some "l"
  ∧ (∀ fuel k, redraw (fun k => k) {[ "y" := ["l"] ]} fuel ["p"; "y"; "z"; "l"]
                 ["y"; "y"] "z" "y" ["y"; "y"; "y"] k
               = OutOfFuel)
  ∧ ∀ fuel,
      strings_permutation (fun k => k) {[ "y" := ["l"] ]} false true fuel
        (pool false true [["p"; "y"; "z"; "l"]; ["y"; "y"; "m"]])
        [["p"; "y"; "z"; "l"]; ["y"; "y"; "m"]] 0
      = OutOfFuel.
Proof.
  assert (∀ fuel k, redraw (fun k => k) {[ "y" := ["l"] ]} fuel
                      ["p"; "y"; "z"; "l"] ["y"; "y"] "z" "y" ["y"; "y"; "y"] k
                    = OutOfFuel) as Hloop.
  { apply (redraw_loops_forever (fun k => k) {[ "y" := ["l"] ]}
             ["p"; "y"; "z"; "l"] ["y"; "y"] "z" "y" "l" ["y"; "y"; "y"]).
    - reflexivity.
    - discriminate.
    - discriminate.
    - intros x Hx. exists ["l"].
      assert (x = "y") as ->.
      { destruct Hx as [->|[Hx|Hx]]; [done| |].
        - repeat (apply elem_of_cons in Hx as [->|Hx]; [done|]).
          by apply elem_of_nil in Hx.
        - change (without "l" (without "z" ["y"; "y"])) with ["y"; "y"] in Hx.
          repeat (apply elem_of_cons in Hx as [->|Hx]; [done|]).
          by apply elem_of_nil in Hx. }
      split; [reflexivity|apply list_elem_of_here]. }
  split; [reflexivity|]. split; [exact Hloop|].
  intros fuel. unfold strings_permutation, permute_all, permute_sequence.
  change (pool false true [["p"; "y"; "z"; "l"]; ["y"; "y"; "m"]])
    with ["p"; "y"; "z"; "y"; "y"].
  change (interior false true ["p"; "y"; "z"; "l"]) with ["p"; "y"; "z"].
  assert (draw (fun k => k) {[ "y" := ["l"] ]} true fuel ["p"; "y"; "z"; "l"]
            ["p"; "y"; "z"] ["p"; "y"; "z"; "y"; "y"] [] "" 0 = OutOfFuel)
    as Hdraw.
  { rewrite (draw_plain _ _ _ _ _ _ _ _ _ _ _ "p" 1 ["y"; "z"; "y"; "y"]);
      [|reflexivity|reflexivity|simpl; lia].
    rewrite (draw_plain _ _ _ _ _ _ _ _ _ _ _ "z" 2 ["y"; "y"; "y"]);
      [|vm_compute; reflexivity|reflexivity|simpl; lia].
    apply (draw_stuck _ _ _ _ _ _ _ _ _ _ "y" 3 ["y"; "y"]);
      [vm_compute; reflexivity|reflexivity|simpl; lia|].
    change (candidates {[ "y" := ["l"] ]} "z" ["y"; "y"; "y"])
      with ["y"; "y"; "y"].
    apply Hloop. }
  cbn [mbind result_bind rbind]. by rewrite Hdraw.
Defined.

(** ** The driver: self-exclusions and the exit of the loop *)

Lemma exclude_self_excluded E c a b :
  excluded (exclude_self E c) (a, b) = true
  ↔ excluded E (a, b) = true ∨ (a = c ∧ b = c).
Proof.
  unfold exclude_self, excluded. simpl.
  destruct (decide (a = c)) as [->|Hne].
  - destruct (E !! c) as [l|] eqn:Hc.
    + rewrite Hc. simpl. destruct (decide (c ∈ l)) as [Hin|Hnin].
      * rewrite Hc, !bool_decide_eq_true. split; [tauto|].
        intros [?|[_ ->]]; done.
      * rewrite lookup_insert_eq, !bool_decide_eq_true, elem_of_app,
          list_elem_of_singleton. split; [|tauto].
        intros [?|?]; [by left|by right].
    + rewrite lookup_insert_eq. simpl. rewrite lookup_insert_eq.
      rewrite bool_decide_eq_true, list_elem_of_singleton. split; [by right|].
      intros [?|[_ ?]]; done.
  - destruct (E !! c) as [l|] eqn:Hc.
    + rewrite Hc. simpl. destruct (decide (c ∈ l)).
      * split; [by left|]. intros [?|[? _]]; done.
      * rewrite lookup_insert_ne by done. split; [by left|].
        intros [?|[? _]]; done.
    + rewrite lookup_insert_eq. simpl. rewrite !lookup_insert_ne by done.
      split; [by left|]. intros [?|[? _]]; done.
Qed.

(** X7.  The [no_repetition] step of [permutations_test] adds to the
    exclusion map the pairs [(a, a)] for the tokens [a] of the alphabet, and
    nothing else: every exclusion given stays, and no other pair becomes
    excluded. *)
Theorem no_repetition_exclusions (no_repetition : bool)
    (behaviours : list string) (E : gmap string (list string)) (a b : string) :
  excluded (no_repeat no_repetition behaviours E) (a, b) = true
  ↔ excluded E (a, b) = true
    ∨ (no_repetition = true ∧ a = b ∧ a ∈ behaviours).
Proof.
  unfold no_repeat. destruct no_repetition.
  - revert E. induction behaviours as [|c behaviours IH]; intros E; simpl.
    + split; [by left|]. intros [?|(_ & _ & H)]; [done|].
      by apply elem_of_nil in H.
    + rewrite IH, exclude_self_excluded, elem_of_cons. split.
      * intros [[?|[-> ->]]|(_ & -> & ?)]; auto.
      * intros [?|(_ & -> & [->|?])]; auto.
  - split; [by left|]. intros [?|(? & _)]; done.
Qed.

Section Exit.

Variable rnd : nat -> nat.
Variable nrandom : Z.
Variable seqs : list (list string).
Variable behaviours : list string.
Variable E : gmap string (list string).
Variables block_first block_last : bool.
Variable observed_matrix : list (list nat).
Variable wfuel : nat.
Variable space : list string.

Lemma tally_count p count results count' results' :
  tally behaviours observed_matrix p count results = Ret (count', results') →
  (p = [] ∧ count' = count ∧ results' = results)
  ∨ (p ≠ [] ∧ count' = count + 1).
Proof.
  unfold tally. destruct p as [|seq p].
  - intros [= <- <-]. by left.
  - destruct (permuted_transitions_matrix _ _); simpl; [|done..].
    intros [= <- <-]. by right.
Qed.

(** Once [count] is past [nrandom] the loop is never left. *)
Lemma trials_overshoot fuel count count_tot results k r :
  (nrandom < Z.of_nat count)%Z →
  trials rnd nrandom seqs behaviours E block_first block_last observed_matrix
    wfuel fuel space count count_tot results k ≠ Ret r.
Proof.
  revert count count_tot results k.
  induction fuel as [|fuel IH]; intros count count_tot results k Hc; [done|].
  simpl.
  destruct (strings_permutation _ _ _ _ _ _ _ _) as [[p k1]| |]; simpl; [|done..].
  destruct (tally _ _ p count results) as [[count' results']| |] eqn:Ht;
    simpl; [|done..].
  assert (count ≤ count') as Hle.
  { apply tally_count in Ht as [(_ & -> & _)|(_ & ->)]; lia. }
  rewrite bool_decide_eq_false_2 by lia. apply IH. lia.
Qed.

End Exit.

(** The one way out of the loop of [permutations_test] for [nrandom <= 0]. *)
Lemma permutations_test_exit (rnd : nat -> nat) (fuel : nat)
    (nrandom : Z) (seqs : list (list string)) (behaviours : list string)
    (E : gmap string (list string)) (block_first block_last : bool)
    (observed_matrix : list (list nat)) (no_repetition : bool)
    (count_tot : nat) (results : list (list nat)) :
  (nrandom ≤ 0)%Z →
  permutations_test rnd fuel nrandom seqs behaviours E block_first block_last
    observed_matrix no_repetition = Ret (count_tot, results)
  ↔ nrandom = 0%Z ∧ 0 < fuel
    ∧ count_tot = 1 ∧ results = zeros (length behaviours)
    ∧ ∃ k', strings_permutation rnd (no_repeat no_repetition behaviours E)
              block_first block_last fuel (pool block_first block_last seqs)
              seqs 0 = Ret ([], k').
Proof.
  intros Hn. unfold permutations_test. destruct fuel as [|fuel].
  { simpl. split; [done|]. intros (_ & ? & _). lia. }
  cbn [trials].
  destruct (strings_permutation _ _ _ _ _ _ _ _) as [[p k1]| |] eqn:Hp;
    cbn [mbind result_bind rbind].
  - destruct p as [|seq p].
    + cbn [tally mbind result_bind rbind]. case_bool_decide as H0.
      * cbn [mbind result_bind rbind]. split.
        -- intros [= <- <-]. split; [lia|]. split; [lia|]. eauto.
        -- intros (_ & _ & -> & -> & _). done.
      * split; [|intros (-> & _); done].
        destruct (trials _ _ _ _ _ _ _ _ _ _ _ _ _ _ _) as [[[ct res] k2]| |] eqn:Hrun;
          cbn [mbind result_bind rbind]; [|done..].
        intros _. exfalso.
        (* count is 0 and differs from nrandom <= 0: nrandom < 0 *)
        eapply trials_overshoot; [|exact Hrun]. simpl in H0. lia.
    + destruct (tally _ _ (seq :: p) 0 _) as [[count' results']| |] eqn:Ht;
        cbn [mbind result_bind rbind].
      * apply tally_count in Ht as [(? & _)|(_ & ->)]; [done|].
        rewrite bool_decide_eq_false_2 by lia.
        split; [|by intros (_ & _ & _ & _ & k' & [=])].
        destruct (trials _ _ _ _ _ _ _ _ _ _ _ _ _ _ _) as [[[ct res] k2]| |] eqn:Hrun;
          cbn [mbind result_bind rbind]; [|done..].
        intros _. exfalso. eapply trials_overshoot; [|exact Hrun]. lia.
      * split; [done|]. by intros (_ & _ & _ & _ & k' & [=]).
      * split; [done|]. by intros (_ & _ & _ & _ & k' & [=]).
  - split; [done|]. by intros (_ & _ & _ & _ & k' & [=]).
  - split; [done|]. by intros (_ & _ & _ & _ & k' & [=]).
Qed.

(** X8.  For [nrandom <= 0] the loop of [permutations_test] has one way out:
    [nrandom] is 0 and the first attempt is abandoned; the result is then
    [(1, zeros)].  If the first attempt succeeds, or [nrandom] is negative,
    [count] is never equal to [nrandom] again and the function does not
    return. *)
Theorem permutations_test_nonpositive (rnd : nat -> nat) (fuel : nat)
    (nrandom : Z) (seqs : list (list string)) (behaviours : list string)
    (E : gmap string (list string)) (block_first block_last : bool)
    (observed_matrix : list (list nat)) (no_repetition : bool)
    (count_tot : nat) (results : list (list nat)) :
  (nrandom ≤ 0)%Z →
  permutations_test rnd fuel nrandom seqs behaviours E block_first block_last
    observed_matrix no_repetition = Ret (count_tot, results)
  ↔ nrandom = 0%Z ∧ 0 < fuel
    ∧ count_tot = 1 ∧ results = zeros (length behaviours)
    ∧ ∃ k', strings_permutation rnd (no_repeat no_repetition behaviours E)
              block_first block_last fuel (pool block_first block_last seqs)
              seqs 0 = Ret ([], k').
Proof. apply permutations_test_exit. Qed.

Lemma permutations_test_nonpositive_witness :
  (0 ≤ 0)%Z
  ∧ permutations_test (fun k => k) 3 0 [["a"; "a"]] ["a"] ∅ false false [[1]]
      true
    = Ret (1, [[0]]).
Proof.
  split; [lia|].
  apply (permutations_test_nonpositive (fun k => k) 3 0 [["a"; "a"]] ["a"] ∅
           false false [[1]] true 1 [[0]]); [lia|].
  split; [done|]. split; [lia|]. split; [done|]. split; [done|].
  exists 1. apply strings_permutation_aa.
Defined.

(** ** The randomization stage of [main] *)

Lemma gather_from lst acc r :
  for_each (fun acc (l : result (nat * list (list nat))) =>
              r ← l; Ret (acc.1 + r.1, matrix_add acc.2 r.2)) lst acc = Ret r →
  ∃ rs, lst = Ret <$> rs
        ∧ r = foldl (fun acc l => (acc.1 + l.1, matrix_add acc.2 l.2)) acc rs.
Proof.
  revert acc. induction lst as [|l lst IH]; intros acc; simpl.
  - intros [= <-]. by exists [].
  - destruct l as [x| |]; simpl; [|done..].
    intros (rs & -> & ->)%IH. by exists (x :: rs).
Qed.

Lemma gather_returns n lst r :
  gather n lst = Ret r → ∃ rs, lst = Ret <$> rs ∧ r = merge n rs.
Proof.
  unfold gather. destruct (existsb still_running lst); [done|].
  apply gather_from.
Qed.

Lemma cell_outside n m i j : square n m → n ≤ i ∨ n ≤ j → cell m i j = 0.
Proof.
  intros [Hm Fm] Hij. unfold cell.
  destruct (m !! i) as [row|] eqn:Hrow; [|done]. simpl.
  pose proof (Forall_lookup_1 _ _ _ _ Fm Hrow) as Hlen. simpl in Hlen.
  apply lookup_lt_Some in Hrow.
  destruct (row !! j) as [x|] eqn:Hx; [|done].
  apply lookup_lt_Some in Hx. lia.
Qed.

(** What one worker hands back. *)
Lemma permutations_test_bounds rnd fuel nrandom seqs behaviours E bf bl obs nr
    ct res :
  square (length behaviours) obs →
  permutations_test rnd fuel nrandom seqs behaviours E bf bl obs nr
  = Ret (ct, res) →
  (nrandom ≤ Z.of_nat ct)%Z
  ∧ square (length behaviours) res
  ∧ ∀ i j, (Z.of_nat (cell res i j) ≤ nrandom)%Z.
Proof.
  intros Hobs. unfold permutations_test.
  destruct (trials _ _ _ _ _ _ _ _ _ _ _ _ _ _ _) as [[[ct' res'] k']| |] eqn:Hrun;
    simpl; [|done..].
  intros [= <- <-].
  apply trials_spec in Hrun as (n & log & Hlog & Hct & Hlen & Hn & Hsq & Hok & Hcell);
    [|done|apply zeros_square].
  simpl in Hct, Hn. subst ct'.
  assert (length (successful log) ≤ n) as Hle.
  { rewrite <- Hlen. unfold successful. apply length_filter. }
  split; [lia|]. split; [done|]. intros i j.
  destruct (decide (i < length behaviours ∧ j < length behaviours)) as [[Hi Hj]|Hout].
  - rewrite Hcell, cell_zeros by done. simpl.
    pose proof (length_filter
                  (fun p => meets behaviours obs i j p = true) (successful log)).
    lia.
  - rewrite (cell_outside (length behaviours)); [lia|done|lia].
Qed.

Lemma shares_fst nrandom num_proc :
  1 ≤ num_proc →
  (shares nrandom num_proc).1
  = replicate (num_proc - 1) (nrandom `div` Z.of_nat num_proc)%Z
    ++ [(nrandom - Z.of_nat (num_proc - 1) * (nrandom `div` Z.of_nat num_proc))%Z].
Proof. intros H. by rewrite shares_spec. Qed.

Lemma shares_sum nrandom num_proc :
  1 ≤ num_proc → sum_Z (shares nrandom num_proc).1 = nrandom.
Proof.
  intros H. rewrite shares_fst by done.
  rewrite sum_Z_app, sum_Z_replicate. simpl. lia.
Qed.

(** The workers' results against their shares, summed. *)
Lemma workers_sum n (f : nat → Z → result (nat * list (list nat))) shares0 rs i0 :
  imap (fun i s => f (i0 + i) s) shares0 = Ret <$> rs →
  (∀ i s r, f i s = Ret r →
     (s ≤ Z.of_nat r.1)%Z ∧ square n r.2
     ∧ ∀ a b, (Z.of_nat (cell r.2 a b) ≤ s)%Z) →
  Forall (fun r => square n r.2) rs
  ∧ (sum_Z shares0 ≤ Z.of_nat (sum_list (fst <$> rs)))%Z
  ∧ ∀ a b, (Z.of_nat (sum_list ((fun r => cell r.2 a b) <$> rs)) ≤ sum_Z shares0)%Z.
Proof.
  intros Himap Hf. revert rs i0 Himap.
  induction shares0 as [|s shares0 IH]; intros rs i0 Himap.
  - destruct rs; [|done]. split; [constructor|]. split; [done|]. intros; done.
  - destruct rs as [|r rs]; [done|]. csimpl in Himap.
    injection Himap as Hr Hrest.
    destruct (Hf _ _ _ Hr) as (H1 & H2 & H3).
    destruct (IH rs (S i0)) as (G1 & G2 & G3).
    { rewrite <- Hrest. apply imap_ext. intros i x _. simpl.
      by rewrite Nat.add_succ_r. }
    split; [by constructor|]. csimpl. split; [lia|].
    intros a b. specialize (H3 a b). specialize (G3 a b). lia.
Qed.

(** X9.  When the randomization stage of [main] ends with
    [(nb_randomization_done, results)], for [num_proc >= 1] workers:
    [nrandom] is not negative, the attempts done are at least [nrandom],
    and [results] is a square matrix whose cells are at most [nrandom], so
    that [results / nrandom] lies between 0 and 1. *)
Theorem randomization_bounds (rnds : nat -> nat -> nat) (fuel : nat)
    (nrandom : Z) (num_proc : nat) (seqs : list (list string))
    (behaviours : list string) (E : gmap string (list string))
    (block_first block_last : bool) (observed_matrix : list (list nat))
    (no_repetition : bool) (done_ : nat) (results : list (list nat)) :
  1 ≤ num_proc →
  square (length behaviours) observed_matrix →
  randomization rnds fuel nrandom num_proc seqs behaviours E
    block_first block_last observed_matrix no_repetition
  = Ret (done_, results) →
  (0 ≤ nrandom ≤ Z.of_nat done_)%Z
  ∧ square (length behaviours) results
  ∧ ∀ i j, (Z.of_nat (cell results i j) ≤ nrandom)%Z.
Proof.
  intros Hw Hobs (rs & Hrs & Hmerge)%gather_returns.
  unfold submit in Hrs.
  destruct (workers_sum (length behaviours)
              (fun i s => permutations_test (rnds i) fuel s seqs behaviours E
                            block_first block_last observed_matrix no_repetition)
              (shares nrandom num_proc).1 rs 0 Hrs) as (Hsq & Hdone & Hcells).
  { intros i s [ct res] Hr. simpl. by eapply permutations_test_bounds. }
  rewrite shares_sum in Hdone, Hcells by done.
  destruct (merge_from (length behaviours) rs (0, zeros (length behaviours)))
    as (r & Hr & H1 & H2 & H3); [apply zeros_square|done|].
  unfold merge in Hmerge. rewrite Hr in Hmerge. subst r.
  simpl in H1, H2, H3. split.
  - split; [|lia]. specialize (Hcells 0 0). lia.
  - split; [done|]. intros i j. rewrite H3, cell_zeros. apply Hcells.
Qed.

Lemma randomization_bounds_witness :
  1 ≤ 2
  ∧ square (length ["a"; "b"]) [[0; 1]; [1; 0]]
  ∧ randomization (fun i k => i + k) 4 3 2 [["a"; "b"; "a"]] ["a"; "b"] ∅
      false false [[0; 1]; [1; 0]] false
    = Ret (3, [[3; 1]; [2; 3]])
  ∧ (0 ≤ 3 ≤ Z.of_nat 3)%Z
  ∧ square (length ["a"; "b"]) [[3; 1]; [2; 3]]
  ∧ ∀ i j, (Z.of_nat (cell [[3; 1]; [2; 3]]%nat i j) ≤ 3)%Z.
Proof.
  assert (square (length ["a"; "b"]) [[0; 1]; [1; 0]]) as Hobs.
  { split; [reflexivity|]. by repeat constructor. }
  assert (randomization (fun i k => i + k) 4 3 2 [["a"; "b"; "a"]] ["a"; "b"] ∅
            false false [[0; 1]; [1; 0]] false
          = Ret (3, [[3; 1]; [2; 3]])) as Hrun by (vm_compute; reflexivity).
  split; [lia|]. split; [exact Hobs|]. split; [exact Hrun|].
  apply (randomization_bounds (fun i k => i + k) 4 3 2 [["a"; "b"; "a"]]
           ["a"; "b"] ∅ false false [[0; 1]; [1; 0]] false 3 [[3; 1]; [2; 3]]);
    [lia|exact Hobs|exact Hrun].
Defined.

Lemma shares_starved nrandom num_proc :
  (0 ≤ nrandom < Z.of_nat num_proc)%Z →
  (shares nrandom num_proc).1 !! 0 = Some 0%Z.
Proof.
  intros H. rewrite shares_fst by lia.
  rewrite Z.div_small by lia.
  destruct num_proc as [|[|w]]; [lia| |done].
  simpl. f_equal. lia.
Qed.

(** X10.  With fewer randomizations than workers, [0 <= nrandom < num_proc],
    the first worker of [main] is asked for [nrandom // num_proc = 0]
    permutations; unless its first attempt is abandoned, its count is never
    0 again, it does not return, and neither does the randomization stage. *)
Theorem randomization_starved (rnds : nat -> nat -> nat) (fuel : nat)
    (nrandom : Z) (num_proc : nat) (seqs : list (list string))
    (behaviours : list string) (E : gmap string (list string))
    (block_first block_last : bool) (observed_matrix : list (list nat))
    (no_repetition : bool) (r : nat * list (list nat)) :
  (0 ≤ nrandom < Z.of_nat num_proc)%Z →
  (∀ k', strings_permutation (rnds 0) (no_repeat no_repetition behaviours E)
           block_first block_last fuel (pool block_first block_last seqs)
           seqs 0 ≠ Ret ([], k')) →
  randomization rnds fuel nrandom num_proc seqs behaviours E
    block_first block_last observed_matrix no_repetition ≠ Ret r.
Proof.
  intros Hn Hfirst (rs & Hrs & _)%gather_returns.
  pose proof (shares_starved _ _ Hn) as H0.
  assert (submit rnds fuel nrandom num_proc seqs behaviours E block_first
            block_last observed_matrix no_repetition !! 0
          = Some (permutations_test (rnds 0) fuel 0 seqs behaviours E
                    block_first block_last observed_matrix no_repetition))
    as Hw.
  { unfold submit. rewrite list_lookup_imap, H0. done. }
  rewrite Hrs, list_lookup_fmap in Hw.
  destruct (rs !! 0) as [[ct res]|]; [|done]. simpl in Hw.
  injection Hw as Hw. symmetry in Hw.
  apply permutations_test_exit in Hw as (_ & _ & _ & _ & k' & Hk); [|lia].
  by apply (Hfirst k').
Qed.

Lemma randomization_starved_witness :
  (0 ≤ 1 < Z.of_nat 2)%Z
  ∧ ∀ fuel r,
      randomization (fun i k => i + k) fuel 1 2 [["a"; "b"]] ["a"; "b"] ∅
        false false [[0; 1]; [0; 0]] false ≠ Ret r.
Proof.
  split; [lia|]. intros fuel r.
  apply (randomization_starved (fun i k => i + k) fuel 1 2 [["a"; "b"]]
           ["a"; "b"] ∅ false false [[0; 1]; [0; 0]] false r); [lia|].
  intros k'. vm_compute. discriminate.
Defined.

(** ** The observed matrix, for any alphabet *)

Lemma index_raises l x : x ∉ l → Py.index l x = Raise ValueError.
Proof.
  induction l as [|y l IH]; intros Hx; [done|]. simpl.
  apply not_elem_of_cons in Hx as [Hne Hx].
  rewrite decide_False by done. by rewrite IH.
Qed.

Lemma index_lookup l x i : Py.index l x = Ret i → l !! i = Some x.
Proof.
  revert i. induction l as [|y l IH]; intros i; [done|]. simpl.
  destruct (decide (y = x)) as [->|Hne]; [by intros [= <-]|].
  destruct (Py.index l x) as [i'| |]; simpl; [|done..].
  intros [= <-]. by apply IH.
Qed.

Lemma index_nodup l i x : NoDup l → l !! i = Some x → Py.index l x = Ret i.
Proof.
  intros Hl Hi.
  destruct (index_elem l x) as (i' & Hi' & _ & Hx).
  { by eapply list_elem_of_lookup_2. }
  rewrite Hi'. f_equal. by eapply NoDup_lookup.
Qed.

Lemma at_cell_outside behaviours i j p :
  ¬ (p.1 ∈ behaviours ∧ p.2 ∈ behaviours) → at_cell behaviours i j p = false.
Proof.
  intros Hp. unfold at_cell.
  destruct (Py.index behaviours p.1) as [i'| |] eqn:H1; [|done..].
  destruct (Py.index behaviours p.2) as [j'| |] eqn:H2; [|done..].
  exfalso. apply Hp.
  split; eapply list_elem_of_lookup_2, index_lookup; eauto.
Qed.

Lemma observe_pair_square behaviours m p :
  square (length behaviours) m → square (length behaviours) (observe_pair behaviours m p).
Proof.
  intros Hm. unfold observe_pair. case_decide; [|done].
  destruct (Py.index behaviours p.1); [|done..].
  destruct (Py.index behaviours p.2); [|done..].
  by apply bump_square.
Qed.

Lemma observe_pairs_square behaviours m pairs :
  square (length behaviours) m →
  square (length behaviours) (foldl (observe_pair behaviours) m pairs).
Proof.
  revert m. induction pairs as [|p pairs IH]; intros m Hm; [done|].
  simpl. by apply IH, observe_pair_square.
Qed.

Lemma observe_pairs_cells_any behaviours pairs m :
  square (length behaviours) m →
  ∀ i j, cell (foldl (observe_pair behaviours) m pairs) i j
         = cell m i j
           + length (filter (fun p => at_cell behaviours i j p = true) pairs).
Proof.
  revert m. induction pairs as [|p pairs IH]; intros m Hm i j.
  - simpl. lia.
  - cbn [foldl]. rewrite IH by by apply observe_pair_square.
    rewrite filter_cons. unfold observe_pair.
    destruct (decide (p.1 ∈ behaviours ∧ p.2 ∈ behaviours)) as [[H1 H2]|Hout].
    + destruct (index_elem _ _ H1) as (i' & Hi' & Hlt & _).
      destruct (index_elem _ _ H2) as (j' & Hj' & Hlt' & _).
      rewrite Hi', Hj'. rewrite (cell_bump (length behaviours)) by done.
      assert (at_cell behaviours i j p = (i' =? i) && (j' =? j)) as ->.
      { unfold at_cell. by rewrite Hi', Hj'. }
      destruct ((i' =? i) && (j' =? j)).
      * rewrite decide_True by done. simpl. lia.
      * rewrite decide_False by done. lia.
    + rewrite (at_cell_outside _ _ _ _ Hout).
      rewrite decide_False by done. done.
Qed.

Lemma fold_adjacent behaviours seqs m :
  foldl (fun m seq => foldl (observe_pair behaviours) m (adjacent seq)) m seqs
  = foldl (observe_pair behaviours) m (concat (adjacent <$> seqs)).
Proof.
  revert m. induction seqs as [|seq seqs IH]; intros m; [done|].
  csimpl. by rewrite foldl_app, IH.
Qed.

Lemma create_observed_transition_matrix_square seqs behaviours :
  square (length behaviours) (create_observed_transition_matrix seqs behaviours).
Proof.
  unfold create_observed_transition_matrix. rewrite fold_adjacent.
  apply observe_pairs_square, zeros_square.
Qed.

Lemma create_observed_transition_matrix_any seqs behaviours i j :
  cell (create_observed_transition_matrix seqs behaviours) i j
  = transitions behaviours seqs i j.
Proof.
  unfold create_observed_transition_matrix, transitions.
  rewrite fold_adjacent, observe_pairs_cells_any by apply zeros_square.
  by rewrite cell_zeros.
Qed.

Lemma at_cell_nodup behaviours i j a b p :
  NoDup behaviours →
  behaviours !! i = Some a → behaviours !! j = Some b →
  at_cell behaviours i j p = true ↔ p = (a, b).
Proof.
  intros Hnd Ha Hb. destruct p as [x y]. unfold at_cell. simpl. split.
  - destruct (Py.index behaviours x) as [i'| |] eqn:H1; [|done..].
    destruct (Py.index behaviours y) as [j'| |] eqn:H2; [|done..].
    intros [Hi Hj]%andb_true_iff.
    apply Nat.eqb_eq in Hi, Hj. subst i' j'.
    apply index_lookup in H1, H2. congruence.
  - intros [= -> ->].
    rewrite (index_nodup _ _ _ Hnd Ha), (index_nodup _ _ _ Hnd Hb).
    by rewrite !Nat.eqb_refl.
Qed.

(** Two matrices of one shape with the same cells are equal. *)
Lemma square_ext n a b :
  square n a → square n b → (∀ i j, cell a i j = cell b i j) → a = b.
Proof.
  intros [Ha Fa] [Hb Fb] Hcell. apply list_eq_same_length with n; [done..|].
  intros i ra rb Hi Hra Hrb.
  pose proof (Forall_lookup_1 _ _ _ _ Fa Hra) as La.
  pose proof (Forall_lookup_1 _ _ _ _ Fb Hrb) as Lb.
  simpl in La, Lb.
  apply list_eq_same_length with n; [done..|].
  intros j x y Hj Hx Hy.
  specialize (Hcell i j). unfold cell in Hcell.
  rewrite Hra, Hrb in Hcell. simpl in Hcell. by rewrite Hx, Hy in Hcell.
Qed.

(** X11.  Whatever the sequences and the duplicate-free alphabet, the
    observed matrix is square, and its cell [(i, j)] is the number of places
    where the [i]-th token of the alphabet is followed at once by the
    [j]-th; tokens outside the alphabet are passed over. *)
Theorem observed_matrix_counts (seqs : list (list string))
    (behaviours : list string) (i j : nat) (a b : string) :
  NoDup behaviours →
  behaviours !! i = Some a →
  behaviours !! j = Some b →
  square (length behaviours) (create_observed_transition_matrix seqs behaviours)
  ∧ cell (create_observed_transition_matrix seqs behaviours) i j
    = length (filter (fun p => p = (a, b)) (concat (adjacent <$> seqs))).
Proof.
  intros Hnd Ha Hb. split; [apply create_observed_transition_matrix_square|].
  rewrite create_observed_transition_matrix_any. unfold transitions.
  f_equal. apply filter_agree, Forall_forall. intros p _.
  by apply at_cell_nodup.
Qed.

Lemma observed_matrix_counts_witness :
  NoDup ["a"; "b"]
  ∧ ["a"; "b"] !! 0 = Some "a"
  ∧ ["a"; "b"] !! 1 = Some "b"
  ∧ square (length ["a"; "b"])
      (create_observed_transition_matrix [["a"; "b"; "z"; "a"; "b"]; ["b"; "a"]]
         ["a"; "b"])
  ∧ cell (create_observed_transition_matrix
            [["a"; "b"; "z"; "a"; "b"]; ["b"; "a"]] ["a"; "b"]) 0 1
    = 2.
Proof.
  assert (NoDup ["a"; "b"]) as Hnd by (apply (bool_decide_unpack _); vm_compute; exact I).
  split; [exact Hnd|]. split; [reflexivity|]. split; [reflexivity|].
  apply (observed_matrix_counts [["a"; "b"; "z"; "a"; "b"]; ["b"; "a"]]
           ["a"; "b"] 0 1 "a" "b" Hnd eq_refl eq_refl).
Defined.

(** X12.  The observed matrix of two data sets put together is the sum of
    their matrices. *)
Theorem observed_matrix_additive (seqs1 seqs2 : list (list string))
    (behaviours : list string) :
  create_observed_transition_matrix (seqs1 ++ seqs2) behaviours
  = matrix_add (create_observed_transition_matrix seqs1 behaviours)
      (create_observed_transition_matrix seqs2 behaviours).
Proof.
  apply (square_ext (length behaviours)).
  - apply create_observed_transition_matrix_square.
  - apply matrix_add_square; apply create_observed_transition_matrix_square.
  - intros i j.
    rewrite (cell_matrix_add (length behaviours))
      by apply create_observed_transition_matrix_square.
    rewrite !create_observed_transition_matrix_any. unfold transitions.
    by rewrite fmap_app, concat_app, filter_app, length_app.
Qed.

(** X20.  The observed matrix does not depend on the order in which the
    sequences are given. *)
Theorem observed_matrix_order (seqs1 seqs2 : list (list string))
    (behaviours : list string) :
  seqs1 ≡ₚ seqs2 →
  create_observed_transition_matrix seqs1 behaviours
  = create_observed_transition_matrix seqs2 behaviours.
Proof.
  intros Hp. apply (square_ext (length behaviours));
    [apply create_observed_transition_matrix_square..|].
  intros i j. rewrite !create_observed_transition_matrix_any.
  unfold transitions. by rewrite Hp.
Qed.

Lemma observed_matrix_order_witness :
  [["a"; "b"; "b"]; ["b"; "a"]] ≡ₚ [["b"; "a"]; ["a"; "b"; "b"]]
  ∧ create_observed_transition_matrix [["a"; "b"; "b"]; ["b"; "a"]] ["a"; "b"]
    = create_observed_transition_matrix [["b"; "a"]; ["a"; "b"; "b"]] ["a"; "b"].
Proof.
  assert ([["a"; "b"; "b"]; ["b"; "a"]] ≡ₚ [["b"; "a"]; ["a"; "b"; "b"]]) as Hp
    by apply Permutation_swap.
  split; [exact Hp|].
  apply (observed_matrix_order _ _ ["a"; "b"] Hp).
Defined.

Lemma for_each_adjacent behaviours p m :
  for_each (fun m seq => for_each (count_pair behaviours) (adjacent seq) m) p m
  = for_each (count_pair behaviours) (concat (adjacent <$> p)) m.
Proof.
  revert m. induction p as [|seq p IH]; intros m; [done|]. csimpl.
  generalize (adjacent seq). intros l. revert m.
  induction l as [|x l IHl]; intros m; simpl; [apply IH|].
  destruct (count_pair behaviours m x); simpl; [apply IHl|done..].
Qed.

Lemma count_pairs_observe behaviours pairs m :
  for_each (count_pair behaviours) pairs m
  = if decide (Forall (fun p : string * string =>
                         p.1 ∈ behaviours ∧ p.2 ∈ behaviours) pairs)
    then Ret (foldl (observe_pair behaviours) m pairs)
    else Raise ValueError.
Proof.
  revert m. induction pairs as [|p pairs IH]; intros m.
  - cbn [for_each foldl]. by rewrite decide_True by constructor.
  - cbn [for_each foldl].
    destruct (decide (p.1 ∈ behaviours ∧ p.2 ∈ behaviours)) as [[H1 H2]|Hout].
    + assert (count_pair behaviours m p = Ret (observe_pair behaviours m p)) as ->.
      { unfold count_pair, observe_pair. rewrite decide_True by done.
        destruct (index_elem _ _ H1) as (i' & -> & _).
        destruct (index_elem _ _ H2) as (j' & -> & _). done. }
      cbn [mbind result_bind rbind]. rewrite IH.
      destruct (decide (Forall _ pairs)) as [Hall|Hnot].
      * rewrite decide_True; [done|]. by constructor.
      * rewrite decide_False; [done|].
        intros [_ ?]%Forall_cons. done.
    + assert (count_pair behaviours m p = Raise ValueError) as ->.
      { unfold count_pair.
        destruct (decide (p.1 ∈ behaviours)) as [H1|H1].
        - destruct (index_elem _ _ H1) as (i' & -> & _). simpl.
          rewrite index_raises; [done|]. intros H2. by apply Hout.
        - rewrite (index_raises _ _ H1). reflexivity. }
      cbn [mbind result_bind rbind].
      rewrite decide_False; [done|]. intros [? _]%Forall_cons. done.
Qed.

(** X13.  The matrix that [permutations_test] builds for a trial, without the
    membership test, is the observed matrix of the permuted sequences when
    every token with a neighbour is in the alphabet; with one such token
    outside, [behaviours.index] raises [ValueError]. *)
Theorem permuted_matrix_is_observed (behaviours : list string)
    (permuted_sequences : list (list string)) :
  permuted_transitions_matrix behaviours permuted_sequences
  = if decide (Forall (fun p : string * string =>
                         p.1 ∈ behaviours ∧ p.2 ∈ behaviours)
                 (concat (adjacent <$> permuted_sequences)))
    then Ret (create_observed_transition_matrix permuted_sequences behaviours)
    else Raise ValueError.
Proof.
  unfold permuted_transitions_matrix, create_observed_transition_matrix.
  by rewrite for_each_adjacent, count_pairs_observe, fold_adjacent.
Qed.

(** ** The alphabet of the parser *)

Lemma ascii_compare_refl a : Ascii.compare a a = Eq.
Proof. unfold Ascii.compare. apply N.compare_refl. Qed.

Lemma ascii_compare_trans a b c :
  Ascii.compare a b = Lt → Ascii.compare b c = Lt → Ascii.compare a c = Lt.
Proof.
  unfold Ascii.compare. rewrite !N.compare_lt_iff. lia.
Qed.

Lemma string_compare_refl s : String.compare s s = Eq.
Proof.
  induction s as [|a s IH]; [done|]. simpl. by rewrite ascii_compare_refl.
Qed.

Lemma string_compare_trans s1 s2 s3 :
  String.compare s1 s2 = Lt → String.compare s2 s3 = Lt →
  String.compare s1 s3 = Lt.
Proof.
  revert s2 s3. induction s1 as [|a s1 IH]; intros [|b s2] [|c s3]; simpl;
    try done.
  destruct (Ascii.compare a b) eqn:E1; [| |done];
    destruct (Ascii.compare b c) eqn:E2; try done.
  - apply Ascii.compare_eq_iff in E1, E2. subst.
    rewrite ascii_compare_refl. apply IH.
  - apply Ascii.compare_eq_iff in E1. subst. by rewrite E2.
  - apply Ascii.compare_eq_iff in E2. subst. by rewrite E1.
  - by rewrite (ascii_compare_trans _ _ _ E1 E2).
Qed.

Lemma string_leb_cases s1 s2 :
  String.leb s1 s2 = true ↔ s1 = s2 ∨ String.ltb s1 s2 = true.
Proof.
  unfold String.leb, String.ltb.
  destruct (String.compare s1 s2) eqn:E.
  - apply String.compare_eq_iff in E. naive_solver.
  - naive_solver.
  - split; [done|]. intros [->|]; [|done].
    by rewrite string_compare_refl in E.
Qed.

Lemma string_ltb_trans s1 s2 s3 :
  String.ltb s1 s2 = true → String.ltb s2 s3 = true → String.ltb s1 s3 = true.
Proof.
  unfold String.ltb.
  destruct (String.compare s1 s2) eqn:E1; try done.
  destruct (String.compare s2 s3) eqn:E2; try done.
  by rewrite (string_compare_trans _ _ _ E1 E2).
Qed.

Lemma string_leb_trans s1 s2 s3 :
  String.leb s1 s2 = true → String.leb s2 s3 = true → String.leb s1 s3 = true.
Proof.
  rewrite !string_leb_cases.
  intros [->|H1] [->|H2]; eauto using string_ltb_trans.
Qed.

Lemma insert_sorted_perm x l : Py.insert_sorted x l ≡ₚ x :: l.
Proof.
  induction l as [|y l IH]; [done|]. simpl.
  destruct (String.leb x y); [done|].
  rewrite IH. apply Permutation_swap.
Qed.

Lemma sort_perm l : Py.sort l ≡ₚ l.
Proof.
  induction l as [|x l IH]; [done|]. simpl.
  by rewrite insert_sorted_perm, IH.
Qed.

Lemma insert_sorted_sorted x l :
  StronglySorted (fun a b => String.leb a b = true) l →
  StronglySorted (fun a b => String.leb a b = true) (Py.insert_sorted x l).
Proof.
  induction 1 as [|y l Hl IH Hy]; simpl.
  - repeat constructor.
  - destruct (String.leb x y) eqn:Hxy.
    + constructor; [by constructor|].
      constructor; [done|].
      eapply Forall_impl; [exact Hy|]. simpl. intros z Hz.
      by eapply string_leb_trans.
    + constructor; [done|].
      apply Forall_forall. intros z [->|Hz]%insert_sorted_elem.
      * destruct (String.leb_total x y) as [H|H]; [congruence|done].
      * by eapply Forall_forall in Hy.
Qed.

Lemma sort_sorted l :
  StronglySorted (fun a b => String.leb a b = true) (Py.sort l).
Proof.
  induction l as [|x l IH]; simpl; [constructor|].
  by apply insert_sorted_sorted.
Qed.

Lemma sorted_strict l :
  NoDup l →
  StronglySorted (fun a b => String.leb a b = true) l →
  StronglySorted (fun a b => String.ltb a b = true) l.
Proof.
  intros Hnd. induction 1 as [|y l Hl IH Hy]; [constructor|].
  apply NoDup_cons in Hnd as [Hny Hnd].
  constructor; [by apply IH|].
  apply Forall_forall. intros z Hz.
  eapply Forall_forall in Hy; [|exact Hz].
  apply string_leb_cases in Hy as [->|Hy]; done.
Qed.

Lemma unique_behaviours_nodup_from (acc : list string) (seqs : list (list string)) :
  NoDup acc →
  NoDup (foldl (fun acc seq =>
                  foldl (fun acc c => if decide (c ∈ acc) then acc else acc ++ [c])
                        acc seq)
               acc seqs).
Proof.
  revert acc. induction seqs as [|seq seqs IH]; intros acc Hacc; [done|].
  simpl. apply IH. clear IH. revert acc Hacc.
  induction seq as [|c seq IH]; intros acc Hacc; [done|]. simpl.
  apply IH. case_decide; [done|].
  apply NoDup_app. split; [done|]. split; [|apply NoDup_singleton].
  intros x Hx ->%list_elem_of_singleton. done.
Qed.

Lemma unique_behaviours_nodup seqs : NoDup (unique_behaviours seqs).
Proof. apply unique_behaviours_nodup_from, NoDup_nil_2. Qed.

(** X14.  The alphabet that [behav_strings_stats] returns holds exactly the
    tokens of the sequences, once each, in strictly increasing order of
    code points. *)
Theorem behav_strings_stats_alphabet_sorted (text : string) (chunk : Z)
    (behaviors_separator : string) (s : stats) :
  behav_strings_stats text chunk behaviors_separator = Ret s →
  (∀ x, x ∈ behaviours s ↔ ∃ seq, seq ∈ sequences s ∧ x ∈ seq)
  ∧ NoDup (behaviours s)
  ∧ StronglySorted (fun a b => String.ltb a b = true) (behaviours s).
Proof.
  intros Hs. rewrite (stats_behaviours _ _ _ _ Hs).
  assert (NoDup (Py.sort (unique_behaviours (sequences s)))) as Hnd.
  { rewrite sort_perm. apply unique_behaviours_nodup. }
  split; [|split; [done|]].
  - intros x. by rewrite sort_elem, unique_behaviours_elem.
  - apply sorted_strict; [done|]. apply sort_sorted.
Qed.

Lemma behav_strings_stats_alphabet_sorted_witness :
  (∃ s, behav_strings_stats "cab
# note
bca" 0 "" = Ret s
     ∧ behaviours s = ["a"; "b"; "c"]
     ∧ (∀ x, x ∈ behaviours s ↔ ∃ seq, seq ∈ sequences s ∧ x ∈ seq)
     ∧ NoDup (behaviours s)
     ∧ StronglySorted (fun a b => String.ltb a b = true) (behaviours s)).
Proof.
  destruct (behav_strings_stats "cab
# note
bca" 0 "") as [s| |] eqn:Hs; [|vm_compute in Hs; discriminate..].
  exists s. split; [done|]. split.
  - vm_compute in Hs. injection Hs as <-. reflexivity.
  - apply (behav_strings_stats_alphabet_sorted _ _ _ _ Hs).
Defined.

(** ** The counts of the parser *)

Lemma count_up_lookup k m x :
  count_up k m !! x
  = if decide (x = k) then Some (default 0 (m !! k) + 1) else m !! x.
Proof.
  unfold count_up. destruct (m !! k) as [n|] eqn:Hk; simpl.
  - destruct (decide (x = k)) as [->|Hne].
    + by rewrite lookup_insert_eq.
    + by rewrite lookup_insert_ne.
  - destruct (decide (x = k)) as [->|Hne].
    + by rewrite lookup_insert_eq.
    + by rewrite lookup_insert_ne.
Qed.

Lemma count_up_counted k m (c : string → nat) :
  (∀ x, m !! x = counted (c x)) →
  ∀ x, count_up k m !! x = counted (c x + if decide (x = k) then 1 else 0).
Proof.
  intros Hm x. rewrite count_up_lookup.
  destruct (decide (x = k)) as [->|Hne].
  - rewrite Hm. unfold counted.
    destruct (Nat.eqb_spec (c k) 0) as [->|H0]; simpl; [done|].
    destruct (Nat.eqb_spec (c k + 1) 0); [lia|done].
  - by rewrite Hm, Nat.add_0_r.
Qed.

Lemma total_count_up k m : total (count_up k m) = total m + 1.
Proof.
  assert (∀ z1 z2 y : nat, y + z2 + z1 = y + z1 + z2) as Hc
    by (intros; lia).
  unfold total, count_up. destruct (m !! k) as [n|] eqn:Hk.
  - rewrite <- (insert_delete_eq m k (n + 1)).
    rewrite map_fold_insert_L; [|intros; apply Hc|apply lookup_delete_eq].
    rewrite (map_fold_delete_L _ _ k n m); [lia|intros; apply Hc|done].
  - rewrite map_fold_insert_L; [done|intros; apply Hc|done].
Qed.

Lemma scan_nodes_nodes flagOne line_count r not_alnum nodes not_alnum' nodes' :
  for_each (scan_node flagOne line_count) r (not_alnum, nodes)
  = Ret (not_alnum', nodes') →
  nodes' = foldl (fun m k => count_up k m) nodes r.
Proof.
  revert not_alnum nodes. induction r as [|x r IH]; intros na nodes; simpl.
  - by intros [= _ <-].
  - unfold scan_node at 1.
    destruct (if flagOne && negb (Py.isalnum x)
              then c ← Py.ord x; Ret [line_count; c] else Ret na)
      as [na1| |]; simpl; [|done..].
    apply IH.
Qed.

Lemma scan_pairs_fold pairs i starting_nodes d :
  foldl scan_pair (i, starting_nodes, d) pairs
  = (i + length pairs,
     match pairs with
     | p :: _ => if i =? 0 then count_up p.1 starting_nodes else starting_nodes
     | [] => starting_nodes
     end,
     foldl (fun m p => count_up (transition_key p) m) d pairs).
Proof.
  revert i starting_nodes d.
  induction pairs as [|p pairs IH]; intros i sn d; simpl.
  - by rewrite Nat.add_0_r.
  - rewrite IH. replace (S i + length pairs) with (i + S (length pairs)) by lia.
    by destruct pairs.
Qed.

Lemma parse_row_counts flagOne chunk sep st row st' :
  parse_row flagOne chunk sep st row = Ret st' →
  st' = st
  ∨ ∃ r, st_sequences st' = st_sequences st ++ [r]
         ∧ st_nodes st' = foldl (fun m k => count_up k m) (st_nodes st) r
         ∧ st_d st'
           = foldl (fun m p => count_up (transition_key p) m) (st_d st)
               (adjacent r)
         ∧ st_starting_nodes st'
           = match adjacent r with
             | p :: _ => count_up p.1 (st_starting_nodes st)
             | [] => st_starting_nodes st
             end.
Proof.
  unfold parse_row. destruct row as [|c row]; [intros [= <-]; by left|].
  set (r := if (chunk =? 0)%Z then _ else _).
  destruct (for_each _ r _) as [[na nodes]| |] eqn:Hn; simpl; [|done..].
  apply scan_nodes_nodes in Hn. rewrite scan_pairs_fold. simpl.
  intros [= <-]. right. exists r. simpl.
  split; [done|]. split; [done|]. split; [done|]. by destruct (adjacent r).
Qed.

Lemma count_ups_counted ks m (c : string → nat) :
  (∀ x, m !! x = counted (c x)) →
  ∀ x, foldl (fun m k => count_up k m) m ks !! x
       = counted (c x + occurrences x ks).
Proof.
  revert m c. induction ks as [|k ks IH]; intros m c Hm x; simpl.
  - unfold occurrences. simpl. by rewrite Nat.add_0_r.
  - rewrite (IH _ (fun x => c x + if decide (x = k) then 1 else 0));
      [|by apply count_up_counted].
    f_equal. unfold occurrences. rewrite filter_cons.
    destruct (decide (x = k)) as [->|Hne].
    + rewrite decide_True by done. simpl. lia.
    + rewrite decide_False by done. lia.
Qed.

Lemma count_ups_total ks m :
  total (foldl (fun m k => count_up k m) m ks) = total m + length ks.
Proof.
  revert m. induction ks as [|k ks IH]; intros m; simpl; [lia|].
  rewrite IH, total_count_up. lia.
Qed.

Lemma count_keys_counted (pairs : list (string * string)) m (c : string → nat) :
  (∀ k, m !! k = counted (c k)) →
  ∀ k, foldl (fun m p => count_up (transition_key p) m) m pairs !! k
       = counted (c k + length (filter (fun p => transition_key p = k) pairs)).
Proof.
  revert m c. induction pairs as [|p pairs IH]; intros m c Hm k; simpl.
  - by rewrite Nat.add_0_r.
  - rewrite (IH _ (fun k => c k + if decide (k = transition_key p) then 1 else 0));
      [|by apply count_up_counted].
    f_equal. rewrite filter_cons.
    destruct (decide (k = transition_key p)) as [->|Hne].
    + rewrite decide_True by done. simpl. lia.
    + rewrite decide_False by done. lia.
Qed.

Lemma count_keys_total (pairs : list (string * string)) m :
  total (foldl (fun m p => count_up (transition_key p) m) m pairs)
  = total m + length pairs.
Proof.
  revert m. induction pairs as [|p pairs IH]; intros m; simpl; [lia|].
  rewrite IH, total_count_up. lia.
Qed.

Lemma adjacent_starts (x : string) (r : list string) :
  starts x r = true ↔ ∃ p rest, adjacent r = p :: rest ∧ p.1 = x.
Proof.
  destruct r as [|a [|y rest]]; simpl.
  - split; [done|by intros (? & ? & ? & _)].
  - split; [done|by intros (? & ? & ? & _)].
  - rewrite bool_decide_eq_true. split.
    + intros ->. eauto.
    + intros (p & ? & [= <- _] & Hp). done.
Qed.

Lemma parse_row_counts_ok flagOne chunk sep st row st' :
  counts_ok st →
  parse_row flagOne chunk sep st row = Ret st' → counts_ok st'.
Proof.
  intros (Hn & Htn & Hd & Htd & Hs) [->|(r & Hseq & Hnodes & Hdd & Hstart)]%parse_row_counts;
    [done|].
  unfold counts_ok. rewrite Hseq, Hnodes, Hdd, Hstart.
  rewrite fmap_app, !concat_app. csimpl. rewrite !app_nil_r.
  split; [|split; [|split; [|split]]].
  - intros x. rewrite (count_ups_counted _ _ _ Hn).
    f_equal. unfold occurrences. by rewrite filter_app, length_app.
  - rewrite count_ups_total, length_app. lia.
  - intros k. rewrite (count_keys_counted _ _ _ Hd).
    f_equal. by rewrite filter_app, length_app.
  - rewrite count_keys_total, length_app. lia.
  - intros x. rewrite filter_app, length_app. simpl. rewrite filter_cons, filter_nil.
    destruct (adjacent r) as [|p rest] eqn:Hadj.
    + rewrite decide_False; [simpl; by rewrite Hs, Nat.add_0_r|].
      intros (p & rest & Hp & _)%adjacent_starts. congruence.
    + rewrite (count_up_counted _ _ _ Hs). f_equal.
      destruct (decide (x = p.1)) as [->|Hne].
      * rewrite decide_True; [done|]. apply adjacent_starts. eauto.
      * rewrite decide_False; [done|].
        intros (p' & rest' & Hp & Hx)%adjacent_starts. congruence.
Qed.

Lemma parse_rows_counts_ok text chunk sep st :
  parse_rows text chunk sep = Ret st → counts_ok st.
Proof.
  unfold parse_rows. apply for_each_invariant.
  - unfold counts_ok, parse_init, total. simpl.
    rewrite map_fold_empty. repeat split; try done; intros; by rewrite lookup_empty.
  - intros s x s' _. apply parse_row_counts_ok.
Qed.

Lemma behav_strings_stats_counts text chunk sep s :
  behav_strings_stats text chunk sep = Ret s →
  ∃ st, counts_ok st
        ∧ sequences s = st_sequences st ∧ nodes s = st_nodes st
        ∧ d s = st_d st ∧ starting_nodes s = st_starting_nodes st
        ∧ tot_nodes s = total (st_nodes st) ∧ tot_trans s = total (st_d st).
Proof.
  unfold behav_strings_stats.
  destruct (parse_rows text chunk sep) as [st| |] eqn:Hst; simpl; [|done..].
  destruct (for_each after_node _ _) as [after| |]; simpl; [|done..].
  intros [= <-]. exists st. simpl.
  split; [by eapply parse_rows_counts_ok|]. done.
Qed.

(** X15.  In the result of [behav_strings_stats], [nodes[x]] is the number
    of occurrences of the token [x] in the sequences, with no key for a
    token that does not occur, and [tot_nodes] is the number of tokens. *)
Theorem behav_strings_stats_nodes (text : string) (chunk : Z)
    (behaviors_separator : string) (s : stats) :
  behav_strings_stats text chunk behaviors_separator = Ret s →
  (∀ x, nodes s !! x = counted (occurrences x (concat (sequences s))))
  ∧ tot_nodes s = length (concat (sequences s)).
Proof.
  intros (st & (Hn & Htn & _) & -> & -> & _ & _ & -> & _)%behav_strings_stats_counts.
  done.
Qed.

(** X16.  In the result of [behav_strings_stats], [d[k]] is the number of
    transitions whose key [r[i] + SEPARATOR + r[i + 1]] is [k], with no key
    for a transition that does not occur, and [tot_trans] is the number of
    transitions. *)
Theorem behav_strings_stats_transitions (text : string) (chunk : Z)
    (behaviors_separator : string) (s : stats) :
  behav_strings_stats text chunk behaviors_separator = Ret s →
  (∀ k, d s !! k
        = counted (length (filter (fun p => transition_key p = k)
                             (concat (adjacent <$> sequences s)))))
  ∧ tot_trans s = length (concat (adjacent <$> sequences s)).
Proof.
  intros (st & (_ & _ & Hd & Htd & _) & -> & _ & -> & _ & _ & ->)%behav_strings_stats_counts.
  done.
Qed.

(** X17.  In the result of [behav_strings_stats], [starting_nodes[x]] is the
    number of sequences of two tokens or more that begin with [x]: a
    sequence of one token is not counted as a start. *)
Theorem behav_strings_stats_starting_nodes (text : string) (chunk : Z)
    (behaviors_separator : string) (s : stats) :
  behav_strings_stats text chunk behaviors_separator = Ret s →
  ∀ x, starting_nodes s !! x
       = counted (length (filter (fun seq => starts x seq = true) (sequences s))).
Proof.
  intros (st & (_ & _ & _ & _ & Hs) & -> & _ & _ & -> & _)%behav_strings_stats_counts.
  done.
Qed.

Lemma behav_strings_stats_nodes_witness :
  ∃ s, behav_strings_stats "aab
b" 0 "" = Ret s
       ∧ sequences s = [["a"; "a"; "b"]; ["b"]]
       ∧ (∀ x, nodes s !! x = counted (occurrences x (concat (sequences s))))
       ∧ tot_nodes s = length (concat (sequences s)).
Proof.
  destruct (behav_strings_stats "aab
b" 0 "") as [s| |] eqn:Hs; [|vm_compute in Hs; discriminate..].
  exists s. split; [done|]. split.
  - vm_compute in Hs. injection Hs as <-. reflexivity.
  - apply (behav_strings_stats_nodes _ _ _ _ Hs).
Defined.

Lemma behav_strings_stats_transitions_witness :
  ∃ s, behav_strings_stats "a|b|a|b
b|a" 0 "|" = Ret s
       ∧ sequences s = [["a"; "b"; "a"; "b"]; ["b"; "a"]]
       ∧ (∀ k, d s !! k
               = counted (length (filter (fun p => transition_key p = k)
                                    (concat (adjacent <$> sequences s)))))
       ∧ tot_trans s = length (concat (adjacent <$> sequences s)).
Proof.
  destruct (behav_strings_stats "a|b|a|b
b|a" 0 "|") as [s| |] eqn:Hs; [|vm_compute in Hs; discriminate..].
  exists s. split; [done|]. split.
  - vm_compute in Hs. injection Hs as <-. reflexivity.
  - apply (behav_strings_stats_transitions _ _ _ _ Hs).
Defined.

Lemma behav_strings_stats_starting_nodes_witness :
  ∃ s, behav_strings_stats "ab
b
ac" 0 "" = Ret s
       ∧ sequences s = [["a"; "b"]; ["b"]; ["a"; "c"]]
       ∧ ∀ x, starting_nodes s !! x
              = counted (length (filter (fun seq => starts x seq = true)
                                   (sequences s))).
Proof.
  destruct (behav_strings_stats "ab
b
ac" 0 "") as [s| |] eqn:Hs; [|vm_compute in Hs; discriminate..].
  exists s. split; [done|]. split.
  - vm_compute in Hs. injection Hs as <-. reflexivity.
  - apply (behav_strings_stats_starting_nodes _ _ _ _ Hs).
Defined.

(** ** Single-character mode and [chunk] *)

Lemma behav_strings_stats_rows text chunk sep s :
  behav_strings_stats text chunk sep = Ret s →
  ∃ st, parse_rows text chunk sep = Ret st ∧ sequences s = st_sequences st.
Proof.
  unfold behav_strings_stats.
  destruct (parse_rows text chunk sep) as [st| |]; simpl; [|done..].
  destruct (for_each after_node _ _); simpl; [|done..].
  intros [= <-]. by exists st.
Qed.

Lemma chars_visible s :
  Py.all_chars (fun c => negb (Py.isspace c)) s = true →
  Forall visible (Py.chars s).
Proof.
  induction s as [|c s IH]; simpl; [constructor|].
  intros [Hc Hs]%andb_true_iff. constructor; [|by apply IH].
  exists c. split; [done|]. by apply negb_true_iff.
Qed.

Lemma strip_visible s :
  Py.all_chars (fun c => negb (Py.isspace c)) s = true →
  Py.all_chars (fun c => negb (Py.isspace c)) (Py.strip s) = true.
Proof.
  intros Hs. unfold Py.strip, String.rev.
  rewrite (lstrip_no_space s) by done.
  rewrite lstrip_no_space by (by rewrite all_chars_rev_app, Hs).
  by rewrite !all_chars_rev_app, Hs.
Qed.

Lemma behav_strings_stats_visible text chunk s :
  behav_strings_stats text chunk "" = Ret s →
  Forall (Forall visible) (sequences s).
Proof.
  intros Hs.
  destruct (behav_strings_stats_rows _ _ _ _ Hs) as (st & Hst & ->).
  revert Hst. unfold parse_rows.
  apply (for_each_invariant (fun st => Forall (Forall visible) (st_sequences st)));
    [constructor|].
  intros st0 row st1 Hrow Hst0 [->|(r & -> & Hr)]%parse_row_sequences; [done|].
  apply Forall_app. split; [done|]. constructor; [|constructor].
  pose proof (split_ws_pieces (Py.replace (remove_comments text) " " "")) as Hp.
  rewrite Forall_forall in Hp. destruct (Hp row Hrow) as [_ Hns].
  apply strip_visible, chars_visible in Hns. subst r.
  destruct (chunk =? 0)%Z; [done|].
  unfold Py.slice. rewrite drop_0. by apply Forall_take.
Qed.

(** X18.  Without a separator, one character per token,
    [behav_strings_stats] returns for every text and every [chunk], with
    status 0, and every token of its sequences is a single character that
    is not whitespace. *)
Theorem behav_strings_stats_single_characters (text : string) (chunk : Z) :
  ∃ s, behav_strings_stats text chunk "" = Ret s
       ∧ return_code s = 0
       ∧ Forall (Forall visible) (sequences s).
Proof.
  destruct (behav_strings_stats_single_total text chunk) as (s & Hs & Hcode).
  exists s. split; [done|]. split; [done|].
  by eapply behav_strings_stats_visible.
Qed.

Lemma parse_row_cases flagOne chunk sep st row st' :
  parse_row flagOne chunk sep st row = Ret st' →
  (row = EmptyString ∧ st' = st)
  ∨ (row ≠ EmptyString
     ∧ st_sequences st'
       = st_sequences st
         ++ [if (chunk =? 0)%Z
             then (if flagOne then Py.chars (Py.strip row)
                   else Py.split (Py.strip row) sep)
             else Py.slice (if flagOne then Py.chars (Py.strip row)
                            else Py.split (Py.strip row) sep) 0 chunk]).
Proof.
  unfold parse_row. destruct row as [|c row]; [intros [= <-]; by left|].
  set (r := if (chunk =? 0)%Z then _ else _).
  destruct (for_each _ r _) as [[na nodes]| |]; cbn [mbind result_bind rbind];
    [|done..].
  destruct (foldl scan_pair _ _) as [[i sn] d'].
  intros [= <-]. right. split; [done|]. simpl. subst r.
  destruct (chunk =? 0)%Z; done.
Qed.

Lemma parse_rows_chunk flagOne chunk sep rows st0 st0' st1 st1' :
  chunk ≠ 0%Z →
  for_each (parse_row flagOne 0 sep) rows st0 = Ret st0' →
  for_each (parse_row flagOne chunk sep) rows st1 = Ret st1' →
  st_sequences st1 = (fun r => Py.slice r 0 chunk) <$> st_sequences st0 →
  st_sequences st1' = (fun r => Py.slice r 0 chunk) <$> st_sequences st0'.
Proof.
  intros Hc. revert st0 st1.
  induction rows as [|row rows IH]; intros st0 st1; simpl.
  - by intros [= <-] [= <-].
  - destruct (parse_row flagOne 0 sep st0 row) as [a0| |] eqn:H0; simpl; [|done..].
    destruct (parse_row flagOne chunk sep st1 row) as [a1| |] eqn:H1; simpl; [|done..].
    intros Hr0 Hr1 Hst. apply (IH a0 a1); [done..|].
    apply parse_row_cases in H0 as [[-> ->]|[Hne0 ->]],
          H1 as [[Hrow ->]|[Hne1 ->]]; try done.
    rewrite fmap_app, Hst. simpl.
    destruct (Z.eqb_spec chunk 0) as [?|_]; done.
Qed.

(** X19.  [chunk] cuts every sequence to [r[0:chunk]]: the sequences parsed
    with a non-zero [chunk] are those parsed without, each sliced; for a
    positive [chunk] they hold between 1 and [chunk] tokens. *)
Theorem behav_strings_stats_chunk (text : string) (chunk : Z)
    (behaviors_separator : string) (s0 s : stats) :
  chunk ≠ 0%Z →
  behav_strings_stats text 0 behaviors_separator = Ret s0 →
  behav_strings_stats text chunk behaviors_separator = Ret s →
  sequences s = (fun r => Py.slice r 0 chunk) <$> sequences s0
  ∧ ((0 < chunk)%Z →
     Forall (fun seq => 1 ≤ length seq ≤ Z.to_nat chunk) (sequences s)).
Proof.
  intros Hc Hs0 Hs.
  assert (sequences s = (fun r => Py.slice r 0 chunk) <$> sequences s0) as Hseq.
  { destruct (behav_strings_stats_rows _ _ _ _ Hs0) as (st0 & Hst0 & ->).
    destruct (behav_strings_stats_rows _ _ _ _ Hs) as (st & Hst & ->).
    unfold parse_rows in Hst0, Hst.
    by eapply (parse_rows_chunk _ chunk _ _ parse_init st0 parse_init st). }
  split; [done|]. intros Hpos.
  assert (0 ≤ chunk)%Z as Hc0 by lia.
  pose proof (behav_strings_stats_nonempty _ _ _ _ Hc0 Hs) as Hne.
  apply Forall_forall. intros seq Hseq'.
  split.
  - rewrite Forall_forall in Hne. specialize (Hne seq Hseq').
    destruct seq; [done|simpl; lia].
  - rewrite Hseq in Hseq'. apply list_elem_of_fmap in Hseq' as (r & -> & _).
    unfold Py.slice. rewrite drop_0.
    destruct (Z.ltb_spec chunk 0); [lia|]. rewrite length_take. lia.
Qed.

Lemma behav_strings_stats_chunk_witness :
  ∃ s0 s, (2 ≠ 0)%Z
    ∧ behav_strings_stats "abc
d
ef" 0 "" = Ret s0
    ∧ behav_strings_stats "abc
d
ef" 2 "" = Ret s
    ∧ sequences s0 = [["a"; "b"; "c"]; ["d"]; ["e"; "f"]]
    ∧ sequences s = [["a"; "b"]; ["d"]; ["e"; "f"]]
    ∧ sequences s = (fun r => Py.slice r 0 2) <$> sequences s0
    ∧ ((0 < 2)%Z →
       Forall (fun seq => 1 ≤ length seq ≤ Z.to_nat 2) (sequences s)).
Proof.
  destruct (behav_strings_stats "abc
d
ef" 0 "") as [s0| |] eqn:Hs0; [|vm_compute in Hs0; discriminate..].
  destruct (behav_strings_stats "abc
d
ef" 2 "") as [s| |] eqn:Hs; [|vm_compute in Hs; discriminate..].
  exists s0, s. split; [lia|]. split; [done|]. split; [done|].
  split; [vm_compute in Hs0; injection Hs0 as <-; reflexivity|].
  split; [vm_compute in Hs; injection Hs as <-; reflexivity|].
  apply (behav_strings_stats_chunk "abc
d
ef" 2 "" s0 s); [lia|done|done].
Defined.

(** ** Splitting and joining on one character *)

Lemma app_String a s1 s2 : String a s1 +:+ s2 = String a (s1 +:+ s2).
Proof. done. Qed.

Lemma app_snoc cur a s : (cur +:+ String a "") +:+ s = cur +:+ String a s.
Proof.
  induction cur as [|b cur IH]; [done|].
  by rewrite !app_String, IH.
Qed.

Lemma app_empty_r s : s +:+ "" = s.
Proof. induction s as [|a s IH]; [done|]. by rewrite app_String, IH. Qed.

Lemma count_char_app c s1 s2 :
  count_char c (s1 +:+ s2) = count_char c s1 + count_char c s2.
Proof.
  induction s1 as [|a s1 IH]; [done|].
  rewrite app_String. simpl. rewrite IH. lia.
Qed.

Lemma split_go_sep c cur s :
  Py.split_go (String c "") 0 cur (String c s)
  = cur :: Py.split_go (String c "") 0 "" s.
Proof.
  cbn [Py.split_go]. by rewrite prefix_char, bool_decide_eq_true_2.
Qed.

Lemma split_go_other c a cur s :
  a ≠ c →
  Py.split_go (String c "") 0 cur (String a s)
  = Py.split_go (String c "") 0 (cur +:+ String a "") s.
Proof.
  intros Hne. cbn [Py.split_go]. by rewrite prefix_char, bool_decide_eq_false_2.
Qed.

(** A piece without the separator is read in one go. *)
Lemma split_go_piece c cur x rest :
  count_char c x = 0 →
  Py.split_go (String c "") 0 cur (x +:+ rest)
  = Py.split_go (String c "") 0 (cur +:+ x) rest.
Proof.
  revert cur. induction x as [|a x IH]; intros cur Hx.
  - by rewrite app_empty_r.
  - simpl in Hx. destruct (decide (a = c)) as [->|Hne]; [lia|].
    rewrite app_String, split_go_other by done.
    rewrite IH by (simpl in Hx; lia). by rewrite app_snoc.
Qed.

Lemma split_go_pieces c cur s :
  count_char c cur = 0 →
  Forall (fun p => count_char c p = 0) (Py.split_go (String c "") 0 cur s).
Proof.
  revert cur. induction s as [|a s IH]; intros cur Hcur.
  - by repeat constructor.
  - destruct (decide (a = c)) as [->|Hne].
    + rewrite split_go_sep. constructor; [done|]. by apply IH.
    + rewrite split_go_other by done. apply IH.
      rewrite count_char_app, Hcur. simpl. by rewrite decide_False.
Qed.

(** [sep.join(s.split(sep))] is [s]. *)
Lemma join_split_go c cur s :
  Py.join (String c "") (Py.split_go (String c "") 0 cur s) = cur +:+ s.
Proof.
  unfold Py.join. revert cur. induction s as [|a s IH]; intros cur.
  - simpl. by rewrite app_empty_r.
  - destruct (decide (a = c)) as [->|Hne].
    + rewrite split_go_sep. specialize (IH "").
      cbn [String.concat].
      destruct (Py.split_go (String c "") 0 "" s) as [|y l] eqn:Hs.
      { by apply split_go_nonempty in Hs. }
      rewrite IH. done.
    + rewrite split_go_other, IH by done. by rewrite app_snoc.
Qed.

(** [sep.join(l).split(sep)] is [l], for pieces without the separator. *)
Lemma split_join c l :
  l ≠ [] →
  Forall (fun p => count_char c p = 0) l →
  Py.split (Py.join (String c "") l) (String c "") = l.
Proof.
  unfold Py.split, Py.join. intros Hne Hl.
  induction Hl as [|x l Hx Hl IH]; [done|]. clear Hne.
  destruct l as [|y l].
  - simpl. rewrite <- (app_empty_r x) at 1.
    by rewrite split_go_piece.
  - cbn [String.concat]. rewrite split_go_piece by done.
    change (String c "" +:+ ?s) with (String c s).
    simpl "+:+". rewrite split_go_sep. f_equal. by apply IH.
Qed.

(** ** Comment lines *)

Lemma startswith_empty p c : Py.startswith "" (String c p) = false.
Proof. done. Qed.

(** X21.  The lines of [remove_comments(s)] are the lines of [s] that do
    not start with [#], in order; when every line of [s] is a comment the
    result is the empty text, which reads as one empty line.  Removing
    comments twice is the same as removing them once. *)
Theorem remove_comments_lines (s : string) :
  Py.split (remove_comments s) "
"
  = match filter (fun x => Py.startswith x "#" = false) (Py.split s "
") with
    | [] => [""]
    | kept => kept
    end
  ∧ remove_comments (remove_comments s) = remove_comments s.
Proof.
  assert (Py.split (remove_comments s) "
"
  = match filter (fun x => Py.startswith x "#" = false) (Py.split s "
") with
    | [] => [""]
    | kept => kept
    end) as Hlines.
  { unfold remove_comments.
    destruct (filter _ (Py.split s _)) as [|x kept] eqn:Hk; [done|].
    apply split_join; [done|]. rewrite <- Hk.
    apply Forall_forall. intros p [_ Hp]%list_elem_of_filter.
    revert p Hp. apply Forall_forall, split_go_pieces. done. }
  split; [done|].
  unfold remove_comments at 1. rewrite Hlines. unfold remove_comments.
  destruct (filter _ (Py.split s _)) as [|x kept] eqn:Hk; [done|].
  rewrite <- Hk. f_equal.
  apply filter_all, Forall_forall. intros p Hp.
  by apply list_elem_of_filter in Hp as [Hp _].
Qed.

(** X22.  A text with no line that starts with [#] is left as it is by
    [remove_comments]. *)
Theorem remove_comments_unchanged (s : string) :
  (∀ line, line ∈ Py.split s "
" → Py.startswith line "#" = false) →
  remove_comments s = s.
Proof.
  intros Hs. unfold remove_comments.
  rewrite filter_all by (by apply Forall_forall).
  unfold Py.split. by rewrite join_split_go.
Qed.

Lemma remove_comments_unchanged_witness :
  (∀ line, line ∈ Py.split "ab #c

 #d" "
" → Py.startswith line "#" = false)
  ∧ remove_comments "ab #c

 #d" = "ab #c

 #d".
Proof.
  assert (∀ line, line ∈ Py.split "ab #c

 #d" "
" → Py.startswith line "#" = false) as H.
  { intros line Hl. vm_compute in Hl.
    repeat (apply elem_of_cons in Hl as [->|Hl]; [reflexivity|]).
    by apply elem_of_nil in Hl. }
  split; [exact H|]. apply (remove_comments_unchanged _ H).
Defined.

(** ** The exclusions that a specification declares *)

Lemma split_two c s a s2 :
  Py.split s (String c "") = [a; s2]
  ↔ s = a +:+ String c s2 ∧ count_char c a = 0 ∧ count_char c s2 = 0.
Proof.
  unfold Py.split. split.
  - intros Hs.
    pose proof (join_split_go c "" s) as Hj.
    pose proof (split_go_pieces c "" s eq_refl) as Hp.
    rewrite Hs in Hj, Hp. unfold Py.join in Hj. cbn [String.concat] in Hj.
    apply Forall_cons in Hp as [Ha Hp]. apply Forall_cons in Hp as [Hb _].
    split; [|done]. change ("" +:+ s) with s in Hj. by rewrite <- Hj.
  - intros (-> & Ha & Hb).
    rewrite split_go_piece, split_go_sep by done. f_equal.
    rewrite <- (app_empty_r s2) at 1. by rewrite split_go_piece.
Qed.

Lemma declares_split sep row a b :
  declares sep row a b
  ↔ ∃ s2, Py.split (Py.strip row) ":" = [a; s2]
          ∧ a ≠ "" ∧ s2 ≠ "" ∧ b ∈ targets sep s2.
Proof.
  unfold declares. split.
  - intros (s2 & Hrow & Ha & Hs2 & Hca & Hcs & Hb). exists s2.
    split; [|done]. by apply split_two.
  - intros (s2 & (Hrow & Hca & Hcs)%split_two & Ha & Hs2 & Hb).
    by exists s2.
Qed.

Lemma targets_match sep s2 :
  match sep with
  | EmptyString => Py.chars s2
  | String _ _ => if Py.contains s2 sep then Py.split s2 sep else Py.chars s2
  end = targets sep s2.
Proof. unfold targets. by destruct sep. Qed.

Lemma exclusion_row_declares sep m row m' :
  exclusion_row sep m row = Ret m' →
  ∀ a b, excluded m' (a, b) = true
         ↔ excluded m (a, b) = true ∨ declares sep row a b.
Proof.
  unfold exclusion_row. intros Hrow a b. rewrite declares_split.
  destruct (Py.strip row) as [|c0 srow] eqn:Hstrip.
  { injection Hrow as <-. split; [by left|].
    intros [?|(s2 & Hsp & _)]; [done|]. by vm_compute in Hsp. }
  destruct (Py.contains row ":") eqn:Hcolon.
  2:{ injection Hrow as <-. split; [by left|].
      intros [?|(s2 & (Hsp & _)%split_two & _)]; [done|]. exfalso.
      assert (1 ≤ count_char ":" row) as Hc.
      { rewrite <- (count_strip ":" row), Hstrip, Hsp by done.
        rewrite count_char_app. simpl. lia. }
      apply contains_count in Hc. congruence. }
  destruct (Py.split (String c0 srow) ":") as [|s1 [|s2 [|s3 rest]]] eqn:Hsp;
    try done.
  assert ((∃ s2', [s1; s2] = [a; s2'] ∧ a ≠ "" ∧ s2' ≠ "" ∧ b ∈ targets sep s2')
          ↔ s1 = a ∧ s1 ≠ "" ∧ s2 ≠ "" ∧ b ∈ targets sep s2) as ->.
  { split.
    - intros (s2' & [= -> ->] & ? & ? & ?). done.
    - intros (-> & ? & ? & ?). by exists s2. }
  destruct s1 as [|c1 s1].
  { injection Hrow as <-. split; [by left|]. intros [?|(_ & ? & _)]; done. }
  destruct s2 as [|c2 s2].
  { injection Hrow as <-. split; [by left|]. intros [?|(_ & _ & ? & _)]; done. }
  rewrite targets_match in Hrow. injection Hrow as <-.
  rewrite !excluded_spec.
  destruct (decide (String c1 s1 = a)) as [<-|Hne].
  - rewrite lookup_insert_eq.
    destruct (m !! String c1 s1) as [old|] eqn:Hold.
    + rewrite Hold. simpl. split.
      * intros (l & [= <-] & [Hb|Hb]%elem_of_app); [left; eauto|right; done].
      * intros [(l & [= <-] & Hb)|(_ & _ & _ & Hb)];
          (eexists; split; [done|]); apply elem_of_app; eauto.
    + rewrite lookup_insert_eq. simpl. split.
      * intros (l & [= <-] & Hb). right. done.
      * intros [(l & [=] & _)|(_ & _ & _ & Hb)]. eauto.
  - rewrite lookup_insert_ne by done.
    destruct (m !! String c1 s1) as [old|] eqn:Hold.
    + split; [by left|]. intros [?|(? & _)]; done.
    + rewrite lookup_insert_ne by done.
      split; [by left|]. intros [?|(? & _)]; done.
Qed.

Lemma exclusion_rows_declare sep rows m m' :
  for_each (exclusion_row sep) rows m = Ret m' →
  ∀ a b, excluded m' (a, b) = true
         ↔ excluded m (a, b) = true
           ∨ ∃ row, row ∈ rows ∧ declares sep row a b.
Proof.
  revert m. induction rows as [|row rows IH]; intros m; simpl.
  - intros [= <-] a b. split; [by left|].
    intros [?|(row & Hrow & _)]; [done|]. by apply elem_of_nil in Hrow.
  - destruct (exclusion_row sep m row) as [m1| |] eqn:Hrow; simpl; [|done..].
    intros Hrest a b.
    rewrite (IH _ Hrest), (exclusion_row_declares _ _ _ _ Hrow). split.
    + intros [[?|?]|(r & Hr & Hd)]; [by left| |].
      * right. exists row. split; [apply list_elem_of_here|done].
      * right. exists r. split; [by apply list_elem_of_further|done].
    + intros [?|(r & [->|Hr]%elem_of_cons & Hd)]; [by left; left| |].
      * left. by right.
      * right. by exists r.
Qed.

(** X23.  In the map that [check_exclusion_list] builds from a
    specification, [b] is excluded after [a] exactly when some line of the
    specification reads [a:s2] once stripped, with one colon and nothing
    empty around it, and [b] is one of the targets of [s2]: the pieces of
    [s2] when the separator is given and occurs in [s2], the characters of
    [s2] otherwise. *)
Theorem parse_exclusions_declared (exclusion_str behaviors_separator : string)
    (m : gmap string (list string)) (a b : string) :
  parse_exclusions exclusion_str behaviors_separator = Ret m →
  (∃ l, m !! a = Some l ∧ b ∈ l)
  ↔ ∃ row, row ∈ Py.split exclusion_str "
" ∧ declares behaviors_separator row a b.
Proof.
  intros Hm. rewrite <- excluded_spec. unfold parse_exclusions in Hm.
  destruct exclusion_str as [|c s].
  - injection Hm as <-. split; [done|].
    intros (row & Hrow & Hd). vm_compute in Hrow.
    apply list_elem_of_singleton in Hrow as ->.
    apply declares_split in Hd as (s2 & Hsp & _). by vm_compute in Hsp.
  - rewrite (exclusion_rows_declare _ _ _ _ Hm). split; [|by right].
    intros [?|?]; done.
Qed.

Lemma parse_exclusions_declared_witness :
  parse_exclusions "a:bc
  run : walk|a  
a:d
:x" "|" = Ret {[ "a" := ["b"; "c"; "d"]; "run " := [" walk"; "a"] ]}
  ∧ ((∃ l, ({[ "a" := ["b"; "c"; "d"]; "run " := [" walk"; "a"] ]}
              : gmap string (list string)) !! "a" = Some l ∧ "d" ∈ l)
     ↔ ∃ row, row ∈ Py.split "a:bc
  run : walk|a  
a:d
:x" "
" ∧ declares "|" row "a" "d").
Proof.
  assert (parse_exclusions "a:bc
  run : walk|a  
a:d
:x" "|" = Ret {[ "a" := ["b"; "c"; "d"]; "run " := [" walk"; "a"] ]}) as Hm
    by (vm_compute; reflexivity).
  split; [exact Hm|].
  apply (parse_exclusions_declared _ _ _ "a" "d" Hm).
Defined.

Lemma parse_exclusions_rows exclusion_str sep m a b :
  parse_exclusions exclusion_str sep = Ret m →
  excluded m (a, b) = true →
  ∃ row, row ∈ Py.split exclusion_str "
" ∧ declares sep row a b.
Proof.
  unfold parse_exclusions. destruct exclusion_str as [|c s].
  - intros [= <-]. done.
  - intros Hm Hab. apply (exclusion_rows_declare _ _ _ _ Hm) in Hab as [?|?]; done.
Qed.

(** X24.  When no line of the specification has the separator after its
    colon, the text after the colon is cut into characters, so that only
    tokens of one character are ever excluded: sequences whose tokens are
    all longer pass the check, whatever the specification says. *)
Theorem check_exclusion_list_long_tokens (exclusion_str : string)
    (seqs : list (list string)) (behaviors_separator : string)
    (r : check_result) :
  (∀ row a s2, row ∈ Py.split exclusion_str "
" → Py.strip row = a +:+ ":" +:+ s2 →
               Py.contains s2 behaviors_separator = false) →
  (∀ seq x, seq ∈ seqs → x ∈ seq → ¬ one_char x) →
  check_exclusion_list exclusion_str seqs behaviors_separator = Ret r →
  error_code r = 0.
Proof.
  intros Hsep Hlong. unfold check_exclusion_list.
  destruct (parse_exclusions exclusion_str behaviors_separator) as [m| |] eqn:Hm;
    simpl; [|done..].
  destruct exclusion_str as [|c s]; [by intros [= <-]|].
  destruct (scan_sequences m seqs) as [[a b]|] eqn:Hscan; [|by intros [= <-]].
  intros _. exfalso.
  apply scan_sequences_first in Hscan as (k & i & [Hv _]).
  assert (excluded m (a, b) = true) as Hab.
  { apply violation_excluded in Hv as (seq & _ & _ & ?). done. }
  destruct Hv as (seq & l & Hseq & _ & Hb & _).
  apply (parse_exclusions_rows _ _ _ _ _ Hm) in Hab
    as (row & Hrow & s2 & Hstrip & _ & _ & _ & _ & Htarget).
  unfold targets in Htarget.
  rewrite (Hsep _ _ _ Hrow Hstrip), andb_false_r in Htarget.
  apply (Hlong seq b).
  - by eapply list_elem_of_lookup_2.
  - by eapply list_elem_of_lookup_2.
  - pose proof (chars_one_char s2) as Hone.
    rewrite Forall_forall in Hone. by apply Hone.
Qed.

Lemma check_exclusion_list_long_tokens_witness :
  (∀ row a s2, row ∈ Py.split "walk:run" "
" → Py.strip row = a +:+ ":" +:+ s2 → Py.contains s2 "|" = false)
  ∧ (∀ seq x, seq ∈ [["walk"; "run"; "walk"]] → x ∈ seq → ¬ one_char x)
  ∧ check_exclusion_list "walk:run" [["walk"; "run"; "walk"]] "|"
    = Ret (CheckResult 0 None {[ "walk" := ["r"; "u"; "n"] ]})
  ∧ error_code (CheckResult 0 None {[ "walk" := ["r"; "u"; "n"] ]}) = 0.
Proof.
  assert (∀ row a s2, row ∈ Py.split "walk:run" "
" → Py.strip row = a +:+ ":" +:+ s2 → Py.contains s2 "|" = false) as Hsep.
  { intros row a s2 Hrow Hstrip. vm_compute in Hrow.
    apply list_elem_of_singleton in Hrow as ->.
    assert (Py.split (Py.strip "walk:run") ":" = ["walk"; "run"]) as Hsp
      by (vm_compute; reflexivity).
    rewrite Hstrip in Hsp.
    assert (count_char ":" (a +:+ ":" +:+ s2) = 1) as Hc
      by (rewrite <- Hstrip; vm_compute; reflexivity).
    change (a +:+ ":" +:+ s2) with (a +:+ String ":" s2) in Hc, Hsp.
    rewrite count_char_app in Hc. simpl in Hc.
    assert (Py.split (a +:+ String ":" s2) ":" = [a; s2]) as Hsp'.
    { apply split_two. split; [done|]. lia. }
    rewrite Hsp' in Hsp. injection Hsp as -> ->. vm_compute. reflexivity. }
  assert (∀ seq x, seq ∈ [["walk"; "run"; "walk"]] → x ∈ seq → ¬ one_char x)
    as Hlong.
  { intros seq x ->%list_elem_of_singleton Hx [c ->].
    repeat (apply elem_of_cons in Hx as [Hx|Hx]; [discriminate|]).
    by apply elem_of_nil in Hx. }
  assert (check_exclusion_list "walk:run" [["walk"; "run"; "walk"]] "|"
          = Ret (CheckResult 0 None {[ "walk" := ["r"; "u"; "n"] ]})) as Hrun
    by (vm_compute; reflexivity).
  split; [exact Hsep|]. split; [exact Hlong|]. split; [exact Hrun|].
  apply (check_exclusion_list_long_tokens _ _ _ _ Hsep Hlong Hrun).
Defined.

(** ** The permutation test without constraints *)

Lemma elem_take (x : string) n l : x ∈ take n l → x ∈ l.
Proof. intros H. rewrite <- (take_drop n l). apply elem_of_app. by left. Qed.

Lemma elem_drop (x : string) n l : x ∈ drop n l → x ∈ l.
Proof. intros H. rewrite <- (take_drop n l). apply elem_of_app. by right. Qed.

Lemma elem_concat {A} (x : A) (ls : list (list A)) :
  x ∈ concat ls ↔ ∃ l, x ∈ l ∧ l ∈ ls.
Proof.
  induction ls as [|l ls IH]; simpl.
  - split; [by intros ?%elem_of_nil|]. by intros (l & _ & ?%elem_of_nil).
  - rewrite elem_of_app, IH. split.
    + intros [?|(l' & ? & ?)].
      * exists l. split; [done|apply list_elem_of_here].
      * exists l'. split; [done|by apply list_elem_of_further].
    + intros (l' & Hx & [->|Hl]%elem_of_cons); [by left|].
      right. by exists l'.
Qed.

Section FreeRun.

Variable rnd : nat -> nat.
Variable block_first : bool.
Variable fuel : nat.

Lemma draw_free seq positions space newseq element k :
  length positions ≤ length space →
  ∃ drawn space',
    draw rnd ∅ false fuel seq positions space newseq element k
    = Ret (Some (space', newseq ++ drawn), k + length positions)
    ∧ space ≡ₚ drawn ++ space'
    ∧ length drawn = length positions.
Proof.
  revert space newseq element k.
  induction positions as [|c positions IH]; intros space newseq element k Hlen.
  - exists [], space. simpl. by rewrite app_nil_r, Nat.add_0_r.
  - cbn [draw]. unfold candidates. rewrite lookup_empty.
    destruct space as [|y space0] eqn:Hspace; [simpl in Hlen; lia|].
    rewrite <- Hspace in *.
    destruct (choice_total rnd space k) as (x & -> & Hx); [by subst|].
    cbn [mbind result_bind rbind].
    destruct (remove_total space x Hx) as (space1 & Hrem). rewrite Hrem.
    cbn [mbind result_bind rbind andb].
    apply remove_perm in Hrem.
    destruct (IH space1 (newseq ++ [x]) x (S k)) as (drawn & space' & -> & Hp & Hd).
    { apply Permutation_length in Hrem. simpl in Hrem, Hlen. lia. }
    exists (x :: drawn), space'. split; [|split].
    + rewrite <- app_assoc. simpl. do 2 f_equal. lia.
    + rewrite Hrem. simpl. by rewrite Hp.
    + simpl. by rewrite Hd.
Qed.

Lemma permute_sequence_free space seq k :
  (block_first = true → seq ≠ []) →
  length (interior block_first false seq) ≤ length space →
  ∃ drawn space',
    permute_sequence rnd ∅ block_first false fuel space seq k
    = Ret (Some (space', take (if block_first then 1 else 0) seq ++ drawn),
           k + length (interior block_first false seq))
    ∧ space ≡ₚ drawn ++ space'
    ∧ length drawn = length (interior block_first false seq).
Proof.
  intros Hne Hlen. unfold permute_sequence.
  destruct block_first.
  - destruct seq as [|x seq]; [by destruct Hne|].
    cbn [item_first mbind result_bind rbind].
    destruct (draw_free (x :: seq) (interior true false (x :: seq)) space [x] x k
                Hlen) as (drawn & space' & -> & Hp & Hd).
    cbn [mbind result_bind rbind]. by exists drawn, space'.
  - cbn [mbind result_bind rbind].
    destruct (draw_free seq (interior false false seq) space [] "" k Hlen)
      as (drawn & space' & -> & Hp & Hd).
    cbn [mbind result_bind rbind]. by exists drawn, space'.
Qed.

Lemma permute_all_free seqs space acc k :
  (block_first = true → Forall (fun seq => seq ≠ []) seqs) →
  length (pool block_first false seqs) ≤ length space →
  ∃ news k',
    permute_all rnd ∅ block_first false fuel seqs space acc k
    = Ret (acc ++ news, k')
    ∧ length news = length seqs
    ∧ ∀ newseq x, newseq ∈ news → x ∈ newseq →
        x ∈ space ∨ ∃ seq, seq ∈ seqs ∧ x ∈ seq.
Proof.
  revert space acc k. induction seqs as [|seq seqs IH]; intros space acc k Hne Hlen.
  - exists [], k. simpl. rewrite app_nil_r. split; [done|]. split; [done|].
    intros newseq x Hn. by apply elem_of_nil in Hn.
  - unfold pool in Hlen. rewrite fmap_cons in Hlen. simpl in Hlen.
    rewrite length_app in Hlen. cbn [permute_all].
    destruct (permute_sequence_free space seq k) as (drawn & space' & -> & Hp & Hd).
    { intros Hb. specialize (Hne Hb). by apply Forall_cons in Hne as [? _]. }
    { lia. }
    cbn [mbind result_bind rbind].
    destruct (IH space'
                (acc ++ [take (if block_first then 1 else 0) seq ++ drawn])
                (k + length (interior block_first false seq)))
      as (news & k' & -> & Hn & Htok).
    { intros Hb. specialize (Hne Hb). by apply Forall_cons in Hne as [_ ?]. }
    { apply Permutation_length in Hp. rewrite length_app in Hp.
      unfold pool. lia. }
    exists ((take (if block_first then 1 else 0) seq ++ drawn) :: news), k'.
    split; [by rewrite <- app_assoc|]. split; [simpl; by rewrite Hn|].
    intros newseq x [->|Hin]%elem_of_cons Hx.
    + apply elem_of_app in Hx as [Hx|Hx].
      * right. exists seq. split; [apply list_elem_of_here|].
        by eapply elem_take.
      * left. rewrite Hp. apply elem_of_app. by left.
    + destruct (Htok newseq x Hin Hx) as [Hs|(s & Hs & Hxs)].
      * left. rewrite Hp. apply elem_of_app. by right.
      * right. exists s. split; [by apply list_elem_of_further|done].
Qed.

Lemma pool_elem block_last seqs x :
  x ∈ pool block_first block_last seqs → ∃ seq, seq ∈ seqs ∧ x ∈ seq.
Proof.
  unfold pool. intros (l & Hx & (seq & -> & Hseq)%list_elem_of_fmap)%elem_concat.
  exists seq. split; [done|].
  unfold interior, Py.slice in Hx.
  by eapply elem_take, elem_drop.
Qed.

Lemma strings_permutation_free seqs k :
  seqs ≠ [] →
  (block_first = true → Forall (fun seq => seq ≠ []) seqs) →
  ∃ perm k',
    strings_permutation rnd ∅ block_first false fuel
      (pool block_first false seqs) seqs k = Ret (perm, k')
    ∧ perm ≠ []
    ∧ ∀ newseq x, newseq ∈ perm → x ∈ newseq → ∃ seq, seq ∈ seqs ∧ x ∈ seq.
Proof.
  intros Hseqs Hne. unfold strings_permutation.
  destruct (permute_all_free seqs (pool block_first false seqs) [] k Hne)
    as (news & k' & -> & Hn & Htok); [done|].
  exists news, k'. split; [done|]. split.
  - destruct news; [|done]. by destruct seqs.
  - intros newseq x Hin Hx.
    destruct (Htok newseq x Hin Hx) as [Hp|?]; [|done].
    by eapply pool_elem.
Qed.

End FreeRun.

Lemma tally_free behaviours observed_matrix p count results :
  p ≠ [] →
  (∀ newseq x, newseq ∈ p → x ∈ newseq → x ∈ behaviours) →
  ∃ results',
    tally behaviours observed_matrix p count results = Ret (count + 1, results').
Proof.
  intros Hp Htok. unfold tally. destruct p as [|seq p]; [done|].
  unfold permuted_transitions_matrix.
  rewrite for_each_adjacent, count_pairs_observe.
  rewrite decide_True; [cbn [mbind result_bind rbind]; eauto|].
  apply Forall_forall. intros [a b] (l & Hab & (newseq & -> & Hn)%list_elem_of_fmap)%elem_concat.
  apply adjacent_elem in Hab as [Ha Hb]. simpl. split; by eapply Htok.
Qed.

Lemma trials_free rnd nrandom seqs behaviours block_first observed_matrix
    wfuel fuel count count_tot results k :
  seqs ≠ [] →
  (block_first = true → Forall (fun seq => seq ≠ []) seqs) →
  (∀ seq x, seq ∈ seqs → x ∈ seq → x ∈ behaviours) →
  (Z.of_nat count < nrandom ≤ Z.of_nat count + Z.of_nat fuel)%Z →
  ∃ results' k',
    trials rnd nrandom seqs behaviours ∅ block_first false observed_matrix
      wfuel fuel (pool block_first false seqs) count count_tot results k
    = Ret (count_tot + (Z.to_nat nrandom - count), results', k').
Proof.
  intros Hseqs Hne Htok.
  revert count count_tot results k.
  induction fuel as [|fuel IH]; intros count count_tot results k Hn; [lia|].
  cbn [trials].
  destruct (strings_permutation_free rnd block_first wfuel seqs k Hseqs Hne)
    as (perm & k1 & -> & Hperm & Hin).
  cbn [mbind result_bind rbind].
  destruct (tally_free behaviours observed_matrix perm count results Hperm)
    as (results1 & ->).
  { intros newseq x Hnew Hx. destruct (Hin newseq x Hnew Hx) as (seq & ? & ?).
    by eapply Htok. }
  cbn [mbind result_bind rbind].
  case_bool_decide as Hstop.
  - exists results1, k1. do 3 f_equal. lia.
  - destruct (IH (count + 1) (count_tot + 1) results1 k1) as (r & k' & ->); [lia|].
    exists r, k'. do 3 f_equal. lia.
Qed.

(** X25.  Without exclusions, [block_last] and [no_repetition], no trial is
    abandoned: on a non-empty list of sequences whose tokens are all in the
    alphabet, with an observed matrix of the size of the alphabet,
    [permutations_test] returns for every [nrandom >= 1], whatever the
    random draws, after exactly [nrandom] trials. *)
Theorem permutations_test_unconstrained (rnd : nat -> nat) (fuel : nat)
    (nrandom : Z) (seqs : list (list string)) (behaviours : list string)
    (block_first : bool) (observed_matrix : list (list nat)) :
  seqs ≠ [] →
  (block_first = true → Forall (fun seq => seq ≠ []) seqs) →
  (∀ seq x, seq ∈ seqs → x ∈ seq → x ∈ behaviours) →
  square (length behaviours) observed_matrix →
  (1 ≤ nrandom ≤ Z.of_nat fuel)%Z →
  ∃ results,
    permutations_test rnd fuel nrandom seqs behaviours ∅ block_first false
      observed_matrix false
    = Ret (Z.to_nat nrandom, results).
Proof.
  intros Hseqs Hne Htok Hobs Hn. unfold permutations_test, no_repeat.
  destruct (trials_free rnd nrandom seqs behaviours block_first observed_matrix
              fuel fuel 0 0 (zeros (length behaviours)) 0 Hseqs Hne Htok)
    as (results & k' & ->); [lia|].
  cbn [mbind result_bind rbind]. exists results. do 2 f_equal. lia.
Qed.

Lemma permutations_test_unconstrained_witness :
  [["a"; "b"; "a"]; ["b"]] ≠ []
  ∧ (true = true → Forall (fun seq : list string => seq ≠ []) [["a"; "b"; "a"]; ["b"]])
  ∧ (∀ seq x, seq ∈ [["a"; "b"; "a"]; ["b"]] → x ∈ seq → x ∈ ["a"; "b"])
  ∧ square (length ["a"; "b"]) [[0; 1]; [1; 0]]
  ∧ (1 ≤ 2 ≤ Z.of_nat 5)%Z
  ∧ ∀ rnd, ∃ results,
      permutations_test rnd 5 2 [["a"; "b"; "a"]; ["b"]] ["a"; "b"] ∅ true false
        [[0; 1]; [1; 0]] false
      = Ret (Z.to_nat 2, results).
Proof.
  assert (Forall (fun seq : list string => seq ≠ []) [["a"; "b"; "a"]; ["b"]])
    as Hne by (by repeat constructor).
  assert (∀ seq x, seq ∈ [["a"; "b"; "a"]; ["b"]] → x ∈ seq → x ∈ ["a"; "b"])
    as Htok.
  { assert (Forall (Forall (fun x : string => x ∈ ["a"; "b"]))
              [["a"; "b"; "a"]; ["b"]]) as HF by (repeat constructor).
    intros seq x Hseq Hx. rewrite Forall_forall in HF.
    specialize (HF seq Hseq). rewrite Forall_forall in HF. by apply HF. }
  assert (square (length ["a"; "b"]) [[0; 1]; [1; 0]]) as Hobs.
  { split; [reflexivity|]. by repeat constructor. }
  split; [done|]. split; [done|]. split; [exact Htok|]. split; [exact Hobs|].
  split; [lia|]. intros rnd.
  apply (permutations_test_unconstrained rnd 5 2 [["a"; "b"; "a"]; ["b"]]
           ["a"; "b"] true [[0; 1]; [1; 0]]);
    [done|done|exact Htok|exact Hobs|lia].
Defined.

(** X26.  With no sequence at all, every trial of [permutations_test]
    gives the empty list, which counts as abandoned: for [nrandom] other
    than 0 the count never moves and the function does not return. *)
Theorem permutations_test_no_sequence (rnd : nat -> nat) (fuel : nat)
    (nrandom : Z) (behaviours : list string)
    (E : gmap string (list string)) (block_first block_last : bool)
    (observed_matrix : list (list nat)) (no_repetition : bool) :
  nrandom ≠ 0%Z →
  permutations_test rnd fuel nrandom [] behaviours E block_first block_last
    observed_matrix no_repetition
  = OutOfFuel.
Proof.
  intros Hn. unfold permutations_test.
  rewrite trials_never_stop; [done|done|].
  intros k. right. by exists k.
Qed.

Lemma permutations_test_no_sequence_witness :
  (3 ≠ 0)%Z
  ∧ ∀ rnd fuel,
      permutations_test rnd fuel 3 [] ["a"] ∅ false false [[0]] false
      = OutOfFuel.
Proof.
  split; [lia|]. intros rnd fuel.
  apply (permutations_test_no_sequence rnd fuel 3 ["a"] ∅ false false [[0]] false).
  lia.
Defined.

(** ** The parser and the observed matrix *)

Lemma transition_key_inj p q :
  one_char p.1 → one_char p.2 → one_char q.1 → one_char q.2 →
  transition_key p = transition_key q → p = q.
Proof.
  destruct p as [a b], q as [a' b']. simpl.
  intros [x ->] [y ->] [x' ->] [y' ->] H.
  vm_compute in H. by injection H as -> ->.
Qed.

Lemma visible_one_char tok : visible tok → one_char tok.
Proof. intros (c & -> & _). by exists c. Qed.

Lemma behav_strings_stats_one_char text chunk s :
  behav_strings_stats text chunk "" = Ret s →
  ∀ seq x, seq ∈ sequences s → x ∈ seq → one_char x.
Proof.
  intros Hs seq x Hseq Hx.
  pose proof (behav_strings_stats_visible _ _ _ Hs) as Hv.
  rewrite Forall_forall in Hv. specialize (Hv seq Hseq).
  rewrite Forall_forall in Hv. by apply visible_one_char, Hv.
Qed.

Lemma pairs_one_char text chunk s p :
  behav_strings_stats text chunk "" = Ret s →
  p ∈ concat (adjacent <$> sequences s) → one_char p.1 ∧ one_char p.2.
Proof.
  intros Hs (l & Hp & (seq & -> & Hseq)%list_elem_of_fmap)%elem_concat.
  destruct p as [a b]. apply adjacent_elem in Hp as [Ha Hb].
  split; by eapply behav_strings_stats_one_char.
Qed.

(** X27.  The two counts of transitions that [main] prints agree: for the
    one-character tokens [a] and [b] at the places [i] and [j] of the
    alphabet, [d[a + SEPARATOR + b]] is the cell [(i, j)] of the observed
    matrix, with no key when the cell is 0; and the cells of the matrix sum
    to [tot_trans]. *)
Theorem stats_matrix_agree (text : string) (chunk : Z) (s : stats)
    (i j : nat) (a b : string) :
  behav_strings_stats text chunk "" = Ret s →
  behaviours s !! i = Some a →
  behaviours s !! j = Some b →
  d s !! (a +:+ SEPARATOR +:+ b)
  = counted (cell (create_observed_transition_matrix (sequences s) (behaviours s))
               i j)
  ∧ matrix_sum (create_observed_transition_matrix (sequences s) (behaviours s))
    = tot_trans s.
Proof.
  intros Hs Ha Hb.
  destruct (behav_strings_stats_counts _ _ _ _ Hs)
    as (st & (_ & _ & Hd & Htd & _) & Hseq & _ & Hds & _ & _ & Htt).
  split.
  - rewrite Hds, Hd, <- Hseq. f_equal.
    rewrite create_observed_transition_matrix_any. unfold transitions.
    f_equal. apply filter_agree, Forall_forall. intros p Hp.
    assert (NoDup (behaviours s)) as Hnd.
    { rewrite (stats_behaviours _ _ _ _ Hs), sort_perm.
      apply unique_behaviours_nodup. }
    rewrite (at_cell_nodup _ _ _ a b p Hnd Ha Hb).
    change (a +:+ SEPARATOR +:+ b) with (transition_key (a, b)).
    split; [|by intros ->].
    destruct (pairs_one_char _ _ _ _ Hs Hp) as [H1 H2].
    assert (∀ x, x ∈ behaviours s → one_char x) as Hone.
    { intros x Hx. rewrite (stats_behaviours _ _ _ _ Hs) in Hx.
      apply sort_elem, unique_behaviours_elem in Hx as (seq & Hseq' & Hx).
      by eapply behav_strings_stats_one_char. }
    apply transition_key_inj; [done..| |]; apply Hone;
      by eapply list_elem_of_lookup_2.
  - rewrite observed_matrix_pairs by (intros seq x; by eapply behav_strings_stats_alphabet).
    by rewrite Htt, Htd, Hseq.
Qed.

Lemma stats_matrix_agree_witness :
  ∃ s, behav_strings_stats "abab
ba" 0 "" = Ret s
    ∧ behaviours s !! 0 = Some "a"
    ∧ behaviours s !! 1 = Some "b"
    ∧ d s !! ("a" +:+ SEPARATOR +:+ "b") = Some 2
    ∧ d s !! ("a" +:+ SEPARATOR +:+ "b")
      = counted (cell (create_observed_transition_matrix (sequences s)
                         (behaviours s)) 0 1)
    ∧ matrix_sum (create_observed_transition_matrix (sequences s) (behaviours s))
      = tot_trans s.
Proof.
  destruct (behav_strings_stats "abab
ba" 0 "") as [s| |] eqn:Hs; [|vm_compute in Hs; discriminate..].
  assert (behaviours s !! 0 = Some "a") as Ha
    by (vm_compute in Hs; injection Hs as <-; reflexivity).
  assert (behaviours s !! 1 = Some "b") as Hb
    by (vm_compute in Hs; injection Hs as <-; reflexivity).
  exists s. split; [done|]. split; [exact Ha|]. split; [exact Hb|]. split.
  - vm_compute in Hs. injection Hs as <-. vm_compute. reflexivity.
  - apply (stats_matrix_agree "abab
ba" 0 s 0 1 "a" "b" Hs Ha Hb).
Defined.

(** ** Transitions after a token *)

Lemma after_total_count_up x k m :
  after_total x (count_up k m)
  = after_total x m
    + if decide (head (Py.split k SEPARATOR) = Some x) then 1 else 0.
Proof.
  assert (∀ (j1 j2 : string) (z1 z2 y : nat),
            (if decide (head (Py.split j1 SEPARATOR) = Some x)
             then (if decide (head (Py.split j2 SEPARATOR) = Some x)
                   then y + z2 else y) + z1
             else (if decide (head (Py.split j2 SEPARATOR) = Some x)
                   then y + z2 else y))
            = (if decide (head (Py.split j2 SEPARATOR) = Some x)
               then (if decide (head (Py.split j1 SEPARATOR) = Some x)
                     then y + z1 else y) + z2
               else (if decide (head (Py.split j1 SEPARATOR) = Some x)
                     then y + z1 else y))) as Hc.
  { intros. repeat case_decide; lia. }
  unfold after_total, count_up. destruct (m !! k) as [n|] eqn:Hk.
  - rewrite <- (insert_delete_eq m k (n + 1)).
    rewrite map_fold_insert_L; [|intros; apply Hc|apply lookup_delete_eq].
    rewrite (map_fold_delete_L _ _ k n m); [|intros; apply Hc|done].
    case_decide; lia.
  - rewrite map_fold_insert_L; [|intros; apply Hc|done].
    case_decide; lia.
Qed.

Lemma after_total_keys x (pairs : list (string * string)) m :
  after_total x (foldl (fun m p => count_up (transition_key p) m) m pairs)
  = after_total x m
    + length (filter (fun p => head (Py.split (transition_key p) SEPARATOR)
                               = Some x) pairs).
Proof.
  revert m. induction pairs as [|p pairs IH]; intros m; simpl; [lia|].
  rewrite IH, after_total_count_up, filter_cons.
  case_decide; simpl; lia.
Qed.

Lemma parse_rows_after_total x text chunk sep st :
  parse_rows text chunk sep = Ret st →
  after_total x (st_d st)
  = length (filter (fun p => head (Py.split (transition_key p) SEPARATOR)
                             = Some x)
              (concat (adjacent <$> st_sequences st))).
Proof.
  unfold parse_rows.
  apply (for_each_invariant
           (fun st => after_total x (st_d st)
                      = length (filter (fun p => head (Py.split (transition_key p)
                                                         SEPARATOR) = Some x)
                                  (concat (adjacent <$> st_sequences st))))).
  - unfold after_total. simpl. by rewrite map_fold_empty.
  - intros s row s' _ Hinv [->|(r & Hseq & _ & Hd & _)]%parse_row_counts; [done|].
    rewrite Hd, Hseq, after_total_keys, Hinv.
    rewrite fmap_app, concat_app, filter_app, length_app. csimpl.
    by rewrite app_nil_r.
Qed.

Lemma add_up_counted k v m (c : string → nat) :
  0 < v →
  (∀ x, m !! x = counted (c x)) →
  ∀ x, add_up k v m !! x = counted (c x + if decide (k = x) then v else 0).
Proof.
  intros Hv Hm x. unfold add_up.
  destruct (decide (k = x)) as [->|Hne].
  - rewrite Hm. unfold counted.
    destruct (Nat.eqb_spec (c x) 0) as [->|H0]; simpl.
    + rewrite lookup_insert_eq. destruct (Nat.eqb_spec v 0); [lia|done].
    + rewrite lookup_insert_eq. destruct (Nat.eqb_spec (c x + v) 0); [lia|done].
  - rewrite Nat.add_0_r, <- Hm.
    destruct (m !! k); by rewrite lookup_insert_ne.
Qed.

Lemma after_node_pair_key acc a b v :
  after_node acc (String a "" +:+ SEPARATOR +:+ String b "", v)
  = Ret (add_up (String a "") v acc).
Proof. unfold after_node. cbn [fst snd]. by rewrite split_pair_key. Qed.

Lemma after_nodes_counted (l : list (string * nat)) acc (c : string → nat) :
  Forall (fun kv => pair_key kv.1 ∧ 0 < kv.2) l →
  (∀ x, acc !! x = counted (c x)) →
  ∃ after,
    for_each after_node l acc = Ret after
    ∧ ∀ x, after !! x
           = counted (c x
                      + foldr (fun kv n =>
                                 if decide (head (Py.split kv.1 SEPARATOR) = Some x)
                                 then n + kv.2 else n) 0 l).
Proof.
  intros Hl. revert acc c.
  induction Hl as [|[k v] l [(a & b & Hk) Hv] Hl IH]; intros acc c Hacc.
  - exists acc. split; [done|]. intros x. simpl. by rewrite Nat.add_0_r.
  - simpl in Hk, Hv. subst k. cbn [for_each].
    rewrite after_node_pair_key. cbn [mbind result_bind rbind].
    destruct (IH (add_up (String a "") v acc)
                (fun x => c x + if decide (String a "" = x) then v else 0))
      as (after & -> & Hafter).
    { by apply add_up_counted. }
    exists after. split; [done|]. intros x. rewrite Hafter. f_equal.
    cbn [foldr fst snd]. rewrite split_pair_key. cbn [head].
    destruct (decide (String a "" = x)) as [->|Hne].
    + rewrite decide_True by done. lia.
    + rewrite decide_False by (intros [= ?]; done). lia.
Qed.

Lemma behav_strings_stats_parts text chunk sep s :
  behav_strings_stats text chunk sep = Ret s →
  ∃ st, parse_rows text chunk sep = Ret st
        ∧ sequences s = st_sequences st ∧ d s = st_d st
        ∧ for_each after_node (map_to_list (st_d st)) ∅
          = Ret (tot_trans_after_node s).
Proof.
  unfold behav_strings_stats.
  destruct (parse_rows text chunk sep) as [st| |]; simpl; [|done..].
  destruct (for_each after_node _ _) as [after| |] eqn:Hafter; simpl; [|done..].
  intros [= <-]. by exists st.
Qed.

(** X28.  Without a separator, [tot_trans_after_node[x]] is the number of
    transitions that leave the token [x], with no key for a token that is
    never followed by another. *)
Theorem behav_strings_stats_after_node (text : string) (chunk : Z) (s : stats) :
  behav_strings_stats text chunk "" = Ret s →
  ∀ x, tot_trans_after_node s !! x
       = counted (length (filter (fun p => p.1 = x)
                            (concat (adjacent <$> sequences s)))).
Proof.
  intros Hs x.
  destruct (behav_strings_stats_parts _ _ _ _ Hs) as (st & Hst & Hseq & Hd & Hafter).
  destruct (behav_strings_stats_counts _ _ _ _ Hs)
    as (st' & (_ & _ & Hcount & _) & Hseq' & _ & Hd' & _).
  destruct (after_nodes_counted (map_to_list (st_d st)) ∅ (fun _ => 0))
    as (after & Hrun & Hlook).
  { apply Forall_forall. intros [k v] Hkv%elem_of_map_to_list. simpl.
    rewrite <- Hd, Hd', Hcount in Hkv. unfold counted in Hkv.
    destruct (Nat.eqb_spec
                (length (filter (fun p => transition_key p = k)
                           (concat (adjacent <$> st_sequences st')))) 0)
      as [|Hpos]; [done|].
    injection Hkv as <-. split; [|lia].
    destruct (filter _ _) as [|p rest] eqn:Hf; [done|].
    assert (p ∈ filter (fun p => transition_key p = k)
                  (concat (adjacent <$> st_sequences st'))) as Hp
      by (rewrite Hf; apply list_elem_of_here).
    apply list_elem_of_filter in Hp as [<- Hp]. rewrite <- Hseq' in Hp.
    destruct (pairs_one_char _ _ _ _ Hs Hp) as [[a Ha] [b Hb]].
    destruct p as [p1 p2]. simpl in Ha, Hb. subst p1 p2. by exists a, b. }
  { intros y. by rewrite lookup_empty. }
  rewrite Hafter in Hrun. injection Hrun as <-.
  rewrite Hlook. f_equal. simpl.
  assert (∀ l : list (string * nat),
            foldr (fun kv n =>
                     if decide (head (Py.split kv.1 SEPARATOR) = Some x)
                     then n + kv.2 else n) 0 l
            = foldr (uncurry (fun (k : string) (v acc : nat) =>
                       if decide (head (Py.split k SEPARATOR) = Some x)
                       then acc + v else acc)) 0 l) as ->.
  { induction l as [|[k v] l IH]; [done|]. simpl. by rewrite IH. }
  rewrite <- map_fold_foldr.
  change (map_fold _ 0 (st_d st)) with (after_total x (st_d st)).
  rewrite (parse_rows_after_total _ _ _ _ _ Hst), <- Hseq.
  f_equal. apply filter_agree, Forall_forall. intros p Hp.
  destruct (pairs_one_char _ _ _ _ Hs Hp) as [[a Ha] [b Hb]].
  destruct p as [p1 p2]. simpl in Ha, Hb. subst p1 p2.
  unfold transition_key. cbn [fst snd]. rewrite split_pair_key. cbn [head].
  split; [by intros [= ?]|by intros ->].
Qed.

Lemma behav_strings_stats_after_node_witness :
  ∃ s, behav_strings_stats "abab
ba" 0 "" = Ret s
    ∧ tot_trans_after_node s !! "a" = Some 2
    ∧ tot_trans_after_node s !! "b" = Some 2
    ∧ ∀ x, tot_trans_after_node s !! x
           = counted (length (filter (fun p => p.1 = x)
                                (concat (adjacent <$> sequences s)))).
Proof.
  destruct (behav_strings_stats "abab
ba" 0 "") as [s| |] eqn:Hs; [|vm_compute in Hs; discriminate..].
  exists s. split; [done|].
  split; [vm_compute in Hs; injection Hs as <-; vm_compute; reflexivity|].
  split; [vm_compute in Hs; injection Hs as <-; vm_compute; reflexivity|].
  apply (behav_strings_stats_after_node _ _ _ Hs).
Defined.

(** ** No exception in the permutation test *)

Lemma safe_bind {A B} (r : result A) (f : A → result B) :
  safe r → (∀ a, r = Ret a → safe (f a)) → safe (r ≫= f).
Proof.
  intros Hr Hf e. destruct r as [a|e'|]; simpl; [by apply Hf| |done].
  by destruct (Hr e').
Qed.

Lemma safe_ret {A} (a : A) : safe (Ret a).
Proof. by intros e. Qed.

Lemma item_last_nonempty seq : seq ≠ [] → ∃ t, item_last seq = Ret t ∧ t ∈ seq.
Proof.
  intros Hne. unfold item_last.
  destruct (last seq) as [t|] eqn:Ht.
  - exists t. split; [done|]. apply last_Some in Ht as [l ->].
    apply elem_of_app. right. apply list_elem_of_here.
  - by apply last_None in Ht.
Qed.

Section Safe.

Variable rnd : nat -> nat.
Variable E : gmap string (list string).
Variables block_first block_last : bool.
Variable P : string → Prop.

Lemma tail_excluded_safe seq new_element :
  seq ≠ [] → ∃ again, tail_excluded E seq new_element = Ret again.
Proof.
  intros Hne. unfold tail_excluded.
  destruct (E !! new_element) as [l|]; [|eauto].
  destruct (item_last_nonempty seq Hne) as (t & -> & _). simpl. eauto.
Qed.

Lemma without_keeps i l : Forall P l → Forall P (without i l).
Proof.
  intros Hl. apply Forall_forall. intros x [Hx _]%without_elem.
  rewrite Forall_forall in Hl. by apply Hl.
Qed.

Lemma redraw_safe fuel seq space element new_element lspazio2 k :
  seq ≠ [] → Forall P space → Forall P lspazio2 → P new_element →
  safe (redraw rnd E fuel seq space element new_element lspazio2 k)
  ∧ ∀ x k', redraw rnd E fuel seq space element new_element lspazio2 k
            = Ret (Some x, k') → P x.
Proof.
  intros Hne Hspace. revert new_element lspazio2 k.
  induction fuel as [|fuel IH]; intros new_element lspazio2 k Hl Hnew.
  - cbn [redraw].
    destruct (tail_excluded_safe seq new_element Hne) as (again & ->).
    cbn [mbind result_bind rbind]. destruct again.
    + split; [by intros e|done].
    + split; [apply safe_ret|]. by intros x k' [= <- _].
  - cbn [redraw].
    destruct (tail_excluded_safe seq new_element Hne) as (again & ->).
    cbn [mbind result_bind rbind]. destruct again.
    2:{ split; [apply safe_ret|]. by intros x k' [= <- _]. }
    destruct lspazio2 as [|y l] eqn:Hl2.
    { split; [apply safe_ret|done]. }
    rewrite <- Hl2 in *.
    destruct (choice_total rnd lspazio2 k) as (x & -> & Hx); [by subst|].
    cbn [mbind result_bind rbind].
    destruct (item_last_nonempty seq Hne) as (t & -> & _).
    cbn [mbind result_bind rbind].
    apply IH.
    + repeat case_decide; repeat apply without_keeps; done.
    + rewrite Forall_forall in Hl. by apply Hl.
Qed.

Lemma draw_safe fuel seq positions space newseq element k :
  seq ≠ [] → Forall P space → Forall P newseq →
  safe (draw rnd E block_last fuel seq positions space newseq element k)
  ∧ ∀ space' newseq' k',
      draw rnd E block_last fuel seq positions space newseq element k
      = Ret (Some (space', newseq'), k') →
      Forall P space' ∧ Forall P newseq'.
Proof.
  intros Hne. revert space newseq element k.
  induction positions as [|c positions IH]; intros space newseq element k Hs Hn.
  - cbn [draw]. split; [apply safe_ret|]. by intros ? ? ? [= <- <- _].
  - cbn [draw].
    assert (Forall P (candidates E element space)) as Hc.
    { apply Forall_forall. intros x [Hx _]%candidates_elem.
      rewrite Forall_forall in Hs. by apply Hs. }
    destruct (candidates E element space) as [|y l] eqn:Hcand.
    { split; [apply safe_ret|done]. }
    rewrite <- Hcand in *.
    destruct (choice_total rnd (candidates E element space) k)
      as (x & -> & Hx); [by rewrite Hcand|].
    cbn [mbind result_bind rbind].
    destruct (remove_total space x) as (space1 & Hrem).
    { by apply candidates_elem in Hx as [? _]. }
    rewrite Hrem. cbn [mbind result_bind rbind].
    assert (Forall P space1) as Hs1.
    { apply remove_perm in Hrem. rewrite Hrem in Hs.
      by apply Forall_cons in Hs as [_ ?]. }
    assert (P x) as Hpx by (rewrite Forall_forall in Hc; by apply Hc).
    set (r := if block_last && _ then _ else _).
    assert (safe r ∧ ∀ x' k', r = Ret (Some x', k') → P x') as [Hsafe Hres].
    { subst r. destruct (block_last && _).
      - by apply redraw_safe.
      - split; [apply safe_ret|]. by intros ? ? [= <- _]. }
    destruct r as [[[x'|] k1]|e|] eqn:Hr.
    + cbn [mbind result_bind rbind]. apply IH; [done|].
      apply Forall_app. split; [done|]. constructor; [|done]. by eapply Hres.
    + cbn [mbind result_bind rbind]. split; [apply safe_ret|done].
    + by destruct (Hsafe e).
    + cbn [mbind result_bind rbind]. split; [by intros e|done].
Qed.

Lemma permute_sequence_safe fuel space seq k :
  seq ≠ [] → Forall P space → Forall P seq →
  (block_last = true → Forall one_char seq) →
  safe (permute_sequence rnd E block_first block_last fuel space seq k)
  ∧ ∀ space' newseq' k',
      permute_sequence rnd E block_first block_last fuel space seq k
      = Ret (Some (space', newseq'), k') →
      Forall P space' ∧ Forall P newseq'.
Proof.
  intros Hne Hs Hseq Hone. unfold permute_sequence.
  set (start := if block_first then _ else _).
  assert (∃ newseq element, start = Ret (newseq, element) ∧ Forall P newseq)
    as (newseq & element & -> & Hn).
  { subst start. destruct block_first.
    - destruct seq as [|x seq]; [done|]. simpl. exists [x], x. split; [done|].
      apply Forall_cons in Hseq as [? _]. by repeat constructor.
    - exists [], "". split; [done|constructor]. }
  cbn [mbind result_bind rbind].
  destruct (draw_safe fuel seq (interior block_first block_last seq) space
              newseq element k Hne Hs Hn) as [Hsafe Hres].
  destruct (draw _ _ _ _ _ _ _ _ _ _) as [[[[space' newseq']|] k1]|e|] eqn:Hd.
  - cbn [mbind result_bind rbind].
    destruct (Hres space' newseq' k1 eq_refl) as [Hs' Hn'].
    destruct block_last.
    + destruct (item_last_nonempty seq Hne) as (t & -> & Ht).
      cbn [mbind result_bind rbind]. split; [apply safe_ret|].
      intros ? ? ? [= <- <- _]. split; [done|].
      apply Forall_app. split; [done|].
      specialize (Hone eq_refl). rewrite Forall_forall in Hone, Hseq.
      destruct (Hone t Ht) as [c ->]. simpl. constructor; [|done]. by apply Hseq.
    + split; [apply safe_ret|]. by intros ? ? ? [= <- <- _].
  - cbn [mbind result_bind rbind]. split; [apply safe_ret|done].
  - by destruct (Hsafe e).
  - cbn [mbind result_bind rbind]. split; [by intros e|done].
Qed.

Lemma permute_all_safe fuel seqs space acc k :
  Forall (fun seq => seq ≠ [] ∧ Forall P seq
                     ∧ (block_last = true → Forall one_char seq)) seqs →
  Forall P space → Forall (Forall P) acc →
  safe (permute_all rnd E block_first block_last fuel seqs space acc k)
  ∧ ∀ perm k',
      permute_all rnd E block_first block_last fuel seqs space acc k
      = Ret (perm, k') → Forall (Forall P) perm.
Proof.
  intros Hseqs. revert space acc k.
  induction Hseqs as [|seq seqs (Hne & Hseq & Hone) _ IH]; intros space acc k Hs Hacc.
  - cbn [permute_all]. split; [apply safe_ret|]. by intros ? ? [= <- _].
  - cbn [permute_all].
    destruct (permute_sequence_safe fuel space seq k Hne Hs Hseq Hone)
      as [Hsafe Hres].
    destruct (permute_sequence _ _ _ _ _ _ _ _)
      as [[[[space' newseq']|] k1]|e|] eqn:Hp.
    + cbn [mbind result_bind rbind].
      destruct (Hres space' newseq' k1 eq_refl) as [Hs' Hn'].
      apply IH; [done|]. apply Forall_app. split; [done|]. by repeat constructor.
    + cbn [mbind result_bind rbind]. split; [apply safe_ret|].
      intros ? ? [= <- _]. constructor.
    + by destruct (Hsafe e).
    + cbn [mbind result_bind rbind]. split; [by intros e|done].
Qed.

End Safe.

Lemma pool_Forall (P : string → Prop) bf bl seqs :
  Forall (Forall P) seqs → Forall P (pool bf bl seqs).
Proof.
  intros Hs. apply Forall_forall. intros x (seq & Hseq & Hx)%pool_elem.
  rewrite Forall_forall in Hs. specialize (Hs seq Hseq).
  rewrite Forall_forall in Hs. by apply Hs.
Qed.

Lemma tally_safe behaviours observed_matrix p count results :
  Forall (Forall (fun x => x ∈ behaviours)) p →
  safe (tally behaviours observed_matrix p count results).
Proof.
  intros Hp. unfold tally. destruct p as [|seq p']; [apply safe_ret|].
  unfold permuted_transitions_matrix.
  rewrite for_each_adjacent, count_pairs_observe.
  rewrite decide_True; [cbn [mbind result_bind rbind]; apply safe_ret|].
  apply Forall_forall.
  intros [a b] (l & Hab & (newseq & -> & Hn)%list_elem_of_fmap)%elem_concat.
  apply adjacent_elem in Hab as [Ha Hb]. simpl.
  rewrite Forall_forall in Hp. specialize (Hp newseq Hn).
  rewrite Forall_forall in Hp. split; by apply Hp.
Qed.

Lemma trials_safe rnd nrandom seqs behaviours E block_first block_last
    observed_matrix wfuel fuel count count_tot results k :
  Forall (fun seq => seq ≠ [] ∧ Forall (fun x => x ∈ behaviours) seq
                     ∧ (block_last = true → Forall one_char seq)) seqs →
  safe (trials rnd nrandom seqs behaviours E block_first block_last
          observed_matrix wfuel fuel (pool block_first block_last seqs)
          count count_tot results k).
Proof.
  intros Hseqs. revert count count_tot results k.
  induction fuel as [|fuel IH]; intros count count_tot results k; [by intros e|].
  cbn [trials].
  assert (Forall (Forall (fun x => x ∈ behaviours)) seqs) as Htok.
  { eapply Forall_impl; [exact Hseqs|]. by intros seq (_ & ? & _). }
  destruct (permute_all_safe rnd E block_first block_last
              (fun x => x ∈ behaviours) wfuel seqs
              (pool block_first block_last seqs) [] k Hseqs)
    as [Hsafe Hres]; [by apply pool_Forall|constructor|].
  apply safe_bind; [exact Hsafe|]. intros [perm k1] Hperm.
  apply safe_bind.
  { apply tally_safe. by eapply Hres. }
  intros [count' results'] _. case_bool_decide; [apply safe_ret|apply IH].
Qed.

(** X29.  On the sequences, the alphabet and the observed matrix that
    [main] gets from [behav_strings_stats], called without a separator, and
    [create_observed_transition_matrix], [permutations_test] raises no
    exception, whatever the exclusions, the flags, the number of
    permutations and the random draws: every index, removal and lookup it
    makes is defined. *)
Theorem permutations_test_never_raises (text : string) (chunk : Z) (s : stats)
    (rnd : nat -> nat) (fuel : nat) (nrandom : Z)
    (E : gmap string (list string)) (block_first block_last : bool)
    (no_repetition : bool) (e : exn) :
  (0 ≤ chunk)%Z →
  behav_strings_stats text chunk "" = Ret s →
  permutations_test rnd fuel nrandom (sequences s) (behaviours s) E
    block_first block_last
    (create_observed_transition_matrix (sequences s) (behaviours s))
    no_repetition
  ≠ Raise e.
Proof.
  intros Hc Hs. unfold permutations_test.
  assert (Forall (fun seq => seq ≠ [] ∧ Forall (fun x => x ∈ behaviours s) seq
                             ∧ (block_last = true → Forall one_char seq))
            (sequences s)) as Hseqs.
  { pose proof (behav_strings_stats_nonempty _ _ _ _ Hc Hs) as Hne.
    apply Forall_forall. intros seq Hseq.
    rewrite Forall_forall in Hne. split; [by apply Hne|].
    split.
    - apply Forall_forall. intros x Hx. by eapply behav_strings_stats_alphabet.
    - intros _. apply Forall_forall. intros x Hx.
      by eapply behav_strings_stats_one_char. }
  pose proof (trials_safe rnd nrandom (sequences s) (behaviours s)
                (no_repeat no_repetition (behaviours s) E)
                block_first block_last
                (create_observed_transition_matrix (sequences s) (behaviours s))
                fuel fuel 0 0
                (zeros (length (behaviours s))) 0 Hseqs e) as Hsafe.
  destruct (trials _ _ _ _ _ _ _ _ _ _ _ _ _ _ _) as [[[ct res] k]|e'|];
    cbn [mbind result_bind rbind]; [done| |done].
  intros [= ->]. done.
Qed.

Lemma permutations_test_never_raises_witness :
  ∃ s, (0 ≤ 0)%Z
    ∧ behav_strings_stats "abcab
cb" 0 "" = Ret s
    ∧ ∀ rnd fuel nrandom E block_first block_last no_repetition e,
        permutations_test rnd fuel nrandom (sequences s) (behaviours s) E
          block_first block_last
          (create_observed_transition_matrix (sequences s) (behaviours s))
          no_repetition
        ≠ Raise e.
Proof.
  destruct (behav_strings_stats "abcab
cb" 0 "") as [s| |] eqn:Hs; [|vm_compute in Hs; discriminate..].
  exists s. split; [lia|]. split; [done|]. intros.
  apply (permutations_test_never_raises "abcab
cb" 0 s); [lia|exact Hs].
Defined.

(** X30.  On the sequences that [behav_strings_stats] returns without a
    separator, as [main] calls it, every token is one character, so a trial
    of [strings_permutation] that is not abandoned keeps both blocked ends
    whole: under [block_first] each permuted sequence starts with the first
    token of its original, and under [block_last] it ends with the last. *)
Theorem main_permutation_keeps_ends (text : string) (chunk : Z) (s : stats)
    (rnd : nat -> nat) (E : gmap string (list string))
    (block_first block_last : bool) (fuel : nat) (space : list string)
    (k : nat) (perm : list (list string)) (k' : nat) :
  (0 ≤ chunk)%Z →
  behav_strings_stats text chunk "" = Ret s →
  strings_permutation rnd E block_first block_last fuel space (sequences s) k
  = Ret (perm, k') →
  perm ≠ [] →
  Forall2 (fun seq newseq =>
             (block_first = true → head newseq = head seq)
             ∧ (block_last = true → last newseq = last seq))
    (sequences s) perm.
Proof.
  intros Hc Hs Hperm Hne.
  pose proof (strings_permutation_ends _ _ _ _ _ _ _ _ _ _ Hperm Hne) as Hends.
  apply Forall2_same_length_lookup in Hends as [Hlen Hends].
  apply Forall2_same_length_lookup. split; [done|].
  intros i seq newseq Hseq Hnew.
  destruct (Hends i seq newseq Hseq Hnew) as [Hfirst Hlast].
  split; [done|]. intros Hbl.
  assert (seq ∈ sequences s) as Hin by (by eapply list_elem_of_lookup_2).
  pose proof (behav_strings_stats_nonempty _ _ _ _ Hc Hs) as Hnonempty.
  rewrite Forall_forall in Hnonempty. specialize (Hnonempty seq Hin).
  destruct (last seq) as [t|] eqn:Ht; [|by apply last_None in Ht].
  assert (t ∈ seq) as Htin.
  { apply last_Some in Ht as [l ->]. apply elem_of_app. right.
    apply list_elem_of_here. }
  destruct (behav_strings_stats_one_char _ _ _ Hs seq t Hin Htin) as [c ->].
  by apply (Hlast Hbl c).
Qed.

Lemma main_permutation_keeps_ends_witness :
  ∃ s, (0 ≤ 0)%Z
    ∧ behav_strings_stats "abcab" 0 "" = Ret s
    ∧ strings_permutation (fun k => k) ∅ true true 3
        (pool true true (sequences s)) (sequences s) 0
      = Ret ([["a"; "b"; "a"; "c"; "b"]], 3)
    ∧ [["a"; "b"; "a"; "c"; "b"]] ≠ []
    ∧ Forall2 (fun seq newseq : list string =>
                 (true = true → head newseq = head seq)
                 ∧ (true = true → last newseq = last seq))
        (sequences s) [["a"; "b"; "a"; "c"; "b"]].
Proof.
  destruct (behav_strings_stats "abcab" 0 "") as [s| |] eqn:Hs;
    [|vm_compute in Hs; discriminate..].
  assert (strings_permutation (fun k => k) ∅ true true 3
            (pool true true (sequences s)) (sequences s) 0
          = Ret ([["a"; "b"; "a"; "c"; "b"]], 3)) as Hperm
    by (vm_compute in Hs; injection Hs as <-; vm_compute; reflexivity).
  exists s. split; [lia|]. split; [done|]. split; [exact Hperm|].
  split; [done|].
  apply (main_permutation_keeps_ends "abcab" 0 s (fun k => k) ∅ true true 3
           (pool true true (sequences s)) 0 _ 3); [lia|exact Hs|exact Hperm|done].
Defined.
